(** * Contextual subgraph engine of the conversational knowledge-graph backend

    A shallow embedding of [backend/src/core/graph_manager.py] (class
    [GraphManager]) together with the parts of the Python runtime and of
    networkx that it calls, and the proofs of the properties stated for it.

    Conventions of the embedding:
    - a Python [float] is a real number (exact arithmetic; [exp] and [ln] of
      the reals are what [math.exp] and [math.log] return, and [math_exp]
      says when the former raises [OverflowError] instead of returning);
    - a Python [int] is a [Z];
    - a [dict] is an association list in insertion order, with the
      operations of the interpreter ([get], [d[k] = v], [del d[k]]);
    - a [set] of strings is a duplicate-free list; the order in which the
      interpreter iterates over a set is not fixed by the language, so it is
      a service of the runtime ([set_iter]) about which only one thing is
      known: it enumerates the elements of the set;
    - exceptions are values of [exn], fallible code returns a [result];
    - the wall clock, the file system and the PageRank routine are inputs. *)

From Stdlib Require Import List String Ascii Bool Arith ZArith Lia Reals Lra Permutation.
Import ListNotations.


(** ** Python runtime *)

(** Node identifiers are strings. *)
Abbreviation node := string (only parsing).

(** Exceptions that the modelled code can meet. *)
Inductive exn : Type :=
| OSError
| GraphMLError
| NetworkXError
| NetworkXNoPath
| NodeNotFound
| NetworkXNotImplemented
| PowerIterationFailedConvergence
| StopIteration
| ValueError
| AttributeError
| OverflowError.

Inductive result (A : Type) : Type :=
| Ok (a : A)
| Raise (e : exn).

Arguments Ok {A} a.
Arguments Raise {A} e.

Definition bind {A B : Type} (m : result A) (k : A -> result B) : result B :=
  match m with
  | Ok a => k a
  | Raise e => Raise e
  end.

Notation "x <- m ;; k" := (bind m (fun x => k))
  (at level 61, m at next level, right associativity).

(** [try: m except (classes): handler]. *)
Definition try_except {A : Type} (m : result A) (catches : exn -> bool)
  (handler : result A) : result A :=
  match m with
  | Ok a => Ok a
  | Raise e => if catches e then handler else Raise e
  end.

(** [except Exception] catches every exception of [exn]. *)
Definition is_Exception (e : exn) : bool := true.

(** [except nx.NetworkXError]: in networkx [NetworkXNoPath], [NodeNotFound]
    and [NetworkXNotImplemented] derive from [NetworkXException], not from
    [NetworkXError]. *)
Definition is_NetworkXError (e : exn) : bool :=
  match e with
  | NetworkXError => true
  | _ => false
  end.

(** [except (nx.NetworkXNoPath, nx.NodeNotFound)]. *)
Definition is_NoPath_or_NodeNotFound (e : exn) : bool :=
  match e with
  | NetworkXNoPath | NodeNotFound => true
  | _ => false
  end.

(** *** Dictionaries *)

Definition dict (V : Type) := list (string * V).

Fixpoint dict_get {V : Type} (k : string) (d : dict V) : option V :=
  match d with
  | [] => None
  | (k', v) :: d' => if String.eqb k k' then Some v else dict_get k d'
  end.

(** [d.get(k, default)] *)
Definition dict_get_default {V : Type} (k : string) (default : V) (d : dict V) : V :=
  match dict_get k d with
  | Some v => v
  | None => default
  end.

(** [d[k] = v]: an existing key keeps its position, a new key goes last. *)
Fixpoint dict_set {V : Type} (k : string) (v : V) (d : dict V) : dict V :=
  match d with
  | [] => [(k, v)]
  | (k', v') :: d' =>
      if String.eqb k k' then (k, v) :: d' else (k', v') :: dict_set k v d'
  end.

(** [del d[k]] *)
Definition dict_del {V : Type} (k : string) (d : dict V) : dict V :=
  filter (fun p => negb (String.eqb k (fst p))) d.

Definition dict_keys {V : Type} (d : dict V) : list string := map fst d.
Definition dict_values {V : Type} (d : dict V) : list V := map snd d.

(** [d[k]] on a [defaultdict]: a missing key is first inserted with the
    default value. *)
Definition defaultdict_getitem {V : Type} (default : V) (k : string) (d : dict V)
  : V * dict V :=
  match dict_get k d with
  | Some v => (v, d)
  | None => (default, dict_set k default d)
  end.

(** *** Sets of strings *)

Definition pyset := list string.

Definition set_mem (x : string) (s : pyset) : bool := existsb (String.eqb x) s.

Definition set_add (x : string) (s : pyset) : pyset :=
  if set_mem x s then s else s ++ [x].

(** [s.update(xs)] *)
Definition set_update (s : pyset) (xs : list string) : pyset :=
  fold_left (fun acc x => set_add x acc) xs s.

(** [set(xs)] *)
Definition set_of_list (xs : list string) : pyset := set_update [] xs.

(** [a.intersection(b)] *)
Definition set_intersection (a b : pyset) : pyset :=
  filter (fun x => set_mem x b) a.

Definition set_subseteq (a b : pyset) : bool := forallb (fun x => set_mem x b) a.

(** [a == b] on sets *)
Definition set_eqb (a b : pyset) : bool := set_subseteq a b && set_subseteq b a.

(** *** Numbers, slices and sorting *)

Definition len {A : Type} (l : list A) : Z := Z.of_nat (List.length l).

(** [x or default] on an optional integer: [None] and [0] are both falsy. *)
Definition int_or (x : option Z) (default : Z) : Z :=
  match x with
  | None => default
  | Some 0%Z => default
  | Some v => v
  end.

(** [l[:n]]: a negative [n] counts from the end. *)
Definition slice_to {A : Type} (n : Z) (l : list A) : list A :=
  if (n <? 0)%Z
  then firstn (List.length l - Z.to_nat (- n)) l
  else firstn (Z.to_nat n) l.

Definition Rltb (x y : R) : bool := if Rlt_dec x y then true else false.
Definition Reqb (x y : R) : bool := if Req_dec_T x y then true else false.

(** [max(values)] of a non-empty sequence given as head and tail. *)
Definition py_max_float (x : R) (xs : list R) : R := fold_left Rmax xs x.

(** [sorted(l, key=key, reverse=True)]: descending by key, and stable: the
    elements with equal keys keep the order they have in [l]. *)
Fixpoint insert_desc {A : Type} (key : A -> R) (x : A) (l : list A) : list A :=
  match l with
  | [] => [x]
  | y :: l' =>
      if Rltb (key x) (key y) then y :: insert_desc key x l' else x :: y :: l'
  end.

Fixpoint sorted_desc {A : Type} (key : A -> R) (l : list A) : list A :=
  match l with
  | [] => []
  | x :: l' => insert_desc key x (sorted_desc key l')
  end.

(** [max(x :: xs, key=key)] with natural-number keys: the first maximal
    element. *)
Fixpoint py_max_by {A : Type} (key : A -> nat) (x : A) (xs : list A) : A :=
  match xs with
  | [] => x
  | y :: ys => if key x <? key y then py_max_by key y ys else py_max_by key x ys
  end.

(** Distances: [None] is [math.inf]. *)
Definition dist_ltb (a b : option nat) : bool :=
  match a, b with
  | Some x, Some y => x <? y
  | Some _, None => true
  | None, _ => false
  end.

(** [min(x :: xs, key=key)]: the first minimal element. *)
Fixpoint py_min_by {A : Type} (key : A -> option nat) (x : A) (xs : list A) : A :=
  match xs with
  | [] => x
  | y :: ys => if dist_ltb (key y) (key x) then py_min_by key y ys else py_min_by key x ys
  end.

(** Attribute values as [read_graphml] produces them. *)
Inductive attr : Type :=
| AStr (s : string)
| AInt (z : Z)
| AFloat (r : R)
| ABool (b : bool).

(** Truth value of an attribute ([x or y] goes on to [y] when [x] is falsy). *)
Definition truthy (a : attr) : bool :=
  match a with
  | AStr s => negb (String.eqb s "")
  | AInt z => negb (z =? 0)%Z
  | AFloat r => negb (Reqb r 0)
  | ABool b => b
  end.

(** [d.get(k)] followed by [or]: the value when present and truthy. *)
Definition get_truthy (k : string) (d : dict attr) : option attr :=
  match dict_get k d with
  | Some a => if truthy a then Some a else None
  | None => None
  end.

(** [a or b or ... or last] *)
Fixpoint first_truthy (keys : list string) (d : dict attr) (last : attr) : attr :=
  match keys with
  | [] => last
  | k :: ks =>
      match get_truthy k d with
      | Some a => a
      | None => first_truthy ks d last
      end
  end.

(** The services of the interpreter that the language leaves open or that
    work on text and floating-point notation. *)
Record PyRuntime : Type := {
  set_iter : pyset -> list string;      (* iteration order of a set *)
  str_lower : string -> string;         (* str.lower *)
  str_upper : string -> string;         (* str.upper *)
  str_of_number : attr -> string;       (* str(x) of an int, float or bool *)
  float_of_str : string -> option R     (* float(s); None is ValueError *)
}.

(** What is known of [set_iter]: it enumerates the set. *)
Definition runtime_ok (rt : PyRuntime) : Prop :=
  forall s : pyset, Permutation (set_iter rt s) s.

(** [str(x)] *)
Definition py_str (rt : PyRuntime) (a : attr) : string :=
  match a with
  | AStr s => s
  | _ => str_of_number rt a
  end.

(** [float(x)] *)
Definition py_float (rt : PyRuntime) (a : attr) : result R :=
  match a with
  | AStr s =>
      match float_of_str rt s with
      | Some r => Ok r
      | None => Raise ValueError
      end
  | AInt z => Ok (IZR z)
  | AFloat r => Ok r
  | ABool b => Ok (if b then 1%R else 0%R)
  end.

(** ** networkx: undirected graphs with attributed nodes and edges *)

Record Graph : Type := mkGraph {
  g_nodes : dict (dict attr);                    (* G.nodes(data=True) *)
  g_edges : list (node * node * dict attr)       (* G.edges(data=True) *)
}.

(** [nx.Graph()] *)
Definition empty_graph : Graph := {| g_nodes := []; g_edges := [] |}.

Definition nodes (G : Graph) : list node := dict_keys (g_nodes G).

(** [v in G] *)
Definition has_node (G : Graph) (v : node) : bool := set_mem v (nodes G).

Definition number_of_nodes (G : Graph) : nat := List.length (g_nodes G).
Definition number_of_edges (G : Graph) : nat := List.length (g_edges G).

Definition node_data (G : Graph) (v : node) : dict attr :=
  dict_get_default v [] (g_nodes G).

(** [G.adj[v]] *)
Definition neighbors (G : Graph) (v : node) : list node :=
  flat_map (fun e : node * node * dict attr =>
              let '(a, b, _) := e in
              if String.eqb a v then [b]
              else if String.eqb b v then [a] else [])
           (g_edges G).

Fixpoint nodupb (l : list string) : bool :=
  match l with
  | [] => true
  | x :: l' => negb (set_mem x l') && nodupb l'
  end.

(** What networkx guarantees of a graph: node ids are unique and the
    endpoints of every edge are nodes. *)
Definition graph_wfb (G : Graph) : bool :=
  nodupb (nodes G)
  && forallb (fun e : node * node * dict attr =>
                let '(a, b, _) := e in has_node G a && has_node G b)
             (g_edges G).

Definition graph_wf (G : Graph) : Prop := graph_wfb G = true.

(** Breadth-first traversal by levels, as [_plain_bfs] and
    [_single_shortest_path_length] do it: [seen] grows by the unseen
    neighbours of the current level, which form the next level. *)
Definition visit (acc : pyset * list node) (w : node) : pyset * list node :=
  let '(seen, next) := acc in
  if set_mem w seen then acc else (set_add w seen, next ++ [w]).

Definition expand_level (G : Graph) (seen : pyset) (level : list node)
  : pyset * list node :=
  fold_left (fun acc v => fold_left visit (neighbors G v) acc) level (seen, []).

Fixpoint bfs_levels (G : Graph) (rounds : nat) (seen : pyset) (level : list node)
  : pyset :=
  match rounds with
  | O => seen
  | S rounds' =>
      match level with
      | [] => seen
      | _ :: _ =>
          let '(seen', next) := expand_level G seen level in
          bfs_levels G rounds' seen' next
      end
  end.

(** [nx.single_source_shortest_path_length(G, source, cutoff)], the nodes
    only: the loop runs while the level is non-empty and [cutoff > level]. *)
Definition single_source_within (G : Graph) (source : node) (cutoff : Z)
  : result pyset :=
  if has_node G source
  then Ok (bfs_levels G (Z.to_nat cutoff) [source] [source])
  else Raise NodeNotFound.

(** [_plain_bfs(G, n, source)]: the loop runs while the level is non-empty;
    levels are disjoint and non-empty, so there are at most as many as
    nodes. *)
Definition _plain_bfs (G : Graph) (source : node) : pyset :=
  bfs_levels G (number_of_nodes G) [source] [source].

(** Shortest path by breadth-first search; every node of a level carries
    the path that reached it, last node first. *)
Definition visit_path (p : list node) (acc : pyset * list (list node)) (w : node)
  : pyset * list (list node) :=
  let '(seen, next) := acc in
  if set_mem w seen then acc else (set_add w seen, next ++ [w :: p]).

Definition expand_paths (G : Graph) (seen : pyset) (level : list (list node))
  : pyset * list (list node) :=
  fold_left (fun acc p =>
               match p with
               | [] => acc
               | v :: _ => fold_left (visit_path p) (neighbors G v) acc
               end)
            level (seen, []).

Definition ends_at (dst : node) (p : list node) : bool :=
  match p with
  | [] => false
  | v :: _ => String.eqb v dst
  end.

Fixpoint bfs_paths (G : Graph) (rounds : nat) (seen : pyset)
  (level : list (list node)) (dst : node) : option (list node) :=
  match find (ends_at dst) level with
  | Some p => Some (rev p)
  | None =>
      match rounds with
      | O => None
      | S rounds' =>
          match level with
          | [] => None
          | _ :: _ =>
              let '(seen', next) := expand_paths G seen level in
              bfs_paths G rounds' seen' next dst
          end
      end
  end.

(** [nx.shortest_path(G, src, dst)] *)
Definition shortest_path (G : Graph) (src dst : node) : result (list node) :=
  if has_node G src && has_node G dst
  then match bfs_paths G (number_of_nodes G) [src] [[src]] dst with
       | Some p => Ok p
       | None => Raise NetworkXNoPath
       end
  else Raise NodeNotFound.

(** [nx.shortest_path_length(G, src, dst)] *)
Definition shortest_path_length (G : Graph) (src dst : node) : result nat :=
  p <- shortest_path G src dst ;; Ok (List.length p - 1).

(** [G.degree(v)]: a self-loop counts twice. *)
Definition degree (G : Graph) (v : node) : nat :=
  fold_left (fun acc (e : node * node * dict attr) =>
               let '(a, b, _) := e in
               acc + (if String.eqb a v then 1 else 0)
                   + (if String.eqb b v then 1 else 0))
            (g_edges G) 0.

(** [nx.degree_centrality(G)] *)
Definition degree_centrality (G : Graph) : dict R :=
  if number_of_nodes G <=? 1
  then map (fun v => (v, 1%R)) (nodes G)
  else map (fun v => (v, (INR (degree G v) * (1 / (INR (number_of_nodes G) - 1)))%R))
           (nodes G).

(** ** The manager *)

Record Settings : Type := {
  MAX_GRAPH_NODES : Z;
  MAX_HOPS : Z;
  TEMPORAL_DECAY_RATE : R;
  ENTITY_FREQUENCY_WEIGHT : R;
  RECENCY_WEIGHT : R;
  CENTRALITY_WEIGHT : R;
  FOCAL_WEIGHT : R
}.

(** The defaults of [core/config.py]. *)
Definition default_settings : Settings := {|
  MAX_GRAPH_NODES := 100;
  MAX_HOPS := 2;
  TEMPORAL_DECAY_RATE := 0.95;
  ENTITY_FREQUENCY_WEIGHT := 0.3;
  RECENCY_WEIGHT := 0.2;
  CENTRALITY_WEIGHT := 0.3;
  FOCAL_WEIGHT := 0.2
|}.

(** An entry of [node_metadata]. *)
Record NodeMeta : Type := {
  meta_id : node;
  meta_label : string;
  meta_type : attr;
  meta_description : attr
}.

(** The fields of a [GraphManager]; times are seconds on the UTC clock. *)
Record GraphManager : Type := mkManager {
  settings : Settings;
  graph : Graph;
  label_index : dict pyset;
  node_metadata : dict NodeMeta;
  entity_frequency : dict R;
  entity_last_seen : dict R;
  total_queries : Z;
  response_times : list R;
  last_entities : pyset;
  last_query : option string;
  last_response : option string;
  _centrality : dict R
}.

(** What lies outside the process when the graph is loaded: the file at
    [graph_path] and the outcome of the PageRank iteration.
    [Path.exists()] answers, or raises [OSError] for a path that cannot be
    examined (a name longer than the file system allows, a directory that
    the process may not search). *)
Record Env : Type := {
  path_exists : result bool;                   (* self.graph_path.exists() *)
  read_graphml : result Graph;                 (* nx.read_graphml(self.graph_path) *)
  pagerank : Graph -> result (dict R)          (* nx.pagerank(G, max_iter=100) *)
}.

(** [ENTITY_COLORS] *)
Definition ENTITY_COLORS : dict string :=
  [ ("PERSON", "#1f77b4"); ("ORG", "#ff7f0e"); ("EVENT", "#2ca02c");
    ("PLACE", "#9467bd"); ("WORK", "#8c564b"); ("DATE", "#17becf") ]%string.

(** A node of the payload of [graph_to_vis_format]. *)
Record VisNode : Type := {
  vis_id : node;
  vis_label : string;
  vis_type : attr;
  vis_description : attr;
  vis_frequency : R;
  is_focal : bool;
  vis_size : R;
  vis_color : string;
  vis_centrality : R
}.

Record VisLink : Type := {
  link_source : node;
  link_target : node;
  link_relationship : attr;
  link_weight : R;
  link_keywords : attr
}.

Record VisPayload : Type := {
  payload_nodes : list VisNode;
  payload_links : list VisLink
}.

(** [GraphStats] of [models/schemas.py]. *)
Record GraphStats : Type := {
  stats_total_queries : Z;
  unique_entities : nat;
  most_discussed : list (string * Z);
  avg_response_time : R;
  graph_node_count : nat;
  graph_edge_count : nat
}.

Section Manager.

(** The interpreter the manager runs on. *)
Variable rt : PyRuntime.

Local Open Scope R_scope.

(** [G.subgraph(S).copy()]: the nodes of [S] that are in [G], with their
    data, and the edges of [G] between them.  The copy enumerates its nodes
    in the order of the view, which is the order of [G] or the iteration
    order of the node set depending on their sizes; either way an
    enumeration chosen by the runtime. *)
Definition subgraph (G : Graph) (S : pyset) : Graph :=
  {| g_nodes :=
       map (fun v => (v, node_data G v))
           (set_iter rt (filter (fun v => set_mem v S) (nodes G)));
     g_edges :=
       filter (fun e : node * node * dict attr =>
                 let '(a, b, _) := e in set_mem a S && set_mem b S)
              (g_edges G) |}.

(** [nx.ego_graph(G, n, radius=radius)] *)
Definition ego_graph (G : Graph) (n : node) (radius : Z) : result Graph :=
  sp <- single_source_within G n radius ;; Ok (subgraph G sp).

(** [nx.connected_components(G)]: for each node not yet seen, in the order
    of the graph, the set reached from it.  (It raises
    [NetworkXNotImplemented] on directed graphs only; a [Graph] is
    undirected.) *)
Fixpoint components_from (G : Graph) (vs : list node) (seen : pyset) : list pyset :=
  match vs with
  | [] => []
  | v :: vs' =>
      if set_mem v seen
      then components_from G vs' seen
      else let c := _plain_bfs G v in
           c :: components_from G vs' (set_update seen c)
  end.

Definition connected_components (G : Graph) : result (list pyset) :=
  Ok (components_from G (nodes G) []).

(** *** Loading *)

Definition _resolve_label (node_id : node) (data : dict attr) : string :=
  py_str rt (first_truthy ["name"; "label"; "title"]%string data (AStr node_id)).

Definition index_node (acc : dict pyset * dict NodeMeta) (nd : node * dict attr)
  : dict pyset * dict NodeMeta :=
  let '(index, metadata) := acc in
  let '(node_id, data) := nd in
  let label := _resolve_label node_id data in
  let lowered := str_lower rt label in
  let '(bucket, index1) := defaultdict_getitem [] lowered index in
  (dict_set lowered (set_add node_id bucket) index1,
   dict_set node_id
     {| meta_id := node_id;
        meta_label := label;
        meta_type := first_truthy ["entity_type"; "type"]%string data (AStr "ENTITY");
        meta_description := first_truthy ["description"; "summary"]%string data (AStr "") |}
     metadata).

Definition _build_indices (self : GraphManager) : GraphManager :=
  let '(index, metadata) := fold_left index_node (g_nodes (graph self)) ([], []) in
  mkManager (settings self) (graph self) index metadata
    (entity_frequency self) (entity_last_seen self) (total_queries self)
    (response_times self) (last_entities self) (last_query self)
    (last_response self) (_centrality self).

Definition with_centrality (self : GraphManager) (c : dict R) : GraphManager :=
  mkManager (settings self) (graph self) (label_index self) (node_metadata self)
    (entity_frequency self) (entity_last_seen self) (total_queries self)
    (response_times self) (last_entities self) (last_query self)
    (last_response self) c.

Definition _compute_centrality (env : Env) (self : GraphManager) : result GraphManager :=
  if (number_of_nodes (graph self) =? 0)%nat
  then Ok (with_centrality self [])
  else
    c <- try_except (pagerank env (graph self)) is_Exception
           (Ok (degree_centrality (graph self))) ;;
    Ok (with_centrality self c).

Definition with_graph (self : GraphManager) (G : Graph) : GraphManager :=
  mkManager (settings self) G (label_index self) (node_metadata self)
    (entity_frequency self) (entity_last_seen self) (total_queries self)
    (response_times self) (last_entities self) (last_query self)
    (last_response self) (_centrality self).

(** The test [self.graph_path.exists()] stands before the [try]: what it
    raises goes to the caller, before anything is assigned. *)
Definition reload_graph (env : Env) (self : GraphManager) : result GraphManager :=
  there <- path_exists env ;;
  G <- (if there
        then try_except (read_graphml env) is_Exception (Ok empty_graph)
        else Ok empty_graph) ;;
  _compute_centrality env (_build_indices (with_graph self G)).

(** [GraphManager(graph_path, settings)] *)
Definition init (env : Env) (s : Settings) : result GraphManager :=
  reload_graph env (mkManager s empty_graph [] [] [] [] 0%Z [] [] None None []).

(** *** Conversation context *)

Definition with_frequency (self : GraphManager) (f : dict R) : GraphManager :=
  mkManager (settings self) (graph self) (label_index self) (node_metadata self)
    f (entity_last_seen self) (total_queries self)
    (response_times self) (last_entities self) (last_query self)
    (last_response self) (_centrality self).

(** One round of the loop of [apply_temporal_decay]. *)
Definition decay_entry (rate : R) (freq : dict R) (node_id : string) : dict R :=
  let '(w, freq1) := defaultdict_getitem 0 node_id freq in
  let freq2 := dict_set node_id (w * rate) freq1 in
  let '(w', freq3) := defaultdict_getitem 0 node_id freq2 in
  if Rltb w' 1e-4 then dict_del node_id freq3 else freq3.

Definition apply_temporal_decay (self : GraphManager) : GraphManager :=
  match entity_frequency self with
  | [] => self
  | _ :: _ =>
      with_frequency self
        (fold_left (decay_entry (TEMPORAL_DECAY_RATE (settings self)))
                   (dict_keys (entity_frequency self))
                   (entity_frequency self))
  end.

(** One round of the loop of [update_conversation_context]. *)
Definition mention (now : R) (acc : dict R * dict R) (entity : string)
  : dict R * dict R :=
  let '(freq, seen) := acc in
  let '(w, freq1) := defaultdict_getitem 0 entity freq in
  (dict_set entity (w + 1.0) freq1, dict_set entity now seen).

(** [now] is the reading of [datetime.utcnow()]. *)
Definition update_conversation_context (now : R) (self : GraphManager)
  (query response : string) (entities : list string) (response_time : R)
  : GraphManager :=
  let entities := set_of_list entities in
  let self1 := apply_temporal_decay self in
  let '(freq, seen) :=
    fold_left (mention now) (set_iter rt entities)
              (entity_frequency self1, entity_last_seen self1) in
  mkManager (settings self1) (graph self1) (label_index self1) (node_metadata self1)
    freq seen (total_queries self1 + 1)%Z
    (response_times self1 ++ [response_time]) entities (Some query)
    (Some response) (_centrality self1).

(** *** Scoring *)

(** [math.exp(x)]: the exponential, or [OverflowError] ("math range error")
    when it is too large for a float, which is for an argument above the
    logarithm of the largest float. *)
Definition MATH_EXP_MAX : R := 709.782712893384.

Definition math_exp (x : R) : result R :=
  if Rlt_dec MATH_EXP_MAX x then Raise OverflowError else Ok (exp x).

(** The call [self._recency_score(node_id)]; [now] is the reading of
    [datetime.utcnow()] inside the call. *)
Definition _recency_score_call (now : R) (self : GraphManager) (node_id : node)
  : result R :=
  match dict_get node_id (entity_last_seen self) with
  | None => Ok 0.0
  | Some timestamp =>
      let delta_hours := Rmax ((now - timestamp) / 3600.0) 0.0 in
      let decay_rate := - ln (Rmax (TEMPORAL_DECAY_RATE (settings self)) 1e-6) in
      math_exp (- decay_rate * delta_hours)
  end.

(** The number that the call returns when it returns.  It returns always
    with a decay rate of at most 1, the rates the setting is meant for
    ([_recency_score_call_returns] below); with a larger rate the score of
    an old mention grows beyond every float and [math.exp] raises.  The
    statements below that say that a call of the builder, of the export or
    of an endpoint returns are made for a rate of at most 1. *)
Definition _recency_score (now : R) (self : GraphManager) (node_id : node) : R :=
  match dict_get node_id (entity_last_seen self) with
  | None => 0.0
  | Some timestamp =>
      let delta_hours := Rmax ((now - timestamp) / 3600.0) 0.0 in
      let decay_rate := - ln (Rmax (TEMPORAL_DECAY_RATE (settings self)) 1e-6) in
      exp (- decay_rate * delta_hours)
  end.

Definition calculate_node_importance (now : R) (self : GraphManager)
  (node_id : node) (focal_entities : pyset) : R :=
  let freq := dict_get_default node_id 0.0 (entity_frequency self) in
  let max_freq :=
    match dict_values (entity_frequency self) with
    | [] => 1.0
    | x :: xs => py_max_float x xs
    end in
  let freq_score := if Reqb max_freq 0 then 0.0 else freq / max_freq in
  let recency_score := _recency_score now self node_id in
  let centrality_score := dict_get_default node_id 0.0 (_centrality self) in
  let focal_score := if set_mem node_id focal_entities then 1.0 else 0.0 in
  ENTITY_FREQUENCY_WEIGHT (settings self) * freq_score
  + RECENCY_WEIGHT (settings self) * recency_score
  + CENTRALITY_WEIGHT (settings self) * centrality_score
  + FOCAL_WEIGHT (settings self) * focal_score.

(** *** Subgraph selection *)

Definition _shortest_path_safe (self : GraphManager) (src dst : node) : list node :=
  match shortest_path (graph self) src dst with
  | Ok p => p
  | Raise e => [src]     (* only NetworkXNoPath and NodeNotFound occur *)
  end.

(** The result is a distance, [None] standing for [math.inf]. *)
Definition _shortest_path_length_safe (self : GraphManager) (src dst : node)
  : option nat :=
  match shortest_path_length (graph self) src dst with
  | Ok n => Some n
  | Raise e => None
  end.

(** The inner loop of [_ensure_connectivity]: the nodes of [path] join the
    selection one by one; the flag tells that the function returned from
    inside the loop. *)
Fixpoint add_path (path : list node) (selected_nodes : pyset) (max_nodes : Z)
  : pyset * bool :=
  match path with
  | [] => (selected_nodes, false)
  | v :: path' =>
      let selected_nodes' := set_add v selected_nodes in
      if (len selected_nodes' >=? max_nodes)%Z
      then (selected_nodes', true)
      else add_path path' selected_nodes' max_nodes
  end.

(** The outer loop of [_ensure_connectivity]; [focal0 :: focal] is the
    non-empty list [focal]. *)
Fixpoint stitch (self : GraphManager) (components : list pyset)
  (base_component : pyset) (focal0 : node) (focal : list node)
  (selected_nodes : pyset) (max_nodes : Z) : result pyset :=
  match components with
  | [] => Ok selected_nodes
  | component :: rest =>
      if set_eqb component base_component
      then stitch self rest base_component focal0 focal selected_nodes max_nodes
      else
        match set_iter rt component with
        | [] => Raise StopIteration                 (* next(iter(component)) *)
        | source :: _ =>
            let target :=
              py_min_by (fun v => _shortest_path_length_safe self source v)
                        focal0 focal in
            let path := _shortest_path_safe self source target in
            let '(selected_nodes', returned) :=
              add_path path selected_nodes max_nodes in
            if returned
            then Ok selected_nodes'
            else stitch self rest base_component focal0 focal
                        selected_nodes' max_nodes
        end
  end.

(** The method mutates [selected_nodes]; the value returned here is that set
    when the method returns. *)
Definition _ensure_connectivity (self : GraphManager) (sub : Graph)
  (selected_nodes : pyset) (focal_entities : pyset) (max_nodes : Z)
  : result pyset :=
  match focal_entities with
  | [] => Ok selected_nodes
  | _ :: _ =>
      match connected_components sub with
      | Raise e => if is_NetworkXError e then Ok selected_nodes else Raise e
      | Ok components =>
          if (List.length components <=? 1)%nat then Ok selected_nodes
          else
            match filter (has_node (graph self)) (set_iter rt focal_entities) with
            | [] => Ok selected_nodes
            | focal0 :: focal =>
                match components with
                | [] => Ok selected_nodes
                | c0 :: cs =>
                    let base_component :=
                      py_max_by
                        (fun comp => List.length (set_intersection comp focal_entities))
                        c0 cs in
                    stitch self components base_component focal0 focal
                           selected_nodes max_nodes
                end
            end
      end
  end.

(** The first loop of [build_contextual_subgraph]. *)
Fixpoint collect_candidates (self : GraphManager) (entities : list node)
  (max_hops : Z) (candidate_nodes : pyset) : result pyset :=
  match entities with
  | [] => Ok candidate_nodes
  | entity :: rest =>
      if negb (has_node (graph self) entity)
      then collect_candidates self rest max_hops candidate_nodes
      else
        ego <- ego_graph (graph self) entity max_hops ;;
        collect_candidates self rest max_hops
          (set_update candidate_nodes (nodes ego))
  end.

(** The candidate set: the union of the ego graphs, or else the
    [max_nodes] most central nodes. *)
Definition candidates (self : GraphManager) (focal_entities : pyset)
  (max_hops max_nodes : Z) : result pyset :=
  candidate_nodes <-
    collect_candidates self (set_iter rt focal_entities) max_hops [] ;;
  Ok (match candidate_nodes with
      | [] =>
          let sorted_nodes :=
            sorted_desc (fun v => dict_get_default v 0.0 (_centrality self))
                        (nodes (graph self)) in
          set_of_list (slice_to max_nodes sorted_nodes)
      | _ :: _ => candidate_nodes
      end).

(** Ranking and truncation: the [max_nodes] best candidates by importance. *)
Definition rank (clock : node -> R) (self : GraphManager)
  (focal_entities : pyset) (max_nodes : Z) (candidate_nodes : pyset) : pyset :=
  let scored :=
    map (fun v => (v, calculate_node_importance (clock v) self v focal_entities))
        (set_iter rt candidate_nodes) in
  let scored := sorted_desc snd scored in
  set_of_list (map fst (slice_to max_nodes scored)).

(** The selection before the connectivity repair. *)
Definition select_nodes (clock : node -> R) (self : GraphManager)
  (focal_entities : pyset) (max_hops max_nodes : Z) : result pyset :=
  candidate_nodes <- candidates self focal_entities max_hops max_nodes ;;
  let selected_nodes := rank clock self focal_entities max_nodes candidate_nodes in
  Ok (match focal_entities with
      | [] => selected_nodes
      | _ :: _ => set_update selected_nodes (set_iter rt focal_entities)
      end).

(** [clock v] is the reading of the clock when [v] is scored. *)
Definition build_contextual_subgraph (clock : node -> R) (self : GraphManager)
  (focal_entities : pyset) (max_hops max_nodes : option Z) : result Graph :=
  if (number_of_nodes (graph self) =? 0)%nat then Ok empty_graph
  else
    let max_hops := int_or max_hops (MAX_HOPS (settings self)) in
    let max_nodes := int_or max_nodes (MAX_GRAPH_NODES (settings self)) in
    selected_nodes <- select_nodes clock self focal_entities max_hops max_nodes ;;
    let sub := subgraph (graph self) selected_nodes in
    selected_nodes <-
      _ensure_connectivity self sub selected_nodes focal_entities max_nodes ;;
    Ok (subgraph (graph self) selected_nodes).

(** *** Export *)

Definition vis_node (clock : node -> R) (self : GraphManager)
  (focal_entities : pyset) (importance_cache : dict R) (scaling : R)
  (nd : node * dict attr) : result VisNode :=
  let '(node_id, data) := nd in
  let meta := dict_get node_id (node_metadata self) in
  let importance := dict_get_default node_id 0.0 importance_cache in
  let size := 8 + (importance / scaling) * 20 in
  let node_type :=
    match meta with Some m => meta_type m | None => AStr "ENTITY" end in
  color <-
    match node_type with
    | AStr s => Ok (dict_get_default (str_upper rt s) "#4a5568"%string ENTITY_COLORS)
    | _ => Raise AttributeError                   (* node_type.upper() *)
    end ;;
  Ok {| vis_id := node_id;
        vis_label :=
          match meta with
          | Some m =>
              if String.eqb (meta_label m) "" then _resolve_label node_id data
              else meta_label m
          | None => _resolve_label node_id data
          end;
        vis_type := node_type;
        vis_description :=
          match meta with Some m => meta_description m | None => AStr "" end;
        vis_frequency := dict_get_default node_id 0.0 (entity_frequency self);
        is_focal := set_mem node_id focal_entities;
        vis_size := size;
        vis_color := color;
        vis_centrality := dict_get_default node_id 0.0 (_centrality self) |}.

Definition vis_link (e : node * node * dict attr) : result VisLink :=
  let '(source, target, data) := e in
  weight <- py_float rt (dict_get_default "weight" (AFloat 1.0) data) ;;
  Ok {| link_source := source;
        link_target := target;
        link_relationship :=
          first_truthy ["relation"; "label"; "type"]%string data (AStr "related");
        link_weight := weight;
        link_keywords := dict_get_default "keywords" (AStr "") data |}.

(** [for x in xs: out.append(f(x))] where [f] can raise. *)
Fixpoint map_result {A B : Type} (f : A -> result B) (xs : list A) : result (list B) :=
  match xs with
  | [] => Ok []
  | x :: xs' => y <- f x ;; ys <- map_result f xs' ;; Ok (y :: ys)
  end.

Definition graph_to_vis_format (clock : node -> R) (self : GraphManager)
  (sub : Graph) (focal_entities : pyset) : result VisPayload :=
  let '(importance_cache, max_importance) :=
    fold_left (fun (acc : dict R * R) v =>
                 let importance :=
                   calculate_node_importance (clock v) self v focal_entities in
                 (dict_set v importance (fst acc), Rmax (snd acc) importance))
              (nodes sub) ([], 0.0) in
  let scaling := if Reqb max_importance 0 then 1.0 else max_importance in
  nodes_payload <-
    map_result (vis_node clock self focal_entities importance_cache scaling)
               (g_nodes sub) ;;
  links_payload <- map_result vis_link (g_edges sub) ;;
  Ok {| payload_nodes := nodes_payload; payload_links := links_payload |}.

(** *** Statistics *)

(** [int(x)] of a float: truncation toward zero. *)
Definition py_int (x : R) : Z :=
  if Rlt_dec x 0 then (- Int_part (- x))%Z else Int_part x.

Definition get_graph_stats (self : GraphManager) : GraphStats :=
  let avg_response :=
    match response_times self with
    | [] => 0.0
    | _ :: _ => fold_left Rplus (response_times self) 0 / INR (List.length (response_times self))
    end in
  let label_of (v : node) : string :=
    match dict_get v (node_metadata self) with
    | Some m => meta_label m
    | None => v
    end in
  {| stats_total_queries := total_queries self;
     unique_entities := List.length (entity_frequency self);
     most_discussed :=
       slice_to 5
         (sorted_desc (fun item : string * Z => IZR (snd item))
            (map (fun p : string * R => (label_of (fst p), py_int (snd p)))
                 (entity_frequency self)));
     avg_response_time := avg_response;
     graph_node_count := number_of_nodes (graph self);
     graph_edge_count := number_of_edges (graph self) |}.

(** *** The manager as a state machine

    A [call] is one invocation of a public method; [run] gives the manager
    afterwards and the value returned.  Scoring, selection, export and
    statistics read the manager ([dict.get], [values], [items], [in]) and
    assign to none of its fields. *)
Inductive call : Type :=
| CallReload (env : Env)
| CallDecay
| CallUpdate (now : R) (query response : string) (entities : list string)
    (response_time : R)
| CallImportance (now : R) (node_id : node) (focal_entities : pyset)
| CallBuild (clock : node -> R) (focal_entities : pyset) (max_hops max_nodes : option Z)
| CallVis (clock : node -> R) (sub : Graph) (focal_entities : pyset)
| CallStats.

Inductive value : Type :=
| VNone
| VFloat (x : R)
| VGraph (G : Graph)
| VPayload (p : VisPayload)
| VStats (s : GraphStats).

Definition run (c : call) (self : GraphManager) : result (GraphManager * value) :=
  match c with
  | CallReload env => self' <- reload_graph env self ;; Ok (self', VNone)
  | CallDecay => Ok (apply_temporal_decay self, VNone)
  | CallUpdate now query response entities response_time =>
      Ok (update_conversation_context now self query response entities response_time,
          VNone)
  | CallImportance now node_id focal_entities =>
      Ok (self, VFloat (calculate_node_importance now self node_id focal_entities))
  | CallBuild clock focal_entities max_hops max_nodes =>
      G <- build_contextual_subgraph clock self focal_entities max_hops max_nodes ;;
      Ok (self, VGraph G)
  | CallVis clock sub focal_entities =>
      p <- graph_to_vis_format clock self sub focal_entities ;;
      Ok (self, VPayload p)
  | CallStats => Ok (self, VStats (get_graph_stats self))
  end.

Definition read_only (c : call) : bool :=
  match c with
  | CallImportance _ _ _ | CallBuild _ _ _ _ | CallVis _ _ _ | CallStats => true
  | _ => false
  end.

(** The managers a process can hold: the one the constructor builds, and
    any manager after one more call that returned. *)
Inductive reachable : GraphManager -> Prop :=
| reach_init : forall env s self,
    init env s = Ok self -> reachable self
| reach_call : forall c self self' v,
    reachable self -> run c self = Ok (self', v) -> reachable self'.

(** The entity-frequency map holds no weight under the eviction threshold. *)
Definition frequency_floor (self : GraphManager) : Prop :=
  forall k w, dict_get k (entity_frequency self) = Some w -> 1e-4 <= w.

(** *** Graph-theoretic vocabulary of the statements *)

(** An edge of [G] between [u] and [v], in either direction. *)
Definition adjacent (G : Graph) (u v : node) : Prop := In v (neighbors G u).

(** [u] and [v] are joined by a walk in [G]. *)
Inductive connected (G : Graph) (u : node) : node -> Prop :=
| conn_refl : connected G u u
| conn_step : forall v w, connected G u v -> adjacent G v w -> connected G u w.



(** * Facts *)

(** ** Sets *)

Lemma set_mem_In : forall x s, set_mem x s = true <-> In x s.
Proof.
  intros x s. unfold set_mem. rewrite existsb_exists. split.
  - intros [y [Hy Heq]]. apply String.eqb_eq in Heq. now subst.
  - intros H. exists x. split; [assumption | apply String.eqb_refl].
Qed.

Lemma set_mem_not_In : forall x s, set_mem x s = false <-> ~ In x s.
Proof.
  intros x s. rewrite <- set_mem_In. destruct (set_mem x s); split; congruence.
Qed.

Lemma set_add_In : forall x y s, In y (set_add x s) <-> y = x \/ In y s.
Proof.
  intros x y s. unfold set_add. destruct (set_mem x s) eqn:E.
  - apply set_mem_In in E. split; [tauto | intros [-> | H]; assumption].
  - rewrite in_app_iff. simpl. intuition congruence.
Qed.

Lemma set_add_NoDup : forall x s, NoDup s -> NoDup (set_add x s).
Proof.
  intros x s H. unfold set_add. destruct (set_mem x s) eqn:E; [assumption|].
  apply set_mem_not_In in E.
  apply NoDup_rev in H. rewrite <- (rev_involutive (s ++ [x])).
  apply NoDup_rev. rewrite rev_app_distr. simpl. constructor; [|assumption].
  now rewrite <- in_rev.
Qed.

Lemma set_add_length : forall x s,
  List.length (set_add x s) =
  if set_mem x s then List.length s else S (List.length s).
Proof.
  intros x s. unfold set_add. destruct (set_mem x s); [reflexivity|].
  rewrite length_app. simpl. lia.
Qed.

Lemma set_add_prefix : forall x s, exists t, set_add x s = s ++ t.
Proof.
  intros x s. unfold set_add. destruct (set_mem x s).
  - exists []. now rewrite app_nil_r.
  - now exists [x].
Qed.

Lemma set_update_In : forall xs s y, In y (set_update s xs) <-> In y s \/ In y xs.
Proof.
  induction xs as [|x xs IH]; intros s y; simpl.
  - tauto.
  - unfold set_update in *. simpl. rewrite IH, set_add_In. intuition congruence.
Qed.

Lemma set_update_NoDup : forall xs s, NoDup s -> NoDup (set_update s xs).
Proof.
  induction xs as [|x xs IH]; intros s H; simpl; [assumption|].
  apply IH. now apply set_add_NoDup.
Qed.


Lemma set_of_list_In : forall xs y, In y (set_of_list xs) <-> In y xs.
Proof.
  intros xs y. unfold set_of_list. rewrite set_update_In. simpl. tauto.
Qed.

Lemma set_of_list_NoDup : forall xs, NoDup (set_of_list xs).
Proof. intros xs. apply set_update_NoDup. constructor. Qed.


Lemma nodupb_NoDup : forall l, nodupb l = true <-> NoDup l.
Proof.
  induction l as [|x l IH]; simpl.
  - split; [constructor | reflexivity].
  - rewrite andb_true_iff, negb_true_iff, set_mem_not_In, IH. split.
    + intros [H1 H2]. now constructor.
    + intros H. inversion H; subst. tauto.
Qed.

(** ** Dictionaries *)

Lemma dict_get_set_same : forall (V : Type) k (v : V) d,
  dict_get k (dict_set k v d) = Some v.
Proof.
  intros V k v d. induction d as [|[k' v'] d IH]; simpl.
  - now rewrite String.eqb_refl.
  - destruct (String.eqb k k') eqn:E; simpl.
    + now rewrite String.eqb_refl.
    + now rewrite E.
Qed.

Lemma dict_get_set_other : forall (V : Type) k k' (v : V) d,
  k <> k' -> dict_get k' (dict_set k v d) = dict_get k' d.
Proof.
  intros V k k' v d Hne. induction d as [|[k0 v0] d IH]; simpl.
  - destruct (String.eqb k' k) eqn:E; [|reflexivity].
    apply String.eqb_eq in E. congruence.
  - destruct (String.eqb k k0) eqn:E; simpl.
    + apply String.eqb_eq in E. subst k0.
      destruct (String.eqb k' k) eqn:E'; [|reflexivity].
      apply String.eqb_eq in E'. congruence.
    + now rewrite IH.
Qed.

Lemma dict_get_del_same : forall (V : Type) k (d : dict V),
  dict_get k (dict_del k d) = None.
Proof.
  intros V k d. induction d as [|[k' v'] d IH]; simpl; [reflexivity|].
  destruct (String.eqb k k') eqn:E; simpl; [assumption|].
  now rewrite E.
Qed.

Lemma dict_get_del_other : forall (V : Type) k k' (d : dict V),
  k <> k' -> dict_get k' (dict_del k d) = dict_get k' d.
Proof.
  intros V k k' d Hne. induction d as [|[k0 v0] d IH]; simpl; [reflexivity|].
  destruct (String.eqb k k0) eqn:E; simpl.
  - apply String.eqb_eq in E. subst k0.
    destruct (String.eqb k' k) eqn:E'; [|assumption].
    apply String.eqb_eq in E'. congruence.
  - now rewrite IH.
Qed.

Lemma dict_get_In_keys : forall (V : Type) k (d : dict V) v,
  dict_get k d = Some v -> In k (dict_keys d).
Proof.
  intros V k d v. induction d as [|[k' v'] d IH]; simpl; [discriminate|].
  destruct (String.eqb k k') eqn:E.
  - apply String.eqb_eq in E. now left.
  - intros H. right. now apply IH.
Qed.

Lemma dict_get_not_In_keys : forall (V : Type) k (d : dict V),
  ~ In k (dict_keys d) -> dict_get k d = None.
Proof.
  intros V k d. induction d as [|[k' v'] d IH]; simpl; [reflexivity|].
  intros H. destruct (String.eqb k k') eqn:E.
  - apply String.eqb_eq in E. subst. tauto.
  - apply IH. tauto.
Qed.

(** ** Loading *)

Lemma _compute_centrality_returns : forall env self,
  exists c, _compute_centrality env self = Ok (with_centrality self c)
            /\ (number_of_nodes (graph self) = 0%nat -> c = []).
Proof.
  intros env self. unfold _compute_centrality.
  destruct (number_of_nodes (graph self) =? 0)%nat eqn:E.
  - exists []. split; [reflexivity | tauto].
  - apply Nat.eqb_neq in E.
    destruct (pagerank env (graph self)) as [c|e]; simpl.
    + exists c. split; [reflexivity | tauto].
    + exists (degree_centrality (graph self)). split; [reflexivity | tauto].
Qed.

Lemma reload_graph_unfold : forall env self (there : bool) G,
  path_exists env = Ok there ->
  (if there
   then try_except (read_graphml env) is_Exception (Ok empty_graph)
   else Ok empty_graph) = Ok G ->
  reload_graph env self = _compute_centrality env (_build_indices (with_graph self G)).
Proof.
  intros env self there G He H. unfold reload_graph. rewrite He. simpl.
  now rewrite H.
Qed.

Lemma graph_read_returns : forall env (there : bool),
  exists G,
    (if there
     then try_except (read_graphml env) is_Exception (Ok empty_graph)
     else Ok empty_graph) = Ok G
    /\ (there = false \/ (exists e, read_graphml env = Raise e) ->
        G = empty_graph).
Proof.
  intros env [|].
  - destruct (read_graphml env) as [G|e] eqn:Er; simpl.
    + exists G. split; [reflexivity|].
      intros [H | [e' H]]; discriminate.
    + exists empty_graph. split; [reflexivity | tauto].
  - exists empty_graph. split; [reflexivity | tauto].
Qed.

(** A reload that returned: the test of the path answered, and the manager
    is the old one with the graph read, its indices and its centrality. *)
Lemma reload_graph_Ok : forall env self self',
  reload_graph env self = Ok self' ->
  exists there G c,
    path_exists env = Ok there
    /\ (if there
        then try_except (read_graphml env) is_Exception (Ok empty_graph)
        else Ok empty_graph) = Ok G
    /\ _compute_centrality env (_build_indices (with_graph self G))
       = Ok (with_centrality (_build_indices (with_graph self G)) c)
    /\ self' = with_centrality (_build_indices (with_graph self G)) c.
Proof.
  intros env self self' H.
  destruct (path_exists env) as [there|e] eqn:He;
    [|unfold reload_graph in H; rewrite He in H; discriminate].
  destruct (graph_read_returns env there) as [G [HG _]].
  rewrite (reload_graph_unfold env self there G He HG) in H.
  destruct (_compute_centrality_returns env (_build_indices (with_graph self G)))
    as [c [Hc _]].
  exists there, G, c. rewrite Hc in H. injection H as <-. tauto.
Qed.

(** When the test of the path answers, [reload_graph] returns, whatever the
    read and the centrality computation do; when the file is missing or
    reading it raises, the manager afterwards holds the empty graph, an
    empty label index, no metadata and an empty centrality map. *)
Lemma reload_graph_guarded : forall env self there,
  path_exists env = Ok there ->
  exists self',
    reload_graph env self = Ok self'
    /\ (there = false \/ (exists e, read_graphml env = Raise e) ->
        graph self' = empty_graph
        /\ label_index self' = []
        /\ node_metadata self' = []
        /\ _centrality self' = []).
Proof.
  intros env self there He.
  destruct (graph_read_returns env there) as [G [HG Hempty]].
  rewrite (reload_graph_unfold env self there G He HG).
  destruct (_compute_centrality_returns env (_build_indices (with_graph self G)))
    as [c [Hc Hc0]].
  exists (with_centrality (_build_indices (with_graph self G)) c).
  split; [assumption|].
  intros Hfail. specialize (Hempty Hfail). subst G.
  assert (Hc' : c = []) by (apply Hc0; reflexivity).
  subst c. repeat split.
Qed.

(** [reload_graph] raises exactly when the test [self.graph_path.exists()]
    raises, and then what the test raised: the test stands outside the
    [try]. *)
Lemma reload_graph_cases : forall env self,
  match path_exists env with
  | Raise e => reload_graph env self = Raise e
  | Ok there =>
      exists self',
        reload_graph env self = Ok self'
        /\ (there = false \/ (exists e, read_graphml env = Raise e) ->
            graph self' = empty_graph
            /\ label_index self' = []
            /\ node_metadata self' = []
            /\ _centrality self' = [])
  end.
Proof.
  intros env self. destruct (path_exists env) as [there|e] eqn:He.
  - now apply reload_graph_guarded.
  - unfold reload_graph. now rewrite He.
Qed.

(** ** Temporal decay and the frequency map *)

Lemma Rltb_true : forall x y, Rltb x y = true <-> x < y.
Proof. intros x y. unfold Rltb. destruct (Rlt_dec x y); split; congruence || tauto. Qed.

Lemma Rltb_false : forall x y, Rltb x y = false <-> ~ x < y.
Proof. intros x y. unfold Rltb. destruct (Rlt_dec x y); split; congruence || tauto. Qed.

Lemma Reqb_true : forall x y, Reqb x y = true <-> x = y.
Proof. intros x y. unfold Reqb. destruct (Req_dec_T x y); split; congruence || tauto. Qed.

Lemma dict_keys_set : forall (V : Type) k (v : V) d,
  dict_keys (dict_set k v d) =
  if set_mem k (dict_keys d) then dict_keys d else dict_keys d ++ [k].
Proof.
  intros V k v d. induction d as [|[k' v'] d IH]; simpl; [reflexivity|].
  destruct (String.eqb k k') eqn:E; simpl.
  - apply String.eqb_eq in E. now subst.
  - rewrite IH. unfold dict_keys. now destruct (set_mem k (map fst d)).
Qed.

Lemma dict_set_keys_NoDup : forall (V : Type) k (v : V) d,
  NoDup (dict_keys d) -> NoDup (dict_keys (dict_set k v d)).
Proof.
  intros V k v d H. rewrite dict_keys_set.
  apply (set_add_NoDup k) in H. unfold set_add in H. exact H.
Qed.

Lemma dict_del_keys_NoDup : forall (V : Type) k (d : dict V),
  NoDup (dict_keys d) -> NoDup (dict_keys (dict_del k d)).
Proof.
  intros V k d. induction d as [|[k' v'] d IH]; simpl; intros H; [constructor|].
  inversion H as [|? ? Hn Hd]; subst.
  destruct (String.eqb k k'); simpl; [now apply IH|].
  constructor; [|now apply IH].
  intros Hin. apply Hn. unfold dict_keys, dict_del in *.
  apply in_map_iff in Hin. destruct Hin as [[a b] [Ha Hb]].
  apply filter_In in Hb. apply in_map_iff. exists (a, b). tauto.
Qed.

(** What one turn of decay does to a weight: the entry goes when the
    decayed weight is under the threshold. *)
Definition decayed (rate : R) (o : option R) : option R :=
  match o with
  | Some w => if Rltb (w * rate) 1e-4 then None else Some (w * rate)
  | None => None
  end.

Lemma decay_entry_get_same : forall rate d k,
  dict_get k (decay_entry rate d k) = decayed rate (dict_get k d).
Proof.
  intros rate d k. unfold decay_entry, defaultdict_getitem.
  destruct (dict_get k d) as [w|] eqn:E; simpl.
  - rewrite dict_get_set_same.
    destruct (Rltb (w * rate) 1e-4) eqn:El.
    + apply dict_get_del_same.
    + apply dict_get_set_same.
  - rewrite dict_get_set_same.
    assert (Hl : Rltb (0 * rate) 1e-4 = true) by (apply Rltb_true; lra).
    rewrite Hl. apply dict_get_del_same.
Qed.

Lemma decay_entry_get_other : forall rate d k k',
  k <> k' -> dict_get k' (decay_entry rate d k) = dict_get k' d.
Proof.
  intros rate d k k' Hne. unfold decay_entry, defaultdict_getitem.
  destruct (dict_get k d) as [w|] eqn:E; simpl; rewrite dict_get_set_same.
  - destruct (Rltb (w * rate) 1e-4).
    + rewrite dict_get_del_other by assumption. now apply dict_get_set_other.
    + now apply dict_get_set_other.
  - destruct (Rltb (0 * rate) 1e-4).
    + rewrite dict_get_del_other by assumption.
      rewrite dict_get_set_other by assumption. now apply dict_get_set_other.
    + rewrite dict_get_set_other by assumption. now apply dict_get_set_other.
Qed.

Lemma decay_entry_keys_NoDup : forall rate d k,
  NoDup (dict_keys d) -> NoDup (dict_keys (decay_entry rate d k)).
Proof.
  intros rate d k H. unfold decay_entry, defaultdict_getitem.
  destruct (dict_get k d) as [w|]; simpl; rewrite dict_get_set_same.
  - destruct (Rltb (w * rate) 1e-4).
    + now apply dict_del_keys_NoDup, dict_set_keys_NoDup.
    + now apply dict_set_keys_NoDup.
  - destruct (Rltb (0 * rate) 1e-4).
    + now apply dict_del_keys_NoDup, dict_set_keys_NoDup, dict_set_keys_NoDup.
    + now apply dict_set_keys_NoDup, dict_set_keys_NoDup.
Qed.

Lemma decay_fold_get : forall rate ks d k,
  NoDup ks ->
  dict_get k (fold_left (decay_entry rate) ks d) =
  if in_dec string_dec k ks then decayed rate (dict_get k d) else dict_get k d.
Proof.
  intros rate ks. induction ks as [|k0 ks IH]; intros d k Hnd; simpl.
  - reflexivity.
  - inversion Hnd as [|? ? Hn Hd]; subst. rewrite IH by assumption.
    destruct (string_dec k0 k) as [->|Hne].
    + destruct (in_dec string_dec k ks) as [Hin|_]; [contradiction|].
      apply decay_entry_get_same.
    + rewrite decay_entry_get_other by assumption.
      destruct (in_dec string_dec k ks); reflexivity.
Qed.

Lemma decay_fold_keys_NoDup : forall rate ks d,
  NoDup (dict_keys d) -> NoDup (dict_keys (fold_left (decay_entry rate) ks d)).
Proof.
  intros rate ks. induction ks as [|k ks IH]; intros d H; simpl; [assumption|].
  apply IH. now apply decay_entry_keys_NoDup.
Qed.

(** The entry of [k] after [apply_temporal_decay]. *)
Lemma apply_temporal_decay_get : forall self k,
  NoDup (dict_keys (entity_frequency self)) ->
  dict_get k (entity_frequency (apply_temporal_decay self)) =
  decayed (TEMPORAL_DECAY_RATE (settings self)) (dict_get k (entity_frequency self)).
Proof.
  intros self k Hnd. unfold apply_temporal_decay.
  destruct (entity_frequency self) as [|p d] eqn:E; [now rewrite E|].
  cbn [entity_frequency with_frequency]. rewrite decay_fold_get by assumption.
  destruct (in_dec string_dec k (dict_keys (p :: d))) as [Hin|Hn].
  - reflexivity.
  - now rewrite (dict_get_not_In_keys _ _ _ Hn).
Qed.

Lemma apply_temporal_decay_NoDup : forall self,
  NoDup (dict_keys (entity_frequency self)) ->
  NoDup (dict_keys (entity_frequency (apply_temporal_decay self))).
Proof.
  intros self Hnd. unfold apply_temporal_decay.
  destruct (entity_frequency self) as [|p d] eqn:E; [now rewrite E|].
  cbn [entity_frequency with_frequency]. now apply decay_fold_keys_NoDup.
Qed.

Lemma decayed_floor : forall rate o w, decayed rate o = Some w -> 1e-4 <= w.
Proof.
  intros rate [w0|] w; simpl; [|discriminate].
  destruct (Rltb (w0 * rate) 1e-4) eqn:E; [discriminate|].
  intros H. injection H as <-. apply Rltb_false in E. lra.
Qed.

(** After a decay no weight is under the threshold, whatever the map was
    before and whatever the rate. *)
Lemma decay_fold_floor : forall rate ks d k w,
  (forall k', In k' (dict_keys d) -> In k' ks) ->
  dict_get k (fold_left (decay_entry rate) ks d) = Some w -> 1e-4 <= w.
Proof.
  intros rate ks.
  assert (Hgen : forall ks d k w,
    dict_get k (fold_left (decay_entry rate) ks d) = Some w ->
    1e-4 <= w \/ (~ In k ks /\ dict_get k d = Some w)).
  { clear ks. induction ks as [|k0 ks IH]; intros d k w H; simpl in *.
    - right. tauto.
    - apply IH in H. destruct H as [H | [Hn H]]; [now left|].
      destruct (string_dec k0 k) as [->|Hne].
      + rewrite decay_entry_get_same in H. left. eapply decayed_floor; eauto.
      + rewrite decay_entry_get_other in H by assumption. right. tauto. }
  intros d k w Hall H. apply Hgen in H. destruct H as [H | [Hn H]]; [assumption|].
  exfalso. apply Hn, Hall. eapply dict_get_In_keys; eauto.
Qed.

Lemma apply_temporal_decay_floor : forall self,
  frequency_floor (apply_temporal_decay self).
Proof.
  intros self k w. unfold apply_temporal_decay.
  destruct (entity_frequency self) as [|p d] eqn:E.
  - rewrite E. simpl. discriminate.
  - cbn [entity_frequency with_frequency]. apply decay_fold_floor. tauto.
Qed.

Lemma mention_get_same : forall now freq seen entity,
  dict_get entity (fst (mention now (freq, seen) entity)) =
  Some (dict_get_default entity 0 freq + 1.0).
Proof.
  intros now freq seen entity. unfold mention, defaultdict_getitem, dict_get_default.
  destruct (dict_get entity freq); simpl; apply dict_get_set_same.
Qed.

Lemma mention_get_other : forall now freq seen entity k,
  entity <> k ->
  dict_get k (fst (mention now (freq, seen) entity)) = dict_get k freq.
Proof.
  intros now freq seen entity k Hne. unfold mention, defaultdict_getitem.
  destruct (dict_get entity freq); simpl.
  - now apply dict_get_set_other.
  - rewrite dict_get_set_other by assumption. now apply dict_get_set_other.
Qed.

Lemma mention_keys_NoDup : forall now freq seen entity,
  NoDup (dict_keys freq) ->
  NoDup (dict_keys (fst (mention now (freq, seen) entity))).
Proof.
  intros now freq seen entity H. unfold mention, defaultdict_getitem.
  destruct (dict_get entity freq); simpl.
  - now apply dict_set_keys_NoDup.
  - now apply dict_set_keys_NoDup, dict_set_keys_NoDup.
Qed.

Lemma mention_fold_get_other : forall now es acc k,
  ~ In k es ->
  dict_get k (fst (fold_left (mention now) es acc)) = dict_get k (fst acc).
Proof.
  intros now es. induction es as [|e es IH]; intros [freq seen] k Hn; cbn [fold_left].
  - reflexivity.
  - rewrite IH by (simpl in Hn; tauto).
    apply mention_get_other. simpl in Hn. tauto.
Qed.

Lemma mention_fold_floor : forall now es acc,
  (forall k w, dict_get k (fst acc) = Some w -> 1e-4 <= w) ->
  forall k w, dict_get k (fst (fold_left (mention now) es acc)) = Some w -> 1e-4 <= w.
Proof.
  intros now es. induction es as [|e es IH]; intros [freq seen] Hfl; cbn [fold_left].
  - exact Hfl.
  - apply IH. intros k w.
    destruct (string_dec e k) as [->|Hne].
    + rewrite mention_get_same. intros H. injection H as <-.
      unfold dict_get_default. destruct (dict_get k freq) as [w0|] eqn:E.
      * specialize (Hfl k w0 E). simpl in Hfl. lra.
      * lra.
    + rewrite mention_get_other by assumption. apply Hfl.
Qed.

Lemma mention_fold_keys_NoDup : forall now es acc,
  NoDup (dict_keys (fst acc)) ->
  NoDup (dict_keys (fst (fold_left (mention now) es acc))).
Proof.
  intros now es. induction es as [|e es IH]; intros [freq seen] H; cbn [fold_left].
  - exact H.
  - apply IH. now apply mention_keys_NoDup.
Qed.

Lemma update_conversation_context_frequency :
  forall now self query response entities response_time,
  entity_frequency
    (update_conversation_context now self query response entities response_time) =
  fst (fold_left (mention now) (set_iter rt (set_of_list entities))
         (entity_frequency (apply_temporal_decay self),
          entity_last_seen (apply_temporal_decay self))).
Proof.
  intros. unfold update_conversation_context.
  destruct (fold_left (mention now) (set_iter rt (set_of_list entities))
              (entity_frequency (apply_temporal_decay self),
               entity_last_seen (apply_temporal_decay self))) as [freq seen].
  reflexivity.
Qed.

Lemma update_conversation_context_floor :
  forall now self query response entities response_time,
  frequency_floor
    (update_conversation_context now self query response entities response_time).
Proof.
  intros. unfold frequency_floor. rewrite update_conversation_context_frequency.
  apply mention_fold_floor. simpl. apply apply_temporal_decay_floor.
Qed.

Lemma update_conversation_context_NoDup :
  forall now self query response entities response_time,
  NoDup (dict_keys (entity_frequency self)) ->
  NoDup (dict_keys (entity_frequency
    (update_conversation_context now self query response entities response_time))).
Proof.
  intros. rewrite update_conversation_context_frequency.
  apply mention_fold_keys_NoDup. simpl. now apply apply_temporal_decay_NoDup.
Qed.

(** The calls that keep the frequency map and the settings. *)
Lemma _build_indices_keeps : forall self,
  entity_frequency (_build_indices self) = entity_frequency self
  /\ settings (_build_indices self) = settings self
  /\ graph (_build_indices self) = graph self.
Proof.
  intros self. unfold _build_indices.
  destruct (fold_left index_node (g_nodes (graph self)) ([], [])) as [index metadata].
  repeat split.
Qed.

Lemma reload_graph_keeps : forall env self self',
  reload_graph env self = Ok self' ->
  entity_frequency self' = entity_frequency self /\ settings self' = settings self.
Proof.
  intros env self self' H.
  destruct (reload_graph_Ok env self self' H) as [there [G [c [_ [_ [_ ->]]]]]].
  destruct (_build_indices_keeps (with_graph self G)) as [Hf [Hs _]].
  simpl. rewrite Hf, Hs. split; reflexivity.
Qed.

Lemma run_read_only : forall c self self' v,
  read_only c = true -> run c self = Ok (self', v) -> self' = self.
Proof.
  intros c self self' v Hro H. destruct c; simpl in Hro; try discriminate; simpl in H.
  - now injection H as <- _.
  - destruct (build_contextual_subgraph clock self focal_entities max_hops max_nodes);
      simpl in H; [now injection H as <- _ | discriminate].
  - destruct (graph_to_vis_format clock self sub focal_entities);
      simpl in H; [now injection H as <- _ | discriminate].
  - now injection H as <- _.
Qed.

Lemma run_frequency_ok : forall c self self' v,
  run c self = Ok (self', v) ->
  NoDup (dict_keys (entity_frequency self)) /\ frequency_floor self ->
  NoDup (dict_keys (entity_frequency self')) /\ frequency_floor self'.
Proof.
  intros c self self' v H [Hnd Hfl].
  destruct (read_only c) eqn:Hro.
  - apply (run_read_only c self self' v Hro) in H. subst. tauto.
  - destruct c; simpl in Hro; try discriminate; simpl in H.
    + destruct (reload_graph env self) as [s|e] eqn:E; simpl in H; [|discriminate].
      injection H as <- _. apply reload_graph_keeps in E. destruct E as [Ef _].
      unfold frequency_floor. rewrite Ef. tauto.
    + injection H as <- _. split.
      * now apply apply_temporal_decay_NoDup.
      * apply apply_temporal_decay_floor.
    + injection H as <- _. split.
      * now apply update_conversation_context_NoDup.
      * apply update_conversation_context_floor.
Qed.

Lemma reachable_frequency_ok : forall self,
  reachable self ->
  NoDup (dict_keys (entity_frequency self)) /\ frequency_floor self.
Proof.
  intros self H. induction H as [env s self Hinit | c self self' v Hr IH Hrun].
  - unfold init in Hinit. apply reload_graph_keeps in Hinit.
    destruct Hinit as [Ef _]. unfold frequency_floor. rewrite Ef. simpl.
    split; [constructor | discriminate].
  - eapply run_frequency_ok; eauto.
Qed.

(** C10.  In every manager a process can hold, every weight of the
    entity-frequency map is at least the threshold 1e-4, hence positive;
    every call keeps it so, and the calls that only read (scoring,
    selection, export, statistics) leave the map as it is. *)
Theorem frequency_floor_invariant : forall self,
  reachable self ->
  (forall k w, dict_get k (entity_frequency self) = Some w -> 1e-4 <= w /\ 0 < w)
  /\ (forall c self' v,
        run c self = Ok (self', v) ->
        frequency_floor self'
        /\ (read_only c = true -> entity_frequency self' = entity_frequency self)).
Proof.
  intros self Hr. destruct (reachable_frequency_ok self Hr) as [Hnd Hfl]. split.
  - intros k w H. specialize (Hfl k w H). lra.
  - intros c self' v Hrun. split.
    + eapply run_frequency_ok; eauto.
    + intros Hro. now rewrite (run_read_only c self self' v Hro Hrun).
Qed.

(** From here on the runtime is one whose sets enumerate their elements. *)
Hypothesis rt_ok : runtime_ok rt.

Lemma set_iter_In : forall s x, In x (set_iter rt s) <-> In x s.
Proof.
  intros s x. split; apply Permutation_in; [apply rt_ok | apply Permutation_sym, rt_ok].
Qed.

Lemma set_iter_length : forall s, List.length (set_iter rt s) = List.length s.
Proof. intros s. apply Permutation_length, rt_ok. Qed.

Lemma set_iter_NoDup : forall s, NoDup s -> NoDup (set_iter rt s).
Proof.
  intros s H. eapply Permutation_NoDup; [apply Permutation_sym, rt_ok | assumption].
Qed.

(** C7.  In a manager the process can hold and with a decay rate under 1,
    a tracked entity has after [apply_temporal_decay] a strictly smaller
    weight (the weight read as [get(k, 0.0)]): its entry is either gone,
    exactly when the decayed weight is under 1e-4, or holds the old weight
    times the rate.  An entity that a turn does not mention has after the
    turn the weight the decay left. *)
Theorem decay_strictly_decreases : forall self k w,
  reachable self ->
  TEMPORAL_DECAY_RATE (settings self) < 1 ->
  dict_get k (entity_frequency self) = Some w ->
  dict_get_default k 0 (entity_frequency (apply_temporal_decay self)) < w
  /\ (forall w', dict_get k (entity_frequency (apply_temporal_decay self)) = Some w' ->
        w' = w * TEMPORAL_DECAY_RATE (settings self) /\ w' < w /\ 1e-4 <= w')
  /\ (w * TEMPORAL_DECAY_RATE (settings self) < 1e-4 <->
        dict_get k (entity_frequency (apply_temporal_decay self)) = None)
  /\ (forall now query response entities response_time,
        ~ In k entities ->
        dict_get k (entity_frequency
          (update_conversation_context now self query response entities response_time))
        = dict_get k (entity_frequency (apply_temporal_decay self))).
Proof.
  intros self k w Hr Hrate Hk.
  destruct (reachable_frequency_ok self Hr) as [Hnd Hfl].
  pose proof (Hfl k w Hk) as Hw.
  pose proof (apply_temporal_decay_get self k Hnd) as Hget.
  rewrite Hk in Hget. simpl in Hget.
  assert (Hlt : w * TEMPORAL_DECAY_RATE (settings self) < w) by nra.
  repeat split.
  - unfold dict_get_default. rewrite Hget.
    destruct (Rltb (w * TEMPORAL_DECAY_RATE (settings self)) 1e-4); lra.
  - rewrite Hget in H.
    destruct (Rltb (w * TEMPORAL_DECAY_RATE (settings self)) 1e-4); congruence.
  - rewrite Hget in H.
    destruct (Rltb (w * TEMPORAL_DECAY_RATE (settings self)) 1e-4);
      [discriminate | injection H as <-; assumption].
  - rewrite Hget in H.
    destruct (Rltb (w * TEMPORAL_DECAY_RATE (settings self)) 1e-4) eqn:E;
      [discriminate | injection H as <-; apply Rltb_false in E; lra].
  - intros H. rewrite Hget. apply Rltb_true in H. now rewrite H.
  - intros H. rewrite Hget in H.
    destruct (Rltb (w * TEMPORAL_DECAY_RATE (settings self)) 1e-4) eqn:E;
      [now apply Rltb_true in E | discriminate].
  - intros now query response entities response_time Hn.
    rewrite update_conversation_context_frequency.
    rewrite mention_fold_get_other; [reflexivity|].
    rewrite set_iter_In, set_of_list_In. assumption.
Qed.

(** ** Scoring *)






(** Whenever the call of [_recency_score] returns, it returns
    [_recency_score]; and it raises nothing but the [OverflowError] of
    [math.exp], for a decay rate above 1 and a mention older than the
    reading of the clock. *)
Lemma _recency_score_call_cases : forall now self node_id,
  match _recency_score_call now self node_id with
  | Ok r => r = _recency_score now self node_id
  | Raise e =>
      e = OverflowError
      /\ 1 < TEMPORAL_DECAY_RATE (settings self)
      /\ exists timestamp,
           dict_get node_id (entity_last_seen self) = Some timestamp
           /\ timestamp < now
  end.
Proof.
  intros now self v. unfold _recency_score_call, _recency_score, math_exp.
  destruct (dict_get v (entity_last_seen self)) as [ts|]; [|reflexivity].
  set (l := ln (Rmax (TEMPORAL_DECAY_RATE (settings self)) 1e-6)).
  set (h := Rmax ((now - ts) / 3600.0) 0.0).
  destruct (Rlt_dec MATH_EXP_MAX (- - l * h)) as [Hlt | _]; [|reflexivity].
  unfold MATH_EXP_MAX in Hlt.
  assert (Hh : 0 <= h) by (apply Rle_trans with 0.0; [lra | apply Rmax_r]).
  assert (Hl : 0 < l) by nra.
  assert (Hh' : 0 < h) by nra.
  split; [reflexivity|]. split.
  - destruct (Rle_dec (TEMPORAL_DECAY_RATE (settings self)) 1) as [Hle | Hn]; [|lra].
    exfalso. unfold l in Hl.
    assert (Hr0 : 0 < Rmax (TEMPORAL_DECAY_RATE (settings self)) 1e-6).
    { apply Rlt_le_trans with 1e-6; [lra | apply Rmax_r]. }
    assert (Hr1 : Rmax (TEMPORAL_DECAY_RATE (settings self)) 1e-6 <= 1)
      by (apply Rmax_lub; lra).
    rewrite <- ln_1 in Hl. apply ln_lt_inv in Hl; lra.
  - exists ts. split; [reflexivity|].
    unfold h, Rmax in Hh'. destruct (Rle_dec ((now - ts) / 3600.0) 0.0); lra.
Qed.

(** With a decay rate of at most 1 the call of [_recency_score] returns. *)
Lemma _recency_score_call_returns : forall now self node_id,
  TEMPORAL_DECAY_RATE (settings self) <= 1 ->
  _recency_score_call now self node_id = Ok (_recency_score now self node_id).
Proof.
  intros now self v Hrate.
  pose proof (_recency_score_call_cases now self v) as H.
  destruct (_recency_score_call now self v) as [r|e]; [now subst r|].
  destruct H as [_ [H _]]. lra.
Qed.


(** ** Slices and sorting *)

Lemma firstn_incl : forall (A : Type) n (l : list A) x, In x (firstn n l) -> In x l.
Proof.
  intros A n. induction n as [|n IH]; intros [|y l] x; simpl; try tauto.
  intros [H | H]; [now left | right; now apply IH].
Qed.

Lemma slice_to_incl : forall (A : Type) n (l : list A) x, In x (slice_to n l) -> In x l.
Proof.
  intros A n l x. unfold slice_to. destruct (n <? 0)%Z; apply firstn_incl.
Qed.




Lemma insert_desc_perm : forall (A : Type) (key : A -> R) x l,
  Permutation (insert_desc key x l) (x :: l).
Proof.
  intros A key x l. induction l as [|y l IH]; simpl; [reflexivity|].
  destruct (Rltb (key x) (key y)); [|reflexivity].
  rewrite IH. apply perm_swap.
Qed.

Lemma sorted_desc_perm : forall (A : Type) (key : A -> R) l,
  Permutation (sorted_desc key l) l.
Proof.
  intros A key l. induction l as [|x l IH]; simpl; [reflexivity|].
  rewrite insert_desc_perm. now constructor.
Qed.

Lemma sorted_desc_In : forall (A : Type) (key : A -> R) l x,
  In x (sorted_desc key l) <-> In x l.
Proof.
  intros A key l x. split; apply Permutation_in;
    [apply sorted_desc_perm | apply Permutation_sym, sorted_desc_perm].
Qed.


(** ** Graphs and induced subgraphs *)

Lemma has_node_In : forall G v, has_node G v = true <-> In v (nodes G).
Proof. intros G v. apply set_mem_In. Qed.

Lemma graph_wf_NoDup : forall G, graph_wf G -> NoDup (nodes G).
Proof.
  intros G H. unfold graph_wf, graph_wfb in H. apply andb_true_iff in H.
  now apply nodupb_NoDup.
Qed.

Lemma graph_wf_edges : forall G a b d,
  graph_wf G -> In (a, b, d) (g_edges G) -> In a (nodes G) /\ In b (nodes G).
Proof.
  intros G a b d H Hin. unfold graph_wf, graph_wfb in H. apply andb_true_iff in H.
  destruct H as [_ H]. rewrite forallb_forall in H. specialize (H _ Hin).
  simpl in H. apply andb_true_iff in H. now rewrite !has_node_In in H.
Qed.

Lemma graph_wf_intro : forall G,
  NoDup (nodes G) ->
  (forall a b d, In (a, b, d) (g_edges G) -> In a (nodes G) /\ In b (nodes G)) ->
  graph_wf G.
Proof.
  intros G Hnd He. unfold graph_wf, graph_wfb. apply andb_true_iff. split.
  - now apply nodupb_NoDup.
  - apply forallb_forall. intros [[a b] d] Hin. apply He in Hin.
    apply andb_true_iff. now rewrite !has_node_In.
Qed.

Lemma adjacent_edge : forall G u v,
  adjacent G u v <->
  exists d, In (u, v, d) (g_edges G) \/ In (v, u, d) (g_edges G).
Proof.
  intros G u v. unfold adjacent, neighbors. rewrite in_flat_map. split.
  - intros [[[a b] d] [Hin Hv]]. exists d.
    destruct (String.eqb a u) eqn:Ea.
    + apply String.eqb_eq in Ea. subst a. destruct Hv as [<- | []]. now left.
    + destruct (String.eqb b u) eqn:Eb; [|contradiction].
      apply String.eqb_eq in Eb. subst b. destruct Hv as [<- | []]. now right.
  - intros [d [Hin | Hin]].
    + exists (u, v, d). split; [assumption|]. rewrite String.eqb_refl. now left.
    + exists (v, u, d). split; [assumption|].
      destruct (String.eqb v u) eqn:E.
      * apply String.eqb_eq in E. subst. now left.
      * rewrite String.eqb_refl. now left.
Qed.

Lemma adjacent_sym : forall G u v, adjacent G u v -> adjacent G v u.
Proof.
  intros G u v. rewrite !adjacent_edge. intros [d H]. exists d. tauto.
Qed.

Lemma adjacent_nodes : forall G u v,
  graph_wf G -> adjacent G u v -> In u (nodes G) /\ In v (nodes G).
Proof.
  intros G u v Hwf. rewrite adjacent_edge. intros [d [H | H]];
    apply (graph_wf_edges _ _ _ _ Hwf) in H; tauto.
Qed.

Lemma connected_trans : forall G u v w,
  connected G u v -> connected G v w -> connected G u w.
Proof.
  intros G u v w Huv Hvw. induction Hvw as [|x y Hvx IH Hxy]; [assumption|].
  now apply conn_step with x.
Qed.

Lemma connected_sym : forall G u v, connected G u v -> connected G v u.
Proof.
  intros G u v H. induction H as [|v w Huv IH Hvw]; [constructor|].
  apply connected_trans with v; [|assumption].
  apply conn_step with w; [constructor | now apply adjacent_sym].
Qed.

Lemma connected_nodes : forall G u v,
  graph_wf G -> connected G u v -> In u (nodes G) -> In v (nodes G).
Proof.
  intros G u v Hwf H Hu. induction H as [|v w Huv IH Hvw]; [assumption|].
  apply (adjacent_nodes _ _ _ Hwf) in Hvw. tauto.
Qed.

Lemma nodes_map_fst : forall (l : list node) (f : node -> dict attr),
  dict_keys (map (fun v => (v, f v)) l) = l.
Proof.
  intros l f. unfold dict_keys. rewrite map_map. simpl. apply map_id.
Qed.

Lemma subgraph_nodes : forall G S,
  nodes (subgraph G S) = set_iter rt (filter (fun v => set_mem v S) (nodes G)).
Proof. intros G S. unfold nodes, subgraph. simpl. apply nodes_map_fst. Qed.

Lemma subgraph_nodes_In : forall G S v,
  In v (nodes (subgraph G S)) <-> In v (nodes G) /\ In v S.
Proof.
  intros G S v. rewrite subgraph_nodes, set_iter_In, filter_In, set_mem_In. tauto.
Qed.

Lemma subgraph_nodes_NoDup : forall G S,
  NoDup (nodes G) -> NoDup (nodes (subgraph G S)).
Proof.
  intros G S H. rewrite subgraph_nodes. apply set_iter_NoDup. now apply NoDup_filter.
Qed.


Lemma subgraph_edges_In : forall G S a b d,
  In (a, b, d) (g_edges (subgraph G S)) <->
  In (a, b, d) (g_edges G) /\ In a S /\ In b S.
Proof.
  intros G S a b d. unfold subgraph. simpl. rewrite filter_In.
  rewrite andb_true_iff, !set_mem_In. tauto.
Qed.

Lemma subgraph_adjacent : forall G S u v,
  adjacent (subgraph G S) u v <-> adjacent G u v /\ In u S /\ In v S.
Proof.
  intros G S u v. rewrite !adjacent_edge. split.
  - intros [d [H | H]]; apply subgraph_edges_In in H;
      (split; [exists d; tauto | tauto]).
  - intros [[d [H | H]] [Hu Hv]]; exists d; [left | right];
      apply subgraph_edges_In; tauto.
Qed.

Lemma subgraph_wf : forall G S, graph_wf G -> graph_wf (subgraph G S).
Proof.
  intros G S Hwf. apply graph_wf_intro.
  - apply subgraph_nodes_NoDup. now apply graph_wf_NoDup.
  - intros a b d H. apply subgraph_edges_In in H. destruct H as [H [Ha Hb]].
    apply (graph_wf_edges _ _ _ _ Hwf) in H. rewrite !subgraph_nodes_In. tauto.
Qed.

Lemma subgraph_connected_mono : forall G S S' u v,
  (forall x, In x S -> In x S') ->
  connected (subgraph G S) u v -> connected (subgraph G S') u v.
Proof.
  intros G S S' u v Hsub H. induction H as [|v w Huv IH Hvw]; [constructor|].
  apply conn_step with v; [assumption|].
  apply subgraph_adjacent in Hvw. apply subgraph_adjacent.
  destruct Hvw as [H1 [H2 H3]]. auto.
Qed.


Lemma subgraph_connected_in : forall G S u v,
  connected (subgraph G S) u v -> In u S -> In v S.
Proof.
  intros G S u v H Hu. induction H as [|v w Huv IH Hvw]; [assumption|].
  apply subgraph_adjacent in Hvw. tauto.
Qed.

(** ** Breadth-first traversal *)

Lemma visit_fold : forall ws s nx,
  exists d,
    fold_left visit ws (s, nx) = (s ++ d, nx ++ d)
    /\ (forall y, In y d <-> In y ws /\ ~ In y s)
    /\ (NoDup s -> NoDup (s ++ d)).
Proof.
  induction ws as [|w ws IH]; intros s nx.
  - exists []. simpl. rewrite !app_nil_r. repeat split; tauto.
  - cbn [fold_left]. unfold visit at 2. destruct (set_mem w s) eqn:E.
    + destruct (IH s nx) as [d [Hd [Hin Hnd]]]. exists d. split; [assumption|].
      split; [|assumption]. intros y. rewrite Hin. simpl.
      apply set_mem_In in E. split; [tauto|].
      intros [[<- | H] Hn]; tauto.
    + assert (Hadd : set_add w s = s ++ [w]) by (unfold set_add; now rewrite E).
      rewrite Hadd. apply set_mem_not_In in E.
      destruct (IH (s ++ [w]) (nx ++ [w])) as [d [Hd [Hin Hnd]]].
      exists (w :: d). rewrite Hd, <- !app_assoc. split; [reflexivity|]. split.
      * intros y. simpl. rewrite Hin, in_app_iff. simpl.
        destruct (string_dec w y) as [->|Hne]; [tauto|]. intuition congruence.
      * intros Hs. change (s ++ w :: d) with (s ++ [w] ++ d).
        rewrite app_assoc. apply Hnd. rewrite <- Hadd. now apply set_add_NoDup.
Qed.

Lemma expand_level_flat : forall G level acc,
  fold_left (fun acc v => fold_left visit (neighbors G v) acc) level acc =
  fold_left visit (flat_map (neighbors G) level) acc.
Proof.
  intros G level. induction level as [|v level IH]; intros acc; simpl.
  - reflexivity.
  - rewrite fold_left_app. apply IH.
Qed.

Lemma expand_level_spec : forall G seen level,
  exists next,
    expand_level G seen level = (seen ++ next, next)
    /\ (forall y, In y next <->
                  (exists x, In x level /\ adjacent G x y) /\ ~ In y seen)
    /\ (NoDup seen -> NoDup (seen ++ next)).
Proof.
  intros G seen level. unfold expand_level. rewrite expand_level_flat.
  destruct (visit_fold (flat_map (neighbors G) level) seen []) as [d [Hd [Hin Hnd]]].
  exists d. split; [exact Hd|]. split; [|assumption].
  intros y. rewrite Hin, in_flat_map. unfold adjacent. tauto.
Qed.

Lemma bfs_levels_incl : forall G rounds seen level x,
  In x seen -> In x (bfs_levels G rounds seen level).
Proof.
  intros G rounds. induction rounds as [|k IH]; intros seen level x Hx; simpl.
  - assumption.
  - destruct level as [|v level]; [assumption|].
    destruct (expand_level_spec G seen (v :: level)) as [next [He _]].
    rewrite He. apply IH. rewrite in_app_iff. now left.
Qed.

Lemma bfs_levels_sound : forall G src rounds seen level,
  (forall x, In x seen -> connected G src x) ->
  (forall x, In x level -> In x seen) ->
  forall y, In y (bfs_levels G rounds seen level) -> connected G src y.
Proof.
  intros G src rounds. induction rounds as [|k IH]; intros seen level Hs Hl y; simpl.
  - apply Hs.
  - destruct level as [|v level]; [apply Hs|].
    destruct (expand_level_spec G seen (v :: level)) as [next [He [Hin _]]].
    rewrite He. apply IH.
    + intros x. rewrite in_app_iff. intros [Hx | Hx]; [now apply Hs|].
      apply Hin in Hx. destruct Hx as [[x0 [Hx0 Hadj]] _].
      apply conn_step with x0; [|assumption]. apply Hs, Hl, Hx0.
    + intros x Hx. rewrite in_app_iff. now right.
Qed.

Lemma number_of_nodes_length : forall G, number_of_nodes G = List.length (nodes G).
Proof. intros G. unfold number_of_nodes, nodes, dict_keys. now rewrite length_map. Qed.

(** With as many rounds as nodes the traversal stops on an empty level:
    what it returns is closed under adjacency. *)
Lemma bfs_levels_closed : forall G rounds seen level,
  graph_wf G ->
  NoDup seen -> incl seen (nodes G) -> incl level seen ->
  (forall x y, In x seen -> ~ In x level -> adjacent G x y -> In y seen) ->
  (level <> [] -> (number_of_nodes G < rounds + List.length seen)%nat) ->
  forall x y, In x (bfs_levels G rounds seen level) -> adjacent G x y ->
              In y (bfs_levels G rounds seen level).
Proof.
  intros G rounds. induction rounds as [|k IH];
    intros seen level Hwf Hnd Hin Hl Hcl Hfuel; simpl.
  - destruct level as [|v level].
    + intros x y Hx. now apply Hcl.
    + exfalso. assert (H : (number_of_nodes G < 0 + List.length seen)%nat)
        by (apply Hfuel; discriminate).
      rewrite number_of_nodes_length in H.
      pose proof (NoDup_incl_length Hnd Hin). lia.
  - destruct level as [|v level].
    + intros x y Hx. now apply Hcl.
    + destruct (expand_level_spec G seen (v :: level)) as [next [He [Hnext Hnd']]].
      rewrite He. apply IH; try assumption.
      * now apply Hnd'.
      * intros x. rewrite in_app_iff. intros [Hx | Hx]; [now apply Hin|].
        apply Hnext in Hx. destruct Hx as [[x0 [_ Hadj]] _].
        now apply (adjacent_nodes _ _ _ Hwf) in Hadj.
      * intros x Hx. rewrite in_app_iff. now right.
      * intros x y Hx Hnx Hadj. rewrite in_app_iff in *.
        destruct Hx as [Hx | Hx]; [|contradiction].
        destruct (in_dec string_dec x (v :: level)) as [Hlv | Hlv].
        -- destruct (in_dec string_dec y seen) as [Hy | Hy]; [now left|].
           right. apply Hnext. split; [exists x; tauto | assumption].
        -- left. now apply (Hcl x y).
      * intros Hne. rewrite length_app.
        assert (H : (number_of_nodes G < S k + List.length seen)%nat)
          by (apply Hfuel; discriminate).
        destruct next as [|n0 next]; [now elim Hne|]. cbn [List.length].
        lia.
Qed.

(** [_plain_bfs] returns the nodes joined to the source. *)
Lemma _plain_bfs_spec : forall G v w,
  graph_wf G -> In v (nodes G) ->
  (In w (_plain_bfs G v) <-> connected G v w).
Proof.
  intros G v w Hwf Hv. unfold _plain_bfs. split.
  - apply bfs_levels_sound.
    + intros x [<- | []]. constructor.
    + tauto.
  - intros H. induction H as [|x y Hvx IH Hxy].
    + apply bfs_levels_incl. now left.
    + apply bfs_levels_closed with (x := x); try assumption.
      * repeat constructor. simpl. tauto.
      * intros z [<- | []]. assumption.
      * intros z Hz. assumption.
      * intros a b Ha Hna. contradiction.
      * intros _. simpl. lia.
Qed.

Lemma _plain_bfs_source : forall G v, In v (_plain_bfs G v).
Proof. intros G v. apply bfs_levels_incl. now left. Qed.

(** ** Connected components *)

(** The nodes from which [connected_components] starts a traversal. *)
Fixpoint roots_from (G : Graph) (vs : list node) (seen : pyset) : list node :=
  match vs with
  | [] => []
  | v :: vs' =>
      if set_mem v seen
      then roots_from G vs' seen
      else v :: roots_from G vs' (set_update seen (_plain_bfs G v))
  end.

Lemma components_from_roots : forall G vs seen,
  components_from G vs seen = map (_plain_bfs G) (roots_from G vs seen).
Proof.
  intros G vs. induction vs as [|v vs IH]; intros seen; simpl; [reflexivity|].
  destruct (set_mem v seen); [apply IH|]. simpl. now rewrite IH.
Qed.

Lemma roots_from_spec : forall G vs seen,
  graph_wf G ->
  (forall v, In v vs -> In v (nodes G)) ->
  (forall x y, In x seen -> connected G x y -> In y seen) ->
  ForallOrdPairs (fun a b => ~ connected G a b) (roots_from G vs seen)
  /\ (forall r, In r (roots_from G vs seen) -> In r vs /\ ~ In r seen)
  /\ (forall v, In v vs ->
        In v seen \/ exists r, In r (roots_from G vs seen) /\ connected G r v).
Proof.
  intros G vs. induction vs as [|v vs IH]; intros seen Hwf Hvs Hcl; simpl.
  - repeat split; try tauto. constructor.
  - assert (Hvs' : forall u, In u vs -> In u (nodes G)) by (intros; apply Hvs; now right).
    destruct (set_mem v seen) eqn:E.
    + apply set_mem_In in E.
      destruct (IH seen Hwf Hvs' Hcl) as [H1 [H2 H3]]. repeat split.
      * assumption.
      * right. now apply H2.
      * now apply H2.
      * intros u [<- | Hu]; [now left | now apply H3].
    + apply set_mem_not_In in E.
      assert (Hv : In v (nodes G)) by (apply Hvs; now left).
      assert (Hcl' : forall x y, In x (set_update seen (_plain_bfs G v)) ->
                                 connected G x y ->
                                 In y (set_update seen (_plain_bfs G v))).
      { intros x y. rewrite !set_update_In. intros [Hx | Hx] Hxy.
        - left. now apply (Hcl x).
        - right. apply _plain_bfs_spec; try assumption.
          apply _plain_bfs_spec in Hx; try assumption.
          now apply connected_trans with x. }
      destruct (IH _ Hwf Hvs' Hcl') as [H1 [H2 H3]]. repeat split.
      * constructor; [|assumption]. apply Forall_forall. intros b Hb Hc.
        apply H2 in Hb. destruct Hb as [_ Hb]. apply Hb.
        rewrite set_update_In. right. now apply _plain_bfs_spec.
      * destruct H as [<- | H]; [now left | right; now apply H2].
      * destruct H as [<- | H]; [assumption|].
        apply H2 in H. destruct H as [_ H]. intros Hs. apply H.
        rewrite set_update_In. now left.
      * intros u [<- | Hu].
        -- right. exists v. split; [now left | constructor].
        -- destruct (H3 u Hu) as [Hs | [r [Hr Hc]]].
           ++ rewrite set_update_In in Hs. destruct Hs as [Hs | Hs]; [now left|].
              right. exists v. split; [now left|]. now apply _plain_bfs_spec in Hs.
           ++ right. exists r. split; [now right | assumption].
Qed.






(** ** Shortest paths *)

(** A sequence of nodes in which each one is the previous one or a
    neighbour of it, starting after [prev]. *)
Fixpoint chain (G : Graph) (prev : node) (path : list node) : Prop :=
  match path with
  | [] => True
  | v :: rest => (prev = v \/ adjacent G prev v) /\ chain G v rest
  end.

(** A path as the search holds it: last node first, down to the source. *)
Inductive rpath (G : Graph) (src : node) : list node -> Prop :=
| rpath_source : rpath G src [src]
| rpath_cons : forall w v p,
    rpath G src (v :: p) -> adjacent G v w -> rpath G src (w :: v :: p).

Lemma chain_snoc : forall G l a v w,
  chain G a (l ++ [v]) -> adjacent G v w -> chain G a ((l ++ [v]) ++ [w]).
Proof.
  intros G l. induction l as [|x l IH]; intros a v w H Hadj; simpl in *.
  - tauto.
  - destruct H as [H1 H2]. split; [assumption|]. now apply IH.
Qed.

Lemma rpath_chain : forall G src p, rpath G src p -> chain G src (rev p).
Proof.
  intros G src p H. induction H as [|w v p H IH Hadj].
  - simpl. tauto.
  - change (rev (w :: v :: p)) with ((rev p ++ [v]) ++ [w]).
    apply chain_snoc; assumption.
Qed.

Lemma chain_connected : forall G l a x,
  chain G a l -> In x l -> connected G a x.
Proof.
  intros G l. induction l as [|v l IH]; intros a x H Hx; simpl in *; [contradiction|].
  destruct H as [Hav Hl].
  assert (Hv : connected G a v).
  { destruct Hav as [<- | Hadj]; [constructor|].
    apply conn_step with a; [constructor | assumption]. }
  destruct Hx as [<- | Hx]; [assumption|].
  apply connected_trans with v; [assumption | now apply IH].
Qed.

Lemma visit_path_fold : forall p ws s nx p',
  In p' (snd (fold_left (visit_path p) ws (s, nx))) ->
  In p' nx \/ exists w, In w ws /\ p' = w :: p.
Proof.
  intros p ws. induction ws as [|w ws IH]; intros s nx p' H; simpl in *; [now left|].
  destruct (set_mem w s).
  - apply IH in H. destruct H as [H | [w' [H1 H2]]]; [now left|].
    right. exists w'. tauto.
  - apply IH in H. destruct H as [H | [w' [H1 H2]]].
    + apply in_app_iff in H. destruct H as [H | [<- | []]]; [now left|].
      right. exists w. tauto.
    + right. exists w'. tauto.
Qed.

Lemma expand_paths_fold : forall G level acc p',
  In p' (snd (fold_left
                (fun acc p =>
                   match p with
                   | [] => acc
                   | v :: _ => fold_left (visit_path p) (neighbors G v) acc
                   end) level acc)) ->
  In p' (snd acc)
  \/ exists w v p, In (v :: p) level /\ adjacent G v w /\ p' = w :: v :: p.
Proof.
  intros G level. induction level as [|p level IH]; intros acc p' H; simpl in *.
  - now left.
  - apply IH in H. destruct H as [H | [w [v [q [H1 [H2 H3]]]]]].
    + destruct p as [|v p]; [now left|].
      destruct acc as [s nx]. apply visit_path_fold in H.
      destruct H as [H | [w [Hw ->]]]; [now left|].
      right. exists w, v, p. repeat split; [now left | exact Hw].
    + right. exists w, v, q. tauto.
Qed.

Lemma bfs_paths_sound : forall G src dst rounds seen level r,
  (forall p, In p level -> rpath G src p) ->
  bfs_paths G rounds seen level dst = Some r ->
  exists p, r = rev p /\ rpath G src p /\ ends_at dst p = true.
Proof.
  intros G src dst rounds.
  induction rounds as [|k IH]; intros seen level r Hl H; simpl in H;
    destruct (find (ends_at dst) level) as [p|] eqn:Ef.
  - injection H as <-. apply find_some in Ef. exists p. split; [reflexivity|].
    split; [now apply Hl | tauto].
  - discriminate.
  - injection H as <-. apply find_some in Ef. exists p. split; [reflexivity|].
    split; [now apply Hl | tauto].
  - destruct level as [|p0 level]; [discriminate|].
    destruct (expand_paths G seen (p0 :: level)) as [seen' next] eqn:Ee.
    apply IH in H; [assumption|].
    intros p Hp. unfold expand_paths in Ee.
    pose proof (expand_paths_fold G (p0 :: level) (seen, []) p) as Hf.
    rewrite Ee in Hf. simpl snd in Hf.
    destruct (Hf Hp) as [[] | [w [v [q [H1 [H2 ->]]]]]].
    apply rpath_cons; [now apply Hl | assumption].
Qed.

Lemma rpath_rev_head : forall G src p,
  rpath G src p -> exists t, rev p = src :: t.
Proof.
  intros G src p H. induction H as [|w v p H [t Ht] Hadj].
  - now exists [].
  - exists (t ++ [w]). simpl in *. now rewrite Ht.
Qed.

Lemma shortest_path_sound : forall G src dst r,
  shortest_path G src dst = Ok r ->
  chain G src r /\ In dst r /\ exists t, r = src :: t.
Proof.
  intros G src dst r H. unfold shortest_path in H.
  destruct (has_node G src && has_node G dst); [|discriminate].
  destruct (bfs_paths G (number_of_nodes G) [src] [[src]] dst) as [r'|] eqn:E;
    [|discriminate].
  injection H as <-. apply bfs_paths_sound with (src := src) in E.
  - destruct E as [p [-> [Hp He]]]. split; [now apply rpath_chain|]. split.
    + destruct p as [|v p]; [discriminate|]. simpl in He.
      apply String.eqb_eq in He. subst v. simpl. rewrite in_app_iff. simpl. tauto.
    + now apply rpath_rev_head with G.
  - intros p [<- | []]. constructor.
Qed.

(** What [_shortest_path_safe] hands to the stitching loop. *)
Lemma _shortest_path_safe_spec : forall self src dst,
  chain (graph self) src (_shortest_path_safe self src dst)
  /\ (forall x, In x (_shortest_path_safe self src dst) ->
        x = src \/ connected (graph self) x dst)
  /\ exists t, _shortest_path_safe self src dst = src :: t.
Proof.
  intros self src dst. unfold _shortest_path_safe.
  destruct (shortest_path (graph self) src dst) as [r|e] eqn:E.
  - apply shortest_path_sound in E. destruct E as [Hc [Hd Hh]].
    split; [assumption|]. split; [|assumption].
    intros x Hx. right.
    apply connected_trans with src.
    + apply connected_sym. now apply chain_connected with r.
    + now apply chain_connected with r.
  - simpl. split; [tauto|]. split; [|now exists []]. intros x [<- | []]. now left.
Qed.

Lemma py_min_by_In : forall (A : Type) (key : A -> option nat) xs x,
  In (py_min_by key x xs) (x :: xs).
Proof.
  intros A key xs. induction xs as [|y ys IH]; intros x; simpl; [now left|].
  destruct (dist_ltb (key y) (key x)).
  - right. apply IH.
  - destruct (IH x) as [H | H]; [now left | right; now right].
Qed.

(** ** Connectivity repair *)

Lemma set_add_member : forall x s, In x s -> set_add x s = s.
Proof.
  intros x s H. unfold set_add. apply set_mem_In in H. now rewrite H.
Qed.

Lemma len_set_add : forall x s, (len (set_add x s) <= len s + 1)%Z.
Proof.
  intros x s. unfold len. rewrite set_add_length. destruct (set_mem x s); lia.
Qed.

Lemma add_path_small : forall path sel n sel' b,
  (len sel < n)%Z -> add_path path sel n = (sel', b) -> (len sel' <= n)%Z.
Proof.
  induction path as [|v path IH]; intros sel n sel' b Hlt H; simpl in H.
  - injection H as <- _. lia.
  - pose proof (len_set_add v sel) as Hadd.
    destruct (len (set_add v sel) >=? n)%Z eqn:E.
    + injection H as <- _. lia.
    + apply IH in H; [assumption|]. lia.
Qed.

(** A path whose first node is selected already: either nothing is added,
    or the selection stays within the budget. *)
Lemma add_path_bound : forall path sel n sel' b,
  (forall v rest, path = v :: rest -> In v sel) ->
  add_path path sel n = (sel', b) ->
  sel' = sel \/ (len sel' <= n)%Z.
Proof.
  intros [|v path] sel n sel' b Hhd H; simpl in H.
  - injection H as <- _. now left.
  - rewrite (set_add_member v sel) in H by (eapply Hhd; reflexivity).
    destruct (len sel >=? n)%Z eqn:E.
    + injection H as <- _. now left.
    + right. apply add_path_small in H; [assumption|]. lia.
Qed.

Lemma add_path_spec : forall G path prev sel n sel' b,
  chain G prev path -> In prev sel ->
  add_path path sel n = (sel', b) ->
  (forall x, In x sel -> In x sel')
  /\ (forall x, In x sel' ->
        In x sel \/ (In x path /\ connected (subgraph G sel') prev x)).
Proof.
  intros G path. induction path as [|v path IH];
    intros prev sel n sel' b Hch Hprev H; simpl in H.
  - injection H as <- _. split; [tauto | now left].
  - destruct Hch as [Hpv Hch].
    assert (Hstep : forall S, In prev S -> In v S -> connected (subgraph G S) prev v).
    { intros S H1 H2. destruct Hpv as [<- | Hadj]; [constructor|].
      apply conn_step with prev; [constructor|]. apply subgraph_adjacent. tauto. }
    destruct (len (set_add v sel) >=? n)%Z.
    + injection H as <- _. split.
      * intros x Hx. apply set_add_In. now right.
      * intros x Hx. apply set_add_In in Hx. destruct Hx as [-> | Hx]; [|now left].
        right. split; [now left|]. apply Hstep; apply set_add_In; tauto.
    + apply (IH v) in H; [|assumption | apply set_add_In; now left].
      destruct H as [Hsub Hnew]. split.
      * intros x Hx. apply Hsub, set_add_In. now right.
      * intros x Hx.
        assert (Hpv' : connected (subgraph G sel') prev v).
        { apply Hstep; apply Hsub, set_add_In; tauto. }
        destruct (Hnew x Hx) as [Hx1 | [Hx1 Hx2]].
        -- apply set_add_In in Hx1. destruct Hx1 as [-> | Hx1]; [|now left].
           right. split; [now left | assumption].
        -- right. split; [now right|].
           now apply connected_trans with v.
Qed.

(** The stitching loop, run on components that lie in the selection:
    it returns; the selection only grows; it is unchanged or within the
    budget; and every node added hangs, inside the final selection, on a
    node of one of the components, and is joined in the full graph to one
    of the focal entities. *)
Lemma stitch_spec : forall self comps base focal0 focal sel n,
  (forall c, In c comps -> c <> [] /\ forall x, In x c -> In x sel) ->
  exists sel',
    stitch self comps base focal0 focal sel n = Ok sel'
    /\ (forall x, In x sel -> In x sel')
    /\ (sel' = sel \/ (len sel' <= n)%Z)
    /\ (forall x, In x sel' ->
          In x sel
          \/ ((exists c u, In c comps /\ In u c
                           /\ connected (subgraph (graph self) sel') u x)
              /\ exists f, In f (focal0 :: focal) /\ connected (graph self) x f)).
Proof.
  intros self comps base focal0 focal.
  induction comps as [|c comps IH]; intros sel n Hc; simpl.
  - exists sel. repeat split; try tauto; try (now left).
  - assert (Hrest : forall sel1, (forall x, In x sel -> In x sel1) ->
              forall c', In c' comps -> c' <> [] /\ forall x, In x c' -> In x sel1).
    { intros sel1 Hs c' Hc'. destruct (Hc c' (or_intror Hc')) as [H1 H2].
      split; [assumption | auto]. }
    destruct (set_eqb c base).
    + destruct (IH sel n (Hrest sel (fun x H => H))) as [sel' [H1 [H2 [H3 H4]]]].
      exists sel'. repeat split; try assumption.
      intros x Hx. destruct (H4 x Hx) as [H | [[c' [u [Hc' Hu]]] Hf]]; [now left|].
      right. split; [|assumption]. exists c', u. split; [now right | assumption].
    + destruct (Hc c (or_introl eq_refl)) as [Hne Hcsel].
      destruct (set_iter rt c) as [|source rest] eqn:Ei.
      { exfalso. apply Hne. apply length_zero_iff_nil.
        rewrite <- set_iter_length, Ei. reflexivity. }
      assert (Hsrc : In source c) by (apply set_iter_In; rewrite Ei; now left).
      set (target := py_min_by (fun v => _shortest_path_length_safe self source v)
                               focal0 focal).
      destruct (_shortest_path_safe_spec self source target) as [Hch [Hreach [t Ht]]].
      destruct (add_path (_shortest_path_safe self source target) sel n)
        as [sel1 returned] eqn:Ea.
      assert (Hb : sel1 = sel \/ (len sel1 <= n)%Z).
      { apply add_path_bound in Ea; [assumption|].
        intros v rest' Hp. rewrite Ht in Hp. injection Hp as <- _.
        now apply Hcsel. }
      destruct (add_path_spec (graph self) _ source sel n sel1 returned Hch
                  (Hcsel _ Hsrc) Ea) as [Hsub Hnew].
      assert (Htarget : In target (focal0 :: focal)) by apply py_min_by_In.
      destruct returned.
      * exists sel1. repeat split; try assumption.
        intros x Hx. destruct (Hnew x Hx) as [H | [Hp Hconn]]; [now left|].
        destruct (in_dec string_dec x sel) as [Hin | Hnin]; [now left|].
        right. split.
        -- exists c, source. split; [now left | tauto].
        -- exists target. split; [assumption|].
           destruct (Hreach x Hp) as [-> | H]; [|assumption].
           exfalso. apply Hnin. now apply Hcsel.
      * destruct (IH sel1 n (Hrest sel1 Hsub)) as [sel' [H1 [H2 [H3 H4]]]].
        exists sel'. repeat split.
        -- assumption.
        -- auto.
        -- destruct H3 as [-> | H3]; [|now right].
           destruct Hb as [-> | Hb]; [now left | now right].
        -- intros x Hx. destruct (H4 x Hx) as [H | [[c' [u [Hc' Hu]]] Hf]].
           ++ destruct (Hnew x H) as [H' | [Hp Hconn]]; [now left|].
              destruct (in_dec string_dec x sel) as [Hin | Hnin]; [now left|].
              right. split.
              ** exists c, source. split; [now left|]. split; [assumption|].
                 now apply subgraph_connected_mono with sel1.
              ** exists target. split; [assumption|].
                 destruct (Hreach x Hp) as [-> | H'']; [|assumption].
                 exfalso. apply Hnin. now apply Hcsel.
           ++ right. split; [|assumption].
              exists c', u. split; [now right | assumption].
Qed.

Lemma components_from_members : forall G c,
  graph_wf G ->
  In c (components_from G (nodes G) []) ->
  c <> [] /\ exists r, In r (nodes G) /\ forall x, In x c <-> connected G r x.
Proof.
  intros G c Hwf Hc. rewrite components_from_roots in Hc.
  apply in_map_iff in Hc. destruct Hc as [r [<- Hr]].
  destruct (roots_from_spec G (nodes G) [] Hwf) as [_ [HR _]];
    [tauto | intros x y []|].
  apply HR in Hr. destruct Hr as [Hr _]. split.
  - intros Hnil. pose proof (_plain_bfs_source G r) as H. rewrite Hnil in H.
    contradiction.
  - exists r. split; [assumption|]. intros x. now apply _plain_bfs_spec.
Qed.

(** [_ensure_connectivity] on the subgraph induced by the selection. *)
Lemma _ensure_connectivity_spec : forall self sel focal_entities n,
  graph_wf (graph self) ->
  exists sel',
    _ensure_connectivity self (subgraph (graph self) sel) sel focal_entities n
      = Ok sel'
    /\ (forall x, In x sel -> In x sel')
    /\ (sel' = sel \/ (len sel' <= n)%Z)
    /\ (forall x, In x sel' ->
          In x sel
          \/ ((exists u, In u (nodes (subgraph (graph self) sel))
                         /\ connected (subgraph (graph self) sel') u x)
              /\ exists f, In f focal_entities /\ In f (nodes (graph self))
                           /\ connected (graph self) x f)).
Proof.
  intros self sel focal_entities n Hwf.
  assert (Hsame : exists sel',
    Ok sel = Ok sel'
    /\ (forall x, In x sel -> In x sel')
    /\ (sel' = sel \/ (len sel' <= n)%Z)
    /\ (forall x, In x sel' ->
          In x sel
          \/ ((exists u, In u (nodes (subgraph (graph self) sel))
                         /\ connected (subgraph (graph self) sel') u x)
              /\ exists f, In f focal_entities /\ In f (nodes (graph self))
                           /\ connected (graph self) x f))).
  { exists sel. repeat split; try tauto; try (now left). }
  unfold _ensure_connectivity.
  destruct focal_entities as [|f0 fs] eqn:EF; [exact Hsame|]. rewrite <- EF in *.
  unfold connected_components.
  set (sub := subgraph (graph self) sel) in *.
  set (comps := components_from sub (nodes sub) []).
  destruct (List.length comps <=? 1)%nat; [exact Hsame|].
  destruct (filter (has_node (graph self)) (set_iter rt focal_entities))
    as [|focal0 focal] eqn:Ef; [exact Hsame|].
  destruct comps as [|c0 cs] eqn:Ec; [exact Hsame|]. rewrite <- Ec.
  assert (Hwfs : graph_wf sub) by (now apply subgraph_wf).
  assert (Hcomps : forall c, In c comps ->
            c <> [] /\ forall x, In x c -> In x sel /\ In x (nodes sub)).
  { intros c Hc. destruct (components_from_members sub c Hwfs Hc) as [Hne [r [Hr Hx]]].
    split; [assumption|]. intros x Hcx. apply Hx in Hcx. split.
    - apply subgraph_connected_in with (graph self) r; [assumption|].
      apply subgraph_nodes_In in Hr. tauto.
    - now apply connected_nodes with r. }
  destruct (stitch_spec self comps
              (py_max_by (fun comp => List.length (set_intersection comp focal_entities))
                         c0 cs)
              focal0 focal sel n) as [sel' [H1 [H2 [H3 H4]]]].
  { intros c Hc. destruct (Hcomps c Hc) as [Hne Hx]. split; [assumption|].
    intros x Hcx. now apply Hx. }
  exists sel'. repeat split; try assumption.
  intros x Hx. destruct (H4 x Hx) as [H | [[c [u [Hc [Hu Hconn]]]] [f [Hf Hxf]]]];
    [now left|].
  right. split.
  - exists u. split; [|assumption]. now apply (Hcomps c Hc).
  - exists f. rewrite <- Ef in Hf. apply filter_In in Hf. destruct Hf as [Hf1 Hf2].
    rewrite set_iter_In in Hf1. rewrite has_node_In in Hf2. tauto.
Qed.

(** ** Candidates, ranking and selection *)

Lemma collect_candidates_spec : forall self es max_hops acc,
  exists c,
    collect_candidates self es max_hops acc = Ok c
    /\ (forall x, In x c <->
          In x acc
          \/ exists e, In e es /\ In e (nodes (graph self)) /\ In x (nodes (graph self))
                       /\ In x (bfs_levels (graph self) (Z.to_nat max_hops) [e] [e]))
    /\ (NoDup acc -> NoDup c).
Proof.
  intros self es max_hops. induction es as [|e es IH]; intros acc; simpl.
  - exists acc. repeat split; try tauto. intros [H | [e [[] _]]]. assumption.
  - destruct (has_node (graph self) e) eqn:Ee; simpl.
    + unfold ego_graph, single_source_within. rewrite Ee. simpl.
      set (sp := bfs_levels (graph self) (Z.to_nat max_hops) [e] [e]).
      destruct (IH (set_update acc (nodes (subgraph (graph self) sp))))
        as [c [Hc [Hin Hnd]]].
      exists c. split; [assumption|]. split.
      * intros x. rewrite Hin, set_update_In, subgraph_nodes_In.
        apply has_node_In in Ee. split.
        -- intros [[H | [H1 H2]] | [e' [H1 H2]]].
           ++ now left.
           ++ right. exists e. tauto.
           ++ right. exists e'. tauto.
        -- intros [H | [e' [[<- | H1] H2]]].
           ++ left. now left.
           ++ left. right. tauto.
           ++ right. exists e'. tauto.
      * intros H. now apply Hnd, set_update_NoDup.
    + destruct (IH acc) as [c [Hc [Hin Hnd]]].
      exists c. split; [assumption|]. split; [|assumption].
      intros x. rewrite Hin. split.
      * intros [H | [e' [H1 H2]]]; [now left|]. right. exists e'. tauto.
      * intros [H | [e' [[<- | H1] [H2 H3]]]]; [now left | |].
        -- apply has_node_In in H2. congruence.
        -- right. exists e'. tauto.
Qed.

(** The fallback of [candidates]: the most central nodes. *)
Definition most_central (self : GraphManager) (max_nodes : Z) : list node :=
  slice_to max_nodes
    (sorted_desc (fun v => dict_get_default v 0.0 (_centrality self))
                 (nodes (graph self))).

Lemma candidates_spec : forall self focal_entities max_hops max_nodes,
  exists c,
    candidates self focal_entities max_hops max_nodes = Ok c
    /\ NoDup c
    /\ (forall x, In x c -> In x (nodes (graph self)))
    /\ ((forall e, In e focal_entities -> ~ In e (nodes (graph self))) ->
        c = set_of_list (most_central self max_nodes))
    /\ ((exists e, In e focal_entities /\ In e (nodes (graph self))) ->
        forall x, In x c <->
          exists e, In e focal_entities /\ In e (nodes (graph self))
                    /\ In x (nodes (graph self))
                    /\ In x (bfs_levels (graph self) (Z.to_nat max_hops) [e] [e])).
Proof.
  intros self focal_entities max_hops max_nodes. unfold candidates.
  destruct (collect_candidates_spec self (set_iter rt focal_entities) max_hops [])
    as [c [Hc [Hin Hnd]]].
  rewrite Hc. simpl.
  assert (Hin' : forall x, In x c <->
            exists e, In e focal_entities /\ In e (nodes (graph self))
                      /\ In x (nodes (graph self))
                      /\ In x (bfs_levels (graph self) (Z.to_nat max_hops) [e] [e])).
  { intros x. rewrite Hin. split.
    - intros [[] | [e [H1 H2]]]. exists e. rewrite <- set_iter_In. tauto.
    - intros [e [H1 H2]]. right. exists e. rewrite set_iter_In. tauto. }
  destruct c as [|x0 c'] eqn:Ec.
  - eexists. split; [reflexivity|]. split; [apply set_of_list_NoDup|]. split.
    + intros x Hx. apply set_of_list_In, slice_to_incl, sorted_desc_In in Hx.
      assumption.
    + split; [reflexivity|].
      intros [e [He1 He2]]. exfalso.
      assert (H : In e []).
      { apply Hin'. exists e. repeat split; try assumption.
        apply bfs_levels_incl. now left. }
      contradiction.
  - exists (x0 :: c'). split; [reflexivity|].
    split; [apply Hnd; constructor|]. split.
    + intros x Hx. apply Hin' in Hx. destruct Hx as [e H]. tauto.
    + split; [|intros _; exact Hin'].
      intros Hnone. exfalso.
      assert (H : In x0 (x0 :: c')) by now left.
      apply Hin' in H. destruct H as [e [H1 [H2 _]]]. exact (Hnone e H1 H2).
Qed.


Lemma select_nodes_spec : forall clock self focal_entities max_hops max_nodes,
  exists c,
    candidates self focal_entities max_hops max_nodes = Ok c
    /\ select_nodes clock self focal_entities max_hops max_nodes =
       Ok (match focal_entities with
           | [] => rank clock self focal_entities max_nodes c
           | _ :: _ => set_update (rank clock self focal_entities max_nodes c)
                                  (set_iter rt focal_entities)
           end).
Proof.
  intros clock self focal_entities max_hops max_nodes.
  destruct (candidates_spec self focal_entities max_hops max_nodes) as [c [Hc _]].
  exists c. split; [assumption|]. unfold select_nodes. now rewrite Hc.
Qed.

Lemma select_nodes_In : forall clock self focal_entities max_hops max_nodes sel x,
  select_nodes clock self focal_entities max_hops max_nodes = Ok sel ->
  (In x sel <->
   (exists c, candidates self focal_entities max_hops max_nodes = Ok c
              /\ In x (rank clock self focal_entities max_nodes c))
   \/ In x focal_entities).
Proof.
  intros clock self focal_entities max_hops max_nodes sel x H.
  destruct (select_nodes_spec clock self focal_entities max_hops max_nodes)
    as [c [Hc Hs]].
  rewrite Hs in H. injection H as <-.
  destruct focal_entities as [|f fs] eqn:EF.
  - split.
    + intros Hx. left. exists c. tauto.
    + intros [[c' [Hc' Hx]] | []]. rewrite Hc in Hc'. now injection Hc' as <-.
  - rewrite <- EF in *. rewrite set_update_In, set_iter_In. split.
    + intros [Hx | Hx]; [left; exists c; tauto | now right].
    + intros [[c' [Hc' Hx]] | Hx]; [|now right].
      rewrite Hc in Hc'. injection Hc' as <-. now left.
Qed.

(** ** The subgraph builder *)

Lemma number_of_nodes_zero : forall G,
  (number_of_nodes G =? 0)%nat = true -> nodes G = [].
Proof.
  intros G H. apply Nat.eqb_eq in H. rewrite number_of_nodes_length in H.
  now apply length_zero_iff_nil.
Qed.

(** On a graph with nodes the builder returns the subgraph induced by the
    repaired selection. *)
Lemma build_contextual_subgraph_spec : forall clock self focal_entities max_hops max_nodes,
  graph_wf (graph self) ->
  (number_of_nodes (graph self) =? 0)%nat = false ->
  exists sel0 sel',
    select_nodes clock self focal_entities
      (int_or max_hops (MAX_HOPS (settings self)))
      (int_or max_nodes (MAX_GRAPH_NODES (settings self))) = Ok sel0
    /\ _ensure_connectivity self (subgraph (graph self) sel0) sel0 focal_entities
         (int_or max_nodes (MAX_GRAPH_NODES (settings self))) = Ok sel'
    /\ build_contextual_subgraph clock self focal_entities max_hops max_nodes =
       Ok (subgraph (graph self) sel').
Proof.
  intros clock self focal_entities max_hops max_nodes Hwf Hn.
  destruct (select_nodes_spec clock self focal_entities
              (int_or max_hops (MAX_HOPS (settings self)))
              (int_or max_nodes (MAX_GRAPH_NODES (settings self))))
    as [c [_ Hs]].
  remember (match focal_entities with
            | [] => rank clock self focal_entities
                      (int_or max_nodes (MAX_GRAPH_NODES (settings self))) c
            | _ :: _ =>
                set_update
                  (rank clock self focal_entities
                     (int_or max_nodes (MAX_GRAPH_NODES (settings self))) c)
                  (set_iter rt focal_entities)
            end) as sel0 eqn:Esel.
  destruct (_ensure_connectivity_spec self sel0 focal_entities
              (int_or max_nodes (MAX_GRAPH_NODES (settings self))) Hwf)
    as [sel' [He _]].
  exists sel0, sel'. split; [exact Hs|]. split; [exact He|].
  unfold build_contextual_subgraph. rewrite Hn, Hs. simpl. rewrite He. reflexivity.
Qed.

(** The builder returns on every input. *)
Lemma build_contextual_subgraph_returns :
  forall clock self focal_entities max_hops max_nodes,
  graph_wf (graph self) ->
  exists sub,
    build_contextual_subgraph clock self focal_entities max_hops max_nodes = Ok sub.
Proof.
  intros clock self focal_entities max_hops max_nodes Hwf.
  destruct (number_of_nodes (graph self) =? 0)%nat eqn:E.
  - exists empty_graph. unfold build_contextual_subgraph. now rewrite E.
  - destruct (build_contextual_subgraph_spec clock self focal_entities max_hops
                max_nodes Hwf E) as [sel0 [sel' [_ [_ H]]]].
    eexists. exact H.
Qed.

(** Every focal entity that is a node of the graph is a node of the result. *)
Lemma build_contextual_subgraph_focal :
  forall clock self focal_entities max_hops max_nodes sub f,
  graph_wf (graph self) ->
  build_contextual_subgraph clock self focal_entities max_hops max_nodes = Ok sub ->
  In f focal_entities -> In f (nodes (graph self)) -> In f (nodes sub).
Proof.
  intros clock self focal_entities max_hops max_nodes sub f Hwf Hb Hf Hg.
  destruct (number_of_nodes (graph self) =? 0)%nat eqn:E.
  - apply number_of_nodes_zero in E. rewrite E in Hg. contradiction.
  - destruct (build_contextual_subgraph_spec clock self focal_entities max_hops
                max_nodes Hwf E) as [sel0 [sel' [Hs [He H]]]].
    rewrite H in Hb. injection Hb as <-.
    apply subgraph_nodes_In. split; [assumption|].
    destruct (_ensure_connectivity_spec self sel0 focal_entities
                (int_or max_nodes (MAX_GRAPH_NODES (settings self))) Hwf)
      as [sel'' [He' [Hsub _]]].
    rewrite He in He'. injection He' as <-.
    apply Hsub. apply (select_nodes_In _ _ _ _ _ _ f Hs). now right.
Qed.




(** ** Export *)

Lemma map_result_Ok : forall (A B : Type) (f : A -> result B) xs ys,
  map_result f xs = Ok ys -> Forall2 (fun x y => f x = Ok y) xs ys.
Proof.
  intros A B f xs. induction xs as [|x xs IH]; intros ys H; simpl in H.
  - injection H as <-. constructor.
  - destruct (f x) as [y|e] eqn:Ef; simpl in H; [|discriminate].
    destruct (map_result f xs) as [ys'|e] eqn:Em; simpl in H; [|discriminate].
    injection H as <-. constructor; [assumption | now apply IH].
Qed.

Lemma map_result_returns : forall (A B : Type) (f : A -> result B) xs,
  (forall x, In x xs -> exists y, f x = Ok y) ->
  exists ys, map_result f xs = Ok ys.
Proof.
  intros A B f xs. induction xs as [|x xs IH]; intros H; simpl.
  - now exists [].
  - destruct (H x (or_introl eq_refl)) as [y Hy]. rewrite Hy. simpl.
    destruct IH as [ys Hys]; [intros; apply H; now right|].
    rewrite Hys. simpl. now exists (y :: ys).
Qed.

Lemma vis_node_Ok : forall clock self focal_entities cache scaling nd e,
  vis_node clock self focal_entities cache scaling nd = Ok e ->
  vis_id e = fst nd /\ is_focal e = set_mem (fst nd) focal_entities.
Proof.
  intros clock self focal_entities cache scaling [node_id data] e H.
  unfold vis_node in H.
  destruct (match dict_get node_id (node_metadata self) with
            | Some m => meta_type m
            | None => AStr "ENTITY"
            end); simpl in H; try discriminate.
  injection H as <-. simpl. tauto.
Qed.

Lemma vis_nodes_ids : forall clock self focal_entities cache scaling nds es,
  Forall2 (fun nd e => vis_node clock self focal_entities cache scaling nd = Ok e)
          nds es ->
  map vis_id es = dict_keys nds
  /\ forall e, In e es -> is_focal e = set_mem (vis_id e) focal_entities.
Proof.
  intros clock self focal_entities cache scaling nds es H.
  induction H as [|nd e nds es Hv H IH]; simpl.
  - split; [reflexivity | tauto].
  - apply vis_node_Ok in Hv. destruct Hv as [Hid Hf]. destruct IH as [IH1 IH2].
    split; [now rewrite Hid, IH1|].
    intros e' [<- | He']; [now rewrite Hf, Hid | now apply IH2].
Qed.

(** The attributes that [graph_to_vis_format] can render: the entity type
    of every node is a string, and every edge weight converts to a float. *)
Definition renderable (self : GraphManager) (sub : Graph) : Prop :=
  (forall v m, dict_get v (node_metadata self) = Some m ->
               exists s, meta_type m = AStr s)
  /\ (forall a b d, In (a, b, d) (g_edges sub) ->
        exists w, py_float rt (dict_get_default "weight" (AFloat 1.0) d) = Ok w).

Lemma graph_to_vis_format_Ok : forall clock self sub focal_entities payload,
  graph_to_vis_format clock self sub focal_entities = Ok payload ->
  map vis_id (payload_nodes payload) = nodes sub
  /\ forall e, In e (payload_nodes payload) ->
               is_focal e = set_mem (vis_id e) focal_entities.
Proof.
  intros clock self sub focal_entities payload H. unfold graph_to_vis_format in H.
  match type of H with
  | context [fold_left ?f ?l ?a] => destruct (fold_left f l a) as [cache maxi]
  end.
  match type of H with
  | context [map_result ?f (g_nodes sub)] =>
      destruct (map_result f (g_nodes sub)) as [ns|e] eqn:En
  end; simpl in H; [|discriminate].
  destruct (map_result vis_link (g_edges sub)) as [ls|e] eqn:El; simpl in H;
    [|discriminate].
  injection H as <-. simpl. apply map_result_Ok in En.
  apply vis_nodes_ids in En. exact En.
Qed.

Lemma graph_to_vis_format_returns : forall clock self sub focal_entities,
  renderable self sub ->
  exists payload, graph_to_vis_format clock self sub focal_entities = Ok payload.
Proof.
  intros clock self sub focal_entities [Hty Hw]. unfold graph_to_vis_format.
  match goal with
  | |- context [fold_left ?f ?l ?a] => destruct (fold_left f l a) as [cache maxi]
  end.
  match goal with
  | |- context [map_result ?f (g_nodes sub)] =>
      destruct (map_result_returns _ _ f (g_nodes sub)) as [ns Hns]
  end.
  { intros [node_id data] _. unfold vis_node.
    destruct (dict_get node_id (node_metadata self)) as [m|] eqn:Em.
    - destruct (Hty node_id m Em) as [s Hs]. rewrite Hs. simpl. eexists. reflexivity.
    - simpl. eexists. reflexivity. }
  rewrite Hns. simpl.
  destruct (map_result_returns _ _ vis_link (g_edges sub)) as [ls Hls].
  { intros [[a b] d] Hin. unfold vis_link.
    destruct (Hw a b d Hin) as [w Hwd]. rewrite Hwd. simpl. eexists. reflexivity. }
  rewrite Hls. simpl. eexists. reflexivity.
Qed.



(** ** Connectivity of the result *)



(** ** The order of [sorted_desc] *)








(** ** Fallback and budgets *)

Lemma set_iter_nil : set_iter rt [] = [].
Proof. apply Permutation_nil, Permutation_sym, rt_ok. Qed.









End Manager.

(** * The search for shortest paths finds what there is to find *)

(** The last node of every path of a level. *)
Definition heads (level : list (list node)) : list node :=
  map (hd EmptyString) level.

(** [x] is at most [k] edges away from [src]. *)
Inductive within (G : Graph) (src : node) : nat -> node -> Prop :=
| within_source : forall k, within G src k src
| within_step : forall k x y,
    within G src k x -> adjacent G x y -> within G src (S k) y.


Lemma connected_within : forall G src x,
  connected G src x -> exists k, within G src k x.
Proof.
  intros G src x H. induction H as [|x y H [k IH] Hadj].
  - exists 0%nat. constructor.
  - exists (S k). now apply within_step with x.
Qed.

Lemma visit_path_heads : forall p ws s nx,
  let r := fold_left (visit_path p) ws (s, nx) in
  fold_left visit ws (s, heads nx) = (fst r, heads (snd r))
  /\ (Forall (fun q => List.length q = S (List.length p)) nx ->
      Forall (fun q => List.length q = S (List.length p)) (snd r)).
Proof.
  intros p ws. induction ws as [|w ws IH]; intros s nx; simpl.
  - split; [reflexivity | tauto].
  - destruct (set_mem w s).
    + apply IH.
    + specialize (IH (set_add w s) (nx ++ [w :: p])).
      unfold heads in *. rewrite map_app in IH. simpl in IH.
      destruct IH as [IH1 IH2]. split; [exact IH1|].
      intros H. apply IH2. apply Forall_app. split; [assumption|].
      repeat constructor.
Qed.

Lemma expand_paths_heads : forall G n level s nx,
  Forall (fun q => List.length q = S n) level ->
  Forall (fun q => List.length q = S (S n)) nx ->
  let r := fold_left
             (fun acc p =>
                match p with
                | [] => acc
                | v :: _ => fold_left (visit_path p) (neighbors G v) acc
                end) level (s, nx) in
  fold_left (fun acc v => fold_left visit (neighbors G v) acc) (heads level)
            (s, heads nx) = (fst r, heads (snd r))
  /\ Forall (fun q => List.length q = S (S n)) (snd r).
Proof.
  intros G n level. induction level as [|p level IH]; intros s nx Hl Hnx; simpl.
  - split; [reflexivity | assumption].
  - inversion Hl as [|? ? Hp Hrest]; subst.
    destruct p as [|v p]; [discriminate|]. simpl.
    destruct (visit_path_heads (v :: p) (neighbors G v) s nx) as [H1 H2].
    destruct (fold_left (visit_path (v :: p)) (neighbors G v) (s, nx)) as [s1 nx1].
    simpl in H1, H2. rewrite H1. apply IH; [assumption|].
    simpl in Hp. injection Hp as Hp. rewrite Hp in H2. now apply H2.
Qed.

Lemma find_ends_at_None : forall dst n level,
  Forall (fun q => List.length q = S n) level ->
  find (ends_at dst) level = None -> ~ In dst (heads level).
Proof.
  intros dst n level Hl Ef H. unfold heads in H. apply in_map_iff in H.
  destruct H as [p [Hp Hpl]]. pose proof (find_none _ _ Ef _ Hpl) as Hf.
  rewrite Forall_forall in Hl. specialize (Hl p Hpl).
  destruct p as [|v p]; [discriminate|]. simpl in *. subst.
  now rewrite String.eqb_refl in Hf.
Qed.

Lemma expand_paths_level : forall G n seen level seen' next,
  Forall (fun q => List.length q = S n) level ->
  expand_paths G seen level = (seen', next) ->
  expand_level G seen (heads level) = (seen', heads next)
  /\ Forall (fun q => List.length q = S (S n)) next.
Proof.
  intros G n seen level seen' next Hl He.
  destruct (expand_paths_heads G n level seen [] Hl (Forall_nil _)) as [H1 H2].
  unfold expand_paths in He. rewrite He in H1, H2. simpl in H1, H2.
  split; assumption.
Qed.

(** If the traversal by levels reaches [dst] and has not passed it, the
    search returns a path, with no more nodes than the rounds it took. *)
Lemma bfs_paths_complete : forall G dst rounds n seen level,
  Forall (fun q => List.length q = S n) level ->
  (In dst seen -> In dst (heads level)) ->
  In dst (bfs_levels G rounds seen (heads level)) ->
  exists r, bfs_paths G rounds seen level dst = Some r
            /\ (List.length r <= S n + rounds)%nat.
Proof.
  intros G dst rounds. induction rounds as [|k IH]; intros n seen level Hl Hnew Hin.
  - simpl in Hin. apply Hnew in Hin. simpl.
    destruct (find (ends_at dst) level) as [p|] eqn:Ef.
    + exists (rev p). split; [reflexivity|]. apply find_some in Ef.
      rewrite Forall_forall in Hl. rewrite length_rev, (Hl p (proj1 Ef)). lia.
    + exfalso. now apply (find_ends_at_None dst n level Hl Ef).
  - destruct (find (ends_at dst) level) as [p|] eqn:Ef.
    + exists (rev p). split; [cbn [bfs_paths]; now rewrite Ef|].
      apply find_some in Ef.
      rewrite Forall_forall in Hl. rewrite length_rev, (Hl p (proj1 Ef)). lia.
    + pose proof (find_ends_at_None dst n level Hl Ef) as Hnot.
      destruct level as [|p0 level].
      * simpl in Hin. tauto.
      * destruct (expand_paths G seen (p0 :: level)) as [seen' next] eqn:Ee.
        destruct (expand_paths_level G n seen (p0 :: level) seen' next Hl Ee)
          as [He Hlen].
        assert (Hin' : In dst (bfs_levels G k seen' (heads next))).
        { change (heads (p0 :: level)) with (hd EmptyString p0 :: heads level)
            in Hin, He.
          cbn [bfs_levels] in Hin. rewrite He in Hin. exact Hin. }
        destruct (IH (S n) seen' next Hlen) as [r [Hr Hrl]]; [|assumption|].
        -- intros Hd.
           destruct (expand_level_spec G seen (heads (p0 :: level)))
             as [nx [Hx [Hnx _]]].
           rewrite He in Hx. injection Hx as -> <-.
           apply in_app_iff in Hd. destruct Hd as [Hd | Hd]; [|assumption].
           exfalso. now apply Hnot, Hnew.
        -- exists r. split; [|lia].
           cbn [bfs_paths]. rewrite Ef, Ee. exact Hr.
Qed.

Lemma bfs_paths_more : forall G dst k seen level r j,
  bfs_paths G k seen level dst = Some r ->
  bfs_paths G (k + j) seen level dst = Some r.
Proof.
  intros G dst k. induction k as [|k IH]; intros seen level r j H.
  - simpl in H. destruct (find (ends_at dst) level) as [p|] eqn:Ef; [|discriminate].
    destruct j; simpl; now rewrite Ef.
  - cbn [bfs_paths Nat.add] in *.
    destruct (find (ends_at dst) level) as [p|]; [assumption|].
    destruct level as [|p0 level]; [discriminate|].
    destruct (expand_paths G seen (p0 :: level)) as [seen' next].
    now apply IH.
Qed.

Lemma within_connected : forall G src k x, within G src k x -> connected G src x.
Proof.
  intros G src k x H. induction H as [k | k x y H IH Hadj].
  - constructor.
  - now apply conn_step with x.
Qed.

(** After [k] rounds the traversal has seen every node at most [k] edges
    away. *)
Lemma bfs_levels_within : forall G src k i seen level,
  (forall x, within G src i x -> In x seen) ->
  (forall x y, In x seen -> ~ In x level -> adjacent G x y -> In y seen) ->
  forall y, within G src (i + k) y -> In y (bfs_levels G k seen level).
Proof.
  intros G src k. induction k as [|k IH]; intros i seen level Hw Hcl y Hy.
  - rewrite Nat.add_0_r in Hy. simpl. now apply Hw.
  - cbn [bfs_levels]. destruct level as [|v level].
    + clear IH. remember (i + S k)%nat as j eqn:Ej. clear Ej.
      induction Hy as [j | j x y Hx IHx Hadj].
      * apply Hw. constructor.
      * apply (Hcl x); [assumption | tauto | assumption].
    + destruct (expand_level_spec G seen (v :: level)) as [next [He [Hnext _]]].
      rewrite He. apply (IH (S i)).
      * intros x Hx. rewrite in_app_iff.
        inversion Hx as [j | j x0 x1 Hx0 Hadj]; subst.
        -- left. apply Hw. constructor.
        -- specialize (Hw x0 Hx0).
           destruct (in_dec string_dec x seen) as [Hs | Hs]; [now left|].
           destruct (in_dec string_dec x0 (v :: level)) as [Hl | Hl].
           ++ right. apply Hnext. split; [exists x0; tauto | assumption].
           ++ left. now apply (Hcl x0).
      * intros a b Ha Hna Hadj. rewrite in_app_iff in *.
        destruct Ha as [Ha | Ha]; [|contradiction].
        destruct (in_dec string_dec b seen) as [Hs | Hs]; [now left|].
        destruct (in_dec string_dec a (v :: level)) as [Hl | Hl].
        -- right. apply Hnext. split; [exists a; tauto | assumption].
        -- left. now apply (Hcl a).
      * now rewrite Nat.add_succ_comm.
Qed.

(** [nx.shortest_path] returns a path whenever the two nodes are joined,
    and one with no more edges than any walk between them. *)
Lemma shortest_path_complete : forall G src dst k,
  graph_wf G -> In src (nodes G) -> In dst (nodes G) ->
  within G src k dst ->
  exists r, shortest_path G src dst = Ok r /\ (List.length r <= S k)%nat.
Proof.
  intros G src dst k Hwf Hs Hd Hk. unfold shortest_path.
  rewrite (proj2 (has_node_In G src) Hs), (proj2 (has_node_In G dst) Hd). simpl.
  assert (Hinit : Forall (fun q : list string => List.length q = 1%nat) [[src]])
    by (repeat constructor).
  destruct (Nat.le_gt_cases k (number_of_nodes G)) as [Hle | Hgt].
  - destruct (bfs_paths_complete G dst k 0 [src] [[src]] Hinit) as [r [Hr Hl]].
    + simpl. tauto.
    + simpl heads. apply (bfs_levels_within G src k 0).
      * intros x Hx. inversion Hx; subst. now left.
      * intros x y Hx Hn. contradiction.
      * exact Hk.
    + apply bfs_paths_more with (j := (number_of_nodes G - k)%nat) in Hr.
      replace (k + (number_of_nodes G - k))%nat with (number_of_nodes G) in Hr by lia.
      rewrite Hr. exists r. split; [reflexivity | lia].
  - destruct (bfs_paths_complete G dst (number_of_nodes G) 0 [src] [[src]] Hinit)
      as [r [Hr Hl]].
    + simpl. tauto.
    + simpl heads. apply (_plain_bfs_spec G src dst Hwf Hs).
      now apply within_connected with k.
    + rewrite Hr. exists r. split; [reflexivity | lia].
Qed.

(** So [_shortest_path_safe] falls back to [[src]] only when no walk joins
    the nodes or one of them is not in the graph. *)
Lemma shortest_path_raises : forall G src dst e,
  graph_wf G ->
  shortest_path G src dst = Raise e ->
  (e = NodeNotFound /\ (~ In src (nodes G) \/ ~ In dst (nodes G)))
  \/ (e = NetworkXNoPath /\ ~ connected G src dst).
Proof.
  intros G src dst e Hwf H.
  destruct (has_node G src) eqn:Es; [destruct (has_node G dst) eqn:Ed|].
  - right. apply has_node_In in Es, Ed.
    assert (Hn : ~ connected G src dst).
    { intros Hc. apply connected_within in Hc. destruct Hc as [k Hk].
      destruct (shortest_path_complete G src dst k Hwf Es Ed Hk) as [r [Hr _]].
      congruence. }
    split; [|assumption]. unfold shortest_path in H.
    rewrite (proj2 (has_node_In G src) Es), (proj2 (has_node_In G dst) Ed) in H.
    simpl in H.
    destruct (bfs_paths G (number_of_nodes G) [src] [[src]] dst); congruence.
  - left. unfold shortest_path in H. rewrite Es, Ed in H. simpl in H.
    split; [congruence|]. right. rewrite <- has_node_In. congruence.
  - left. unfold shortest_path in H. rewrite Es in H. simpl in H.
    split; [congruence|]. left. rewrite <- has_node_In. congruence.
Qed.

(** * Examples *)

(** A runtime for the examples: sets are enumerated in insertion order,
    case mapping is that of the ASCII letters; the examples hold no
    attribute that needs a number printed or parsed. *)
Definition ascii_lower (c : ascii) : ascii :=
  let n := nat_of_ascii c in
  if (65 <=? n)%nat && (n <=? 90)%nat then ascii_of_nat (n + 32) else c.

Definition ascii_upper (c : ascii) : ascii :=
  let n := nat_of_ascii c in
  if (97 <=? n)%nat && (n <=? 122)%nat then ascii_of_nat (n - 32) else c.

Fixpoint string_map (f : ascii -> ascii) (s : string) : string :=
  match s with
  | EmptyString => EmptyString
  | String c s' => String (f c) (string_map f s')
  end.

Definition example_runtime : PyRuntime := {|
  set_iter := fun s => s;
  str_lower := string_map ascii_lower;
  str_upper := string_map ascii_upper;
  str_of_number := fun _ => EmptyString;
  float_of_str := fun _ => None
|}.

(** The graph of the worked example: edges A-B and C-D of weight 1. *)
Definition example_graph : Graph := {|
  g_nodes :=
    [ ("A", [("name", AStr "Ada"); ("entity_type", AStr "person")]);
      ("B", [("entity_type", AStr "ORG")]);
      ("C", []);
      ("D", [("label", AStr "Delta")]) ]%string;
  g_edges :=
    [ ("A", "B", [("relation", AStr "founded"); ("weight", AFloat 1)]);
      ("C", "D", [("weight", AFloat 1)]) ]%string
|}.

Definition example_centrality : dict R :=
  [ ("A", 0.3%R); ("B", 0.3%R); ("C", 0.2%R); ("D", 0.2%R) ]%string.

(** The graph file is there and loads; PageRank converges. *)
Definition example_env : Env := {|
  path_exists := Ok true;
  read_graphml := Ok example_graph;
  pagerank := fun _ => Ok example_centrality
|}.

(** The manager after construction ... *)
Definition example_loaded : GraphManager := {|
  settings := default_settings;
  graph := example_graph;
  label_index := [ ("ada", ["A"]); ("b", ["B"]); ("c", ["C"]); ("delta", ["D"]) ]%string;
  node_metadata :=
    [ ("A", {| meta_id := "A"; meta_label := "Ada";
               meta_type := AStr "person"; meta_description := AStr "" |});
      ("B", {| meta_id := "B"; meta_label := "B";
               meta_type := AStr "ORG"; meta_description := AStr "" |});
      ("C", {| meta_id := "C"; meta_label := "C";
               meta_type := AStr "ENTITY"; meta_description := AStr "" |});
      ("D", {| meta_id := "D"; meta_label := "Delta";
               meta_type := AStr "ENTITY"; meta_description := AStr "" |}) ]%string;
  entity_frequency := [];
  entity_last_seen := [];
  total_queries := 0;
  response_times := [];
  last_entities := [];
  last_query := None;
  last_response := None;
  _centrality := example_centrality
|}.

(** ... and after a first turn, at time 0, that mentions A. *)
Definition example_turn : GraphManager :=
  update_conversation_context example_runtime 0 example_loaded
    "who is Ada" "Ada founded B" ["A"%string] 1.5.

Definition example_clock : node -> R := fun _ => 0%R.

(** A missing graph file. *)
Definition missing_env : Env := {|
  path_exists := Ok false;
  read_graphml := Raise OSError;
  pagerank := fun _ => Raise PowerIterationFailedConvergence
|}.

(** A graph path that cannot be examined: its name is longer than the file
    system allows, or it lies under a directory that the process may not
    search. *)
Definition unsearchable_env : Env := {|
  path_exists := Raise OSError;
  read_graphml := Raise OSError;
  pagerank := fun _ => Ok example_centrality
|}.

Lemma example_runtime_ok : runtime_ok example_runtime.
Proof. intros s. apply Permutation_refl. Qed.

Lemma example_loaded_init :
  init example_runtime example_env default_settings = Ok example_loaded.
Proof. reflexivity. Qed.

Lemma example_loaded_reachable : reachable example_runtime example_loaded.
Proof. apply reach_init with example_env default_settings. reflexivity. Qed.

Lemma example_turn_reachable : reachable example_runtime example_turn.
Proof.
  apply reach_call
    with (c := CallUpdate 0 "who is Ada" "Ada founded B" ["A"%string] 1.5)
         (self := example_loaded) (v := VNone).
  - exact example_loaded_reachable.
  - reflexivity.
Qed.

Lemma example_graph_wf : graph_wf (graph example_loaded).
Proof. reflexivity. Qed.

(** ** The model at work *)

Example int_or_zero : int_or (Some 0%Z) 100 = 100%Z.
Proof. reflexivity. Qed.

Example slice_to_negative : slice_to (-1) [1; 2; 3]%nat = [1; 2]%nat.
Proof. reflexivity. Qed.

Example shortest_path_edge :
  shortest_path example_graph "A" "B" = Ok ["A"; "B"]%string.
Proof. reflexivity. Qed.

Example shortest_path_apart :
  shortest_path example_graph "A" "C" = Raise NetworkXNoPath.
Proof. reflexivity. Qed.

Example shortest_path_stranger :
  shortest_path example_graph "A" "Z" = Raise NodeNotFound.
Proof. reflexivity. Qed.

Example connected_components_example :
  connected_components example_graph = Ok [["A"; "B"]; ["C"; "D"]]%string.
Proof. reflexivity. Qed.

Example ego_graph_radius_one :
  match ego_graph example_runtime example_graph "A" 1 with
  | Ok ego => nodes ego
  | Raise _ => []
  end = ["A"; "B"]%string.
Proof. reflexivity. Qed.

Example ego_graph_radius_zero :
  match ego_graph example_runtime example_graph "A" 0 with
  | Ok ego => nodes ego
  | Raise _ => []
  end = ["A"%string].
Proof. reflexivity. Qed.

(** A ring of five nodes with a chord: the search takes the chord. *)
Definition ring_graph : Graph := {|
  g_nodes := [ ("a", []); ("b", []); ("c", []); ("d", []); ("e", []) ]%string;
  g_edges := [ ("a", "b", []); ("b", "c", []); ("c", "d", []); ("d", "e", []);
               ("e", "a", []); ("b", "e", []) ]%string
|}.

Example shortest_path_ring :
  shortest_path ring_graph "c" "e" = Ok ["c"; "b"; "e"]%string.
Proof. reflexivity. Qed.

Example shortest_path_length_ring :
  shortest_path_length ring_graph "a" "d" = Ok 2%nat.
Proof. reflexivity. Qed.

Example missing_file_gives_empty_manager :
  init example_runtime missing_env default_settings =
  Ok (mkManager default_settings empty_graph [] [] [] [] 0 [] [] None None []).
Proof. reflexivity. Qed.

(** A decay rate above 1, which the settings accept, and the manager after
    one turn that mentions Ada. *)
Definition growing_settings : Settings := {|
  MAX_GRAPH_NODES := 100;
  MAX_HOPS := 2;
  TEMPORAL_DECAY_RATE := 3;
  ENTITY_FREQUENCY_WEIGHT := 0.3;
  RECENCY_WEIGHT := 0.2;
  CENTRALITY_WEIGHT := 0.3;
  FOCAL_WEIGHT := 0.2
|}.

Definition growing_turn : GraphManager :=
  update_conversation_context example_runtime 0
    (mkManager growing_settings example_graph (label_index example_loaded)
       (node_metadata example_loaded) [] [] 0 [] [] None None example_centrality)
    "who is Ada" "Ada founded B" ["A"%string] 1.5.

Lemma growing_turn_reachable : reachable example_runtime growing_turn.
Proof.
  apply reach_call
    with (c := CallUpdate 0 "who is Ada" "Ada founded B" ["A"%string] 1.5)
         (self := mkManager growing_settings example_graph
                    (label_index example_loaded) (node_metadata example_loaded)
                    [] [] 0 [] [] None None example_centrality)
         (v := VNone).
  - apply reach_init with example_env growing_settings. reflexivity.
  - reflexivity.
Qed.

(** With that rate the score of Ada a thousand hours after the mention is
    beyond every float: the call raises. *)
Example old_mention_overflows :
  _recency_score_call 3600000 growing_turn "A" = Raise OverflowError.
Proof.
  assert (Hts : dict_get "A" (entity_last_seen growing_turn) = Some 0%R)
    by reflexivity.
  unfold _recency_score_call. rewrite Hts. cbv zeta. unfold math_exp.
  match goal with
  | |- context [Rlt_dec ?a ?b] => destruct (Rlt_dec a b) as [_ | Hn]
  end; [reflexivity|].
  exfalso. apply Hn.
  change (TEMPORAL_DECAY_RATE (settings growing_turn)) with 3%R.
  rewrite (Rmax_left 3 1e-6) by lra.
  rewrite (Rmax_left ((3600000 - 0) / 3600.0) 0.0) by lra.
  assert (Hln : (1 <= ln 3)%R).
  { apply Rle_trans with (ln (exp 1)); [rewrite ln_exp; lra|].
    destruct exp_le_3 as [H | H].
    - left. apply ln_increasing; [apply exp_pos | exact H].
    - rewrite H. lra. }
  unfold MATH_EXP_MAX. lra.
Qed.

Example first_turn_frequency :
  entity_frequency example_turn = [("A"%string, (0 + 1.0)%R)].
Proof. reflexivity. Qed.

Example first_turn_last_seen :
  entity_last_seen example_turn = [("A"%string, 0%R)].
Proof. reflexivity. Qed.

(** ** The statements at the examples *)







Lemma decay_strictly_decreases_witness :
  (dict_get_default "A" 0 (entity_frequency (apply_temporal_decay example_turn))
   < 0 + 1.0)%R.
Proof.
  refine (proj1 (decay_strictly_decreases example_runtime example_runtime_ok
                   example_turn "A" (0 + 1.0)%R example_turn_reachable _ _)).
  - simpl. lra.
  - reflexivity.
Defined.


Lemma frequency_floor_invariant_witness :
  reachable example_runtime example_turn
  /\ (1e-4 <= 0 + 1.0)%R /\ (0 < 0 + 1.0)%R.
Proof.
  split; [exact example_turn_reachable|].
  refine (proj1 (frequency_floor_invariant example_runtime example_turn
                   example_turn_reachable) "A"%string (0 + 1.0)%R _).
  reflexivity.
Defined.

(** ** Counterexamples *)

(** C9.  [reload_graph] does raise to its caller.  The test
    [self.graph_path.exists()] stands outside the [try]: at a graph path
    that cannot be examined the test raises [OSError], and so do
    [reload_graph] and the constructor, and no empty snapshot is put in
    place.  In general the call raises exactly when the test does, and then
    what the test raised; when the test answers, the call returns for every
    outcome of the read and of the centrality computation, and a file that
    is missing or cannot be read leaves the empty graph with an empty label
    index, no metadata and an empty centrality map. *)
Theorem reload_graph_raises_what_exists_raises :
  reload_graph example_runtime unsearchable_env example_loaded = Raise OSError
  /\ init example_runtime unsearchable_env default_settings = Raise OSError
  /\ forall rt env self,
       match path_exists env with
       | Raise e => reload_graph rt env self = Raise e
       | Ok there =>
           exists self',
             reload_graph rt env self = Ok self'
             /\ (there = false \/ (exists e, read_graphml env = Raise e) ->
                 graph self' = empty_graph
                 /\ label_index self' = []
                 /\ node_metadata self' = []
                 /\ _centrality self' = [])
       end.
Proof.
  split; [reflexivity|]. split; [reflexivity|].
  intros rt env self. apply reload_graph_cases.
Qed.







(** * Further properties

    The rest of the file covers more of the code: the label index and the
    matching of labels against it, distances in the graph, what the builder
    selects, scoring, the conversation context, the statistics, the payload
    of the export and reloading ([core/graph_manager.py]); the endpoints
    that drive the manager ([api/routes.py], [api/websocket.py]); and two
    helpers of the ingestion ([utils/helpers.py]). *)

(** ** Label matching *)

(** [needle in hay] on strings. *)
Fixpoint str_contains (needle hay : string) : bool :=
  String.prefix needle hay
  || match hay with
     | EmptyString => false
     | String _ hay' => str_contains needle hay'
     end.

Section Matching.

Variable rt : PyRuntime.

(** One round of the loop of [extract_entities]. *)
Definition match_label (lowered : string) (matches : pyset) (item : string * pyset)
  : pyset :=
  let '(label_lower, node_ids) := item in
  if str_contains label_lower lowered
  then set_update matches (set_iter rt node_ids)
  else matches.

Definition extract_entities (self : GraphManager) (text : string) : pyset :=
  let lowered := str_lower rt text in
  fold_left (match_label lowered) (label_index self) [].

(** One round of the loop of [resolve_labels_to_nodes]. *)
Definition resolve_label_to_nodes (self : GraphManager) (nodes : pyset)
  (label : string) : pyset :=
  if String.eqb label "" then nodes
  else set_update nodes
         (set_iter rt (dict_get_default (str_lower rt label) [] (label_index self))).

Definition resolve_labels_to_nodes (self : GraphManager) (labels : list string)
  : pyset :=
  fold_left (resolve_label_to_nodes self) labels [].

(** The label index and the metadata are those of the graph held. *)
Definition indices_in_sync (self : GraphManager) : Prop :=
  (label_index self, node_metadata self) =
  fold_left (index_node rt) (g_nodes (graph self)) ([], []).

(** The lower-cased display label of a node with the given data. *)
Definition label_key (node_id : node) (data : dict attr) : string :=
  str_lower rt (_resolve_label rt node_id data).

Hypothesis rt_ok : runtime_ok rt.

Lemma prefix_append : forall a b,
  String.prefix a b = true <-> exists post, b = (a ++ post)%string.
Proof.
  induction a as [|x a IH]; intros b; simpl.
  - split; [intros _; now exists b | intros _; now destruct b].
  - destruct b as [|y b]; simpl.
    + split; [discriminate | intros [post H]; discriminate].
    + destruct (ascii_dec x y) as [->|Hne].
      * rewrite IH. split; intros [post H]; exists post; [now rewrite H|].
        now injection H.
      * split; [discriminate|]. intros [post H]. injection H as H _. congruence.
Qed.

Lemma str_contains_spec : forall needle hay,
  str_contains needle hay = true <->
  exists pre post, hay = (pre ++ needle ++ post)%string.
Proof.
  intros needle hay. induction hay as [|c hay IH]; cbn [str_contains].
  - rewrite orb_false_r, prefix_append. split.
    + intros [post H]. now exists EmptyString, post.
    + intros [pre [post H]]. destruct pre; [now exists post | discriminate].
  - rewrite orb_true_iff, IH, prefix_append. split.
    + intros [[post H] | [pre [post H]]].
      * now exists EmptyString, post.
      * exists (String c pre), post. simpl. now rewrite H.
    + intros [pre [post H]]. destruct pre as [|c' pre]; simpl in H.
      * left. now exists post.
      * right. injection H as _ H. now exists pre, post.
Qed.

(** [v] is listed under [key] in the index. *)
Definition indexed (index : dict pyset) (key : string) (v : node) : Prop :=
  exists bucket, dict_get key index = Some bucket /\ In v bucket.

(** The metadata entry that [_build_indices] writes for a node. *)
Definition metadata_of (node_id : node) (data : dict attr) : NodeMeta :=
  {| meta_id := node_id;
     meta_label := _resolve_label rt node_id data;
     meta_type := first_truthy ["entity_type"; "type"]%string data (AStr "ENTITY");
     meta_description :=
       first_truthy ["description"; "summary"]%string data (AStr "") |}.

Lemma index_node_eq : forall index metadata node_id data,
  index_node rt (index, metadata) (node_id, data) =
  (dict_set (label_key node_id data)
     (set_add node_id (dict_get_default (label_key node_id data) [] index))
     (snd (defaultdict_getitem [] (label_key node_id data) index)),
   dict_set node_id (metadata_of node_id data) metadata).
Proof.
  intros index metadata node_id data. unfold index_node, label_key.
  unfold defaultdict_getitem, dict_get_default, pyset in *.
  destruct (dict_get (str_lower rt (_resolve_label rt node_id data)) index);
    reflexivity.
Qed.

Lemma index_node_get : forall index metadata node_id data key,
  dict_get key (fst (index_node rt (index, metadata) (node_id, data))) =
  if string_dec (label_key node_id data) key
  then Some (set_add node_id (dict_get_default key [] index))
  else dict_get key index.
Proof.
  intros index metadata node_id data key. rewrite index_node_eq. simpl fst.
  destruct (string_dec (label_key node_id data) key) as [<- | Hne].
  - apply dict_get_set_same.
  - rewrite dict_get_set_other by assumption.
    unfold defaultdict_getitem, pyset in *.
    destruct (dict_get (label_key node_id data) index); simpl; [reflexivity|].
    now apply dict_get_set_other.
Qed.

Lemma index_node_indexed : forall index metadata node_id data key v,
  indexed (fst (index_node rt (index, metadata) (node_id, data))) key v <->
  indexed index key v \/ (key = label_key node_id data /\ v = node_id).
Proof.
  intros index metadata node_id data key v. unfold indexed.
  rewrite index_node_get.
  destruct (string_dec (label_key node_id data) key) as [<- | Hne].
  - unfold dict_get_default, pyset in *.
    destruct (dict_get (label_key node_id data) index) as [b|]; split.
    + intros [bucket [Hb Hv]]. injection Hb as <-. apply set_add_In in Hv.
      destruct Hv as [-> | Hv]; [now right | left; now exists b].
    + intros [[bucket [Hb Hv]] | [_ ->]].
      * injection Hb as <-. eexists. split; [reflexivity|].
        apply set_add_In. now right.
      * eexists. split; [reflexivity|]. apply set_add_In. now left.
    + intros [bucket [Hb Hv]]. injection Hb as <-. apply set_add_In in Hv.
      destruct Hv as [-> | []]. now right.
    + intros [[bucket [Hb Hv]] | [_ ->]]; [discriminate|].
      eexists. split; [reflexivity|]. apply set_add_In. now left.
  - split; [intros H; now left|]. intros [H | [H _]]; [exact H | congruence].
Qed.

Lemma index_node_keys_NoDup : forall index metadata nd,
  NoDup (dict_keys index) ->
  NoDup (dict_keys (fst (index_node rt (index, metadata) nd))).
Proof.
  intros index metadata [node_id data] H. rewrite index_node_eq. simpl fst.
  apply dict_set_keys_NoDup. unfold defaultdict_getitem, pyset in *.
  destruct (dict_get (label_key node_id data) index); simpl;
    [assumption | now apply dict_set_keys_NoDup].
Qed.

Lemma index_fold_indexed : forall ns acc key v,
  indexed (fst (fold_left (index_node rt) ns acc)) key v <->
  indexed (fst acc) key v
  \/ exists data, In (v, data) ns /\ key = label_key v data.
Proof.
  induction ns as [|[node_id data] ns IH]; intros [index metadata] key v;
    cbn [fold_left].
  - split; [now left | intros [H | [data [[] _]]]; exact H].
  - rewrite IH.
    destruct (index_node rt (index, metadata) (node_id, data)) as [i1 m1] eqn:E.
    pose proof (index_node_indexed index metadata node_id data key v) as Hs.
    rewrite E in Hs. simpl fst in *. rewrite Hs. split.
    + intros [[H | [-> ->]] | [d [Hd Hk]]].
      * now left.
      * right. exists data. split; [now left | reflexivity].
      * right. exists d. split; [now right | assumption].
    + intros [H | [d [[Hd | Hd] Hk]]].
      * left. now left.
      * injection Hd as -> ->. left. right. tauto.
      * right. exists d. tauto.
Qed.

Lemma index_fold_keys_NoDup : forall ns acc,
  NoDup (dict_keys (fst acc)) ->
  NoDup (dict_keys (fst (fold_left (index_node rt) ns acc))).
Proof.
  induction ns as [|nd ns IH]; intros [index metadata] H; cbn [fold_left].
  - exact H.
  - destruct (index_node rt (index, metadata) nd) as [i1 m1] eqn:E.
    apply IH. pose proof (index_node_keys_NoDup index metadata nd H) as Hn.
    now rewrite E in Hn.
Qed.

Lemma index_fold_metadata : forall ns acc v,
  dict_get v (snd (fold_left (index_node rt) ns acc)) =
  match find (fun nd : node * dict attr => String.eqb v (fst nd)) (rev ns) with
  | Some nd => Some (metadata_of v (snd nd))
  | None => dict_get v (snd acc)
  end.
Proof.
  induction ns as [|[node_id data] ns IH]; intros [index metadata] v;
    cbn [fold_left].
  - reflexivity.
  - rewrite IH. simpl rev.
    assert (Hfind : forall (l1 l2 : list (node * dict attr)) f,
              find f (l1 ++ l2) =
              match find f l1 with Some x => Some x | None => find f l2 end).
    { clear. induction l1 as [|x l1 IHl]; intros l2 f; simpl; [reflexivity|].
      destruct (f x); [reflexivity | apply IHl]. }
    rewrite Hfind.
    destruct (find (fun nd : node * dict attr => String.eqb v (fst nd)) (rev ns));
      [reflexivity|].
    rewrite index_node_eq. simpl snd. simpl find.
    destruct (String.eqb v node_id) eqn:Ev.
    + apply String.eqb_eq in Ev. subst. apply dict_get_set_same.
    + apply dict_get_set_other. intros ->. now rewrite String.eqb_refl in Ev.
Qed.

Lemma apply_temporal_decay_keeps : forall self,
  graph (apply_temporal_decay self) = graph self
  /\ label_index (apply_temporal_decay self) = label_index self
  /\ node_metadata (apply_temporal_decay self) = node_metadata self
  /\ settings (apply_temporal_decay self) = settings self
  /\ entity_last_seen (apply_temporal_decay self) = entity_last_seen self
  /\ total_queries (apply_temporal_decay self) = total_queries self
  /\ response_times (apply_temporal_decay self) = response_times self
  /\ _centrality (apply_temporal_decay self) = _centrality self.
Proof.
  intros self. unfold apply_temporal_decay.
  destruct (entity_frequency self); repeat split.
Qed.

Lemma update_conversation_context_keeps :
  forall now self query response entities response_time,
  let self' := update_conversation_context rt now self query response entities
                 response_time in
  graph self' = graph self
  /\ label_index self' = label_index self
  /\ node_metadata self' = node_metadata self
  /\ settings self' = settings self
  /\ _centrality self' = _centrality self
  /\ total_queries self' = (total_queries self + 1)%Z
  /\ response_times self' = response_times self ++ [response_time]
  /\ last_entities self' = set_of_list entities.
Proof.
  intros now self query response entities response_time.
  unfold update_conversation_context.
  destruct (fold_left (mention now) (set_iter rt (set_of_list entities))
              (entity_frequency (apply_temporal_decay self),
               entity_last_seen (apply_temporal_decay self))) as [freq seen].
  destruct (apply_temporal_decay_keeps self)
    as [H1 [H2 [H3 [H4 [H5 [H6 [H7 H8]]]]]]].
  simpl. rewrite H1, H2, H3, H4, H6, H7, H8. repeat split.
Qed.

Lemma _build_indices_in_sync : forall self, indices_in_sync (_build_indices rt self).
Proof.
  intros self. unfold indices_in_sync, _build_indices.
  destruct (fold_left (index_node rt) (g_nodes (graph self)) ([], []))
    as [index metadata] eqn:E.
  simpl. now rewrite E.
Qed.

Lemma reload_graph_in_sync : forall env self self',
  reload_graph rt env self = Ok self' -> indices_in_sync self'.
Proof.
  intros env self self' H.
  destruct (reload_graph_Ok rt env self self' H) as [there [G [c [_ [_ [_ ->]]]]]].
  pose proof (_build_indices_in_sync (with_graph self G)) as Hs.
  unfold indices_in_sync in *. exact Hs.
Qed.

Lemma run_in_sync : forall c self self' v,
  run rt c self = Ok (self', v) -> indices_in_sync self -> indices_in_sync self'.
Proof.
  intros c self self' v H Hs.
  destruct (read_only c) eqn:Hro.
  - apply (run_read_only rt c self self' v Hro) in H. now subst.
  - destruct c; simpl in Hro; try discriminate; simpl in H.
    + destruct (reload_graph rt env self) as [s|e] eqn:E; simpl in H; [|discriminate].
      injection H as <- _. now apply reload_graph_in_sync with env self.
    + injection H as <- _. unfold indices_in_sync in *.
      destruct (apply_temporal_decay_keeps self) as [H1 [H2 [H3 _]]].
      now rewrite H1, H2, H3.
    + injection H as <- _. unfold indices_in_sync in *.
      destruct (update_conversation_context_keeps now self query response entities
                  response_time) as [H1 [H2 [H3 _]]].
      now rewrite H1, H2, H3.
Qed.

Lemma reachable_in_sync : forall self, reachable rt self -> indices_in_sync self.
Proof.
  intros self H. induction H as [env s self Hinit | c self self' v Hr IH Hrun].
  - unfold init in Hinit. now apply reload_graph_in_sync in Hinit.
  - now apply run_in_sync with c self v.
Qed.

Lemma find_by_key : forall (l : list (node * dict attr)) v data,
  NoDup (dict_keys l) -> In (v, data) l ->
  find (fun nd : node * dict attr => String.eqb v (fst nd)) l = Some (v, data).
Proof.
  induction l as [|[k d] l IH]; intros v data Hnd Hin; simpl in *; [contradiction|].
  inversion Hnd as [|? ? Hn Hd]; subst.
  destruct Hin as [Heq | Hin].
  - injection Heq as -> ->. now rewrite String.eqb_refl.
  - destruct (String.eqb v k) eqn:E; [|now apply IH].
    apply String.eqb_eq in E. subst. exfalso. apply Hn.
    unfold dict_keys. apply in_map_iff. now exists (k, data).
Qed.

Lemma find_key_None : forall (l : list (node * dict attr)) v,
  find (fun nd : node * dict attr => String.eqb v (fst nd)) l = None <->
  ~ In v (dict_keys l).
Proof.
  induction l as [|[k d] l IH]; intros v; simpl; [tauto|].
  destruct (String.eqb v k) eqn:E.
  - apply String.eqb_eq in E. subst. split; [discriminate | tauto].
  - rewrite IH. split; [|tauto]. intros H [Hk | Hin]; [|tauto].
    subst. now rewrite String.eqb_refl in E.
Qed.

Lemma reachable_indexed : forall self,
  reachable rt self ->
  forall key v,
    indexed (label_index self) key v <->
    exists data, In (v, data) (g_nodes (graph self)) /\ key = label_key v data.
Proof.
  intros self Hr key v. pose proof (reachable_in_sync self Hr) as Hs.
  unfold indices_in_sync in Hs.
  replace (label_index self)
    with (fst (fold_left (index_node rt) (g_nodes (graph self)) ([], [])))
    by now rewrite <- Hs.
  rewrite index_fold_indexed. simpl fst. split; [|now right].
  intros [[bucket [Hb _]] | H]; [discriminate | exact H].
Qed.

(** X1.  In every manager the process can hold, the label index and the
    metadata are those of the graph held: a node is listed under a key
    exactly when the key is its lower-cased display label, the nodes with a
    metadata entry are the nodes of the graph, and, node ids being unique,
    the entry is the one computed from the node's data and the node is
    listed under one key only. *)
Theorem indices_follow_graph : forall self,
  reachable rt self ->
  (forall key v,
     indexed (label_index self) key v <->
     exists data, In (v, data) (g_nodes (graph self)) /\ key = label_key v data)
  /\ (forall v, (exists m, dict_get v (node_metadata self) = Some m) <->
                In v (nodes (graph self)))
  /\ (graph_wf (graph self) ->
      forall v data, In (v, data) (g_nodes (graph self)) ->
        dict_get v (node_metadata self) = Some (metadata_of v data)
        /\ forall key, indexed (label_index self) key v <-> key = label_key v data).
Proof.
  intros self Hr. pose proof (reachable_in_sync self Hr) as Hs.
  unfold indices_in_sync in Hs.
  assert (Hm : node_metadata self
               = snd (fold_left (index_node rt) (g_nodes (graph self)) ([], [])))
    by now rewrite <- Hs.
  pose proof (reachable_indexed self Hr) as Hidx.
  split; [exact Hidx|]. split.
  - intros v. rewrite Hm, index_fold_metadata. simpl snd.
    destruct (find (fun nd : node * dict attr => String.eqb v (fst nd))
                   (rev (g_nodes (graph self)))) as [nd|] eqn:Ef.
    + split; [intros _ | intros _; eexists; reflexivity].
      apply find_some in Ef. destruct Ef as [Hin Heq].
      apply String.eqb_eq in Heq. subst v. apply in_rev in Hin.
      unfold nodes, dict_keys. now apply in_map.
    + split; [intros [m Hmm]; discriminate|]. intros Hin. exfalso.
      apply find_key_None in Ef. apply Ef. unfold nodes, dict_keys in *.
      rewrite map_rev. now apply in_rev in Hin.
  - intros Hwf v data Hin. split.
    + rewrite Hm, index_fold_metadata.
      rewrite (find_by_key (rev (g_nodes (graph self))) v data).
      * reflexivity.
      * unfold dict_keys. rewrite map_rev. apply NoDup_rev.
        now apply graph_wf_NoDup.
      * now apply in_rev in Hin.
    + intros key. rewrite Hidx. split.
      * intros [d [Hd ->]].
        pose proof (find_by_key _ v data (graph_wf_NoDup _ Hwf) Hin) as F1.
        pose proof (find_by_key _ v d (graph_wf_NoDup _ Hwf) Hd) as F2.
        rewrite F1 in F2. now injection F2 as <-.
      * intros ->. now exists data.
Qed.

Lemma dict_In_get : forall (V : Type) (d : dict V) k v,
  NoDup (dict_keys d) -> (In (k, v) d <-> dict_get k d = Some v).
Proof.
  intros V d k v. induction d as [|[k' v'] d IH]; intros Hnd; simpl.
  - split; [contradiction | discriminate].
  - inversion Hnd as [|? ? Hn Hd]; subst. destruct (String.eqb k k') eqn:E.
    + apply String.eqb_eq in E. subst k'. split.
      * intros [H | H]; [now injection H as -> | ].
        exfalso. apply Hn. unfold dict_keys. apply in_map_iff. now exists (k, v).
      * intros H. injection H as ->. now left.
    + rewrite <- (IH Hd). split; [|tauto]. intros [H | H]; [|assumption].
      injection H as -> _. now rewrite String.eqb_refl in E.
Qed.

Lemma match_label_fold : forall lowered items matches v,
  In v (fold_left (match_label lowered) items matches) <->
  In v matches
  \/ exists key bucket, In (key, bucket) items
                        /\ str_contains key lowered = true /\ In v bucket.
Proof.
  intros lowered items. induction items as [|[key bucket] items IH];
    intros matches v; cbn [fold_left].
  - split; [now left | intros [H | [k [b [[] _]]]]; exact H].
  - rewrite IH. unfold match_label.
    destruct (str_contains key lowered) eqn:E.
    + rewrite set_update_In, set_iter_In by exact rt_ok. split.
      * intros [[H | H] | [k [b [H1 H2]]]].
        -- now left.
        -- right. exists key, bucket. split; [now left | tauto].
        -- right. exists k, b. split; [now right | tauto].
      * intros [H | [k [b [[H1 | H1] [H2 H3]]]]].
        -- left. now left.
        -- injection H1 as -> ->. left. now right.
        -- right. exists k, b. tauto.
    + split.
      * intros [H | [k [b [H1 H2]]]]; [now left|].
        right. exists k, b. split; [now right | tauto].
      * intros [H | [k [b [[H1 | H1] [H2 H3]]]]]; [now left | |].
        -- injection H1 as -> ->. congruence.
        -- right. exists k, b. tauto.
Qed.

Lemma match_label_fold_NoDup : forall lowered items matches,
  NoDup matches -> NoDup (fold_left (match_label lowered) items matches).
Proof.
  intros lowered items. induction items as [|[key bucket] items IH];
    intros matches H; cbn [fold_left]; [exact H|].
  apply IH. unfold match_label. destruct (str_contains key lowered); [|exact H].
  now apply set_update_NoDup.
Qed.

Lemma reachable_index_NoDup : forall self,
  reachable rt self -> NoDup (dict_keys (label_index self)).
Proof.
  intros self Hr. pose proof (reachable_in_sync self Hr) as Hs.
  unfold indices_in_sync in Hs.
  replace (label_index self)
    with (fst (fold_left (index_node rt) (g_nodes (graph self)) ([], [])))
    by now rewrite <- Hs.
  apply index_fold_keys_NoDup. constructor.
Qed.

Lemma extract_entities_In : forall self text v,
  reachable rt self ->
  (In v (extract_entities self text) <->
   exists data, In (v, data) (g_nodes (graph self))
                /\ str_contains (label_key v data) (str_lower rt text) = true).
Proof.
  intros self text v Hr.
  pose proof (reachable_indexed self Hr) as Hidx.
  pose proof (reachable_index_NoDup self Hr) as Hnd.
  unfold extract_entities. rewrite match_label_fold. split.
  - intros [[] | [key [bucket [Hin [Hc Hv]]]]].
    apply (dict_In_get _ _ key bucket Hnd) in Hin.
    destruct (proj1 (Hidx key v)) as [data [Hd ->]]; [now exists bucket|].
    now exists data.
  - intros [data [Hd Hc]]. right.
    destruct (proj2 (Hidx (label_key v data) v)) as [bucket [Hb Hv]];
      [now exists data|].
    exists (label_key v data), bucket.
    split; [now apply (dict_In_get _ _ _ _ Hnd) | tauto].
Qed.

(** X2.  In every manager the process can hold, [extract_entities] returns,
    each once, exactly the nodes of the graph whose lower-cased display
    label occurs in the lower-cased text. *)
Theorem extract_entities_spec : forall self text,
  reachable rt self ->
  NoDup (extract_entities self text)
  /\ (forall v,
        In v (extract_entities self text) <->
        exists data, In (v, data) (g_nodes (graph self))
                     /\ str_contains (label_key v data) (str_lower rt text) = true)
  /\ (forall v, In v (extract_entities self text) -> In v (nodes (graph self))).
Proof.
  intros self text Hr.
  split; [apply match_label_fold_NoDup; constructor|].
  split; [intros v; now apply extract_entities_In|].
  intros v Hv. apply extract_entities_In in Hv; [|exact Hr].
  destruct Hv as [data [Hd _]].
  unfold nodes, dict_keys. apply in_map_iff. now exists (v, data).
Qed.

Lemma resolve_fold : forall self labels acc v,
  In v (fold_left (resolve_label_to_nodes self) labels acc) <->
  In v acc
  \/ exists label, In label labels /\ label <> EmptyString
                   /\ indexed (label_index self) (str_lower rt label) v.
Proof.
  intros self labels. induction labels as [|l labels IH]; intros acc v;
    cbn [fold_left].
  - split; [now left | intros [H | [l [[] _]]]; exact H].
  - rewrite IH. unfold resolve_label_to_nodes.
    destruct (String.eqb l "") eqn:E.
    + apply String.eqb_eq in E. subst l. split.
      * intros [H | [l [H1 H2]]]; [now left|]. right. exists l.
        split; [now right | tauto].
      * intros [H | [l [[<- | H1] [H2 H3]]]]; [now left | congruence |].
        right. exists l. tauto.
    + assert (Hne : l <> EmptyString)
        by (intros ->; discriminate).
      rewrite set_update_In, set_iter_In by exact rt_ok.
      assert (Hb : In v (dict_get_default (str_lower rt l) [] (label_index self))
                   <-> indexed (label_index self) (str_lower rt l) v).
      { unfold indexed, dict_get_default.
        match goal with
        | |- context [match ?x with _ => _ end] => destruct x as [b|] eqn:Eg
        end.
        - split; [intros H; exists b; split; [exact Eg | exact H]|].
          intros [b' [H1 H2]].
          pose proof (eq_trans (eq_sym Eg) H1) as Hbb.
          now injection Hbb as ->.
        - split; [contradiction|]. intros [b' [H1 _]].
          pose proof (eq_trans (eq_sym Eg) H1) as Hbb.
          discriminate. }
      rewrite Hb. split.
      * intros [[H | H] | [l' [H1 H2]]].
        -- now left.
        -- right. exists l. split; [now left | tauto].
        -- right. exists l'. split; [now right | tauto].
      * intros [H | [l' [[<- | H1] [H2 H3]]]].
        -- left. now left.
        -- left. now right.
        -- right. exists l'. tauto.
Qed.

Lemma resolve_labels_to_nodes_In : forall self labels v,
  reachable rt self ->
  (In v (resolve_labels_to_nodes self labels) <->
   exists label data,
     In label labels /\ label <> EmptyString
     /\ In (v, data) (g_nodes (graph self))
     /\ label_key v data = str_lower rt label).
Proof.
  intros self labels v Hr.
  pose proof (reachable_indexed self Hr) as Hidx.
  unfold resolve_labels_to_nodes. rewrite resolve_fold. split.
  - intros [[] | [label [H1 [H2 H3]]]]. apply Hidx in H3.
    destruct H3 as [data [Hd Hk]]. exists label, data. now rewrite Hk.
  - intros [label [data [H1 [H2 [H3 H4]]]]]. right. exists label.
    split; [assumption|]. split; [assumption|]. apply Hidx. exists data.
    now rewrite H4.
Qed.

(** X3.  In every manager the process can hold, [resolve_labels_to_nodes]
    returns exactly the nodes of the graph whose lower-cased display label
    equals the lower-cased form of one of the non-empty labels given; an
    empty label selects nothing. *)
Theorem resolve_labels_to_nodes_spec : forall self labels,
  reachable rt self ->
  (forall v,
     In v (resolve_labels_to_nodes self labels) <->
     exists label data,
       In label labels /\ label <> EmptyString
       /\ In (v, data) (g_nodes (graph self))
       /\ label_key v data = str_lower rt label)
  /\ (forall v, In v (resolve_labels_to_nodes self labels) ->
                In v (nodes (graph self))).
Proof.
  intros self labels Hr.
  split; [intros v; now apply resolve_labels_to_nodes_In|].
  intros v Hv. apply resolve_labels_to_nodes_In in Hv; [|exact Hr].
  destruct Hv as [label [data [_ [_ [Hd _]]]]].
  unfold nodes, dict_keys. apply in_map_iff. now exists (v, data).
Qed.

Lemma str_contains_refl : forall s, str_contains s s = true.
Proof.
  intros s. apply str_contains_spec. exists EmptyString, EmptyString.
  simpl. clear. induction s as [|c s IH]; simpl; [reflexivity | now rewrite <- IH].
Qed.

(** X4.  A node is found by its own display label: [extract_entities] run
    on the label returns the node, and so does [resolve_labels_to_nodes]
    when the label is not empty. *)
Theorem node_found_by_its_label : forall self v data,
  reachable rt self ->
  In (v, data) (g_nodes (graph self)) ->
  In v (extract_entities self (_resolve_label rt v data))
  /\ (_resolve_label rt v data <> EmptyString ->
      In v (resolve_labels_to_nodes self [_resolve_label rt v data])).
Proof.
  intros self v data Hr Hin. split.
  - apply (extract_entities_In self _ v Hr). exists data. split; [assumption|].
    apply str_contains_refl.
  - intros Hne. apply (resolve_labels_to_nodes_In self _ v Hr).
    exists (_resolve_label rt v data), data.
    repeat split; try assumption. now left.
Qed.

End Matching.

(** ** Distances *)



Lemma rpath_within : forall G src v p,
  rpath G src (v :: p) -> within G src (List.length p) v.
Proof.
  intros G src v p. revert v. induction p as [|u p IH]; intros v H.
  - inversion H; subst. constructor.
  - inversion H; subst. simpl. apply within_step with u; [now apply IH | assumption].
Qed.

Lemma shortest_path_shape : forall G src dst r,
  shortest_path G src dst = Ok r ->
  In src (nodes G) /\ In dst (nodes G)
  /\ exists p, r = rev (dst :: p) /\ rpath G src (dst :: p).
Proof.
  intros G src dst r H. unfold shortest_path in H.
  destruct (has_node G src) eqn:Es; [|discriminate].
  destruct (has_node G dst) eqn:Ed; [|discriminate]. simpl in H.
  apply has_node_In in Es, Ed.
  destruct (bfs_paths G (number_of_nodes G) [src] [[src]] dst) as [r'|] eqn:E;
    [|discriminate].
  injection H as <-. apply bfs_paths_sound with (src := src) in E.
  - destruct E as [p [-> [Hp He]]]. destruct p as [|v p]; [discriminate|].
    simpl in He. apply String.eqb_eq in He. subst v.
    split; [assumption|]. split; [assumption|]. now exists p.
  - intros p [<- | []]. constructor.
Qed.

(** X5.  [_shortest_path_length_safe] computes the distance in the graph:
    when it returns a number [d], both nodes are in the graph, a walk of
    [d] edges joins them and no walk has fewer; it returns infinity exactly
    when a node is missing or no walk joins them. *)
Theorem _shortest_path_length_safe_is_distance : forall self src dst,
  graph_wf (graph self) ->
  match _shortest_path_length_safe self src dst with
  | Some d =>
      In src (nodes (graph self)) /\ In dst (nodes (graph self))
      /\ within (graph self) src d dst
      /\ forall k, within (graph self) src k dst -> (d <= k)%nat
  | None =>
      ~ (In src (nodes (graph self)) /\ In dst (nodes (graph self))
         /\ connected (graph self) src dst)
  end.
Proof.
  intros self src dst Hwf. unfold _shortest_path_length_safe, shortest_path_length.
  destruct (shortest_path (graph self) src dst) as [r|e] eqn:E; simpl.
  - destruct (shortest_path_shape _ _ _ _ E) as [Hs [Hd [p [-> Hp]]]].
    split; [assumption|]. split; [assumption|].
    rewrite length_rev. simpl. rewrite Nat.sub_0_r.
    split; [now apply rpath_within|].
    intros k Hk.
    destruct (shortest_path_complete _ _ _ k Hwf Hs Hd Hk) as [r' [Hr Hl]].
    rewrite E in Hr. injection Hr as Hr. subst r'.
    simpl in Hl. rewrite length_app, length_rev in Hl. simpl in Hl. lia.
  - intros [Hs [Hd Hc]].
    destruct (shortest_path_raises _ _ _ _ Hwf E) as [[_ [H | H]] | [_ H]];
      contradiction.
Qed.

(** X6.  [_shortest_path_safe] returns a shortest walk: when both nodes are
    in the graph and joined, the list starts at [src], ends at [dst], steps
    along edges only and has no more edges than any walk between the two;
    otherwise the list is [[src]] alone. *)
Theorem _shortest_path_safe_is_shortest : forall self src dst,
  graph_wf (graph self) ->
  (In src (nodes (graph self)) /\ In dst (nodes (graph self))
   /\ connected (graph self) src dst ->
   exists p,
     _shortest_path_safe self src dst = rev (dst :: p)
     /\ rpath (graph self) src (dst :: p)
     /\ forall k, within (graph self) src k dst -> (List.length p <= k)%nat)
  /\ (~ (In src (nodes (graph self)) /\ In dst (nodes (graph self))
         /\ connected (graph self) src dst) ->
      _shortest_path_safe self src dst = [src]).
Proof.
  intros self src dst Hwf. unfold _shortest_path_safe.
  destruct (shortest_path (graph self) src dst) as [r|e] eqn:E.
  - destruct (shortest_path_shape _ _ _ _ E) as [Hs [Hd [p [-> Hp]]]]. split.
    + intros _. exists p. split; [reflexivity|]. split; [assumption|].
      intros k Hk.
      destruct (shortest_path_complete _ _ _ k Hwf Hs Hd Hk) as [r' [Hr Hl]].
      rewrite E in Hr. injection Hr as Hr. subst r'.
      simpl in Hl. rewrite length_app, length_rev in Hl. simpl in Hl. lia.
    + intros Hn. exfalso. apply Hn. split; [assumption|]. split; [assumption|].
      apply within_connected with (List.length p). now apply rpath_within.
  - split; [|reflexivity]. intros [Hs [Hd Hc]]. exfalso.
    destruct (shortest_path_raises _ _ _ _ Hwf E) as [[_ [H | H]] | [_ H]];
      contradiction.
Qed.

(** ** What the connectivity repair does, and what the builder selects *)









Lemma set_update_fresh : forall xs s, NoDup (s ++ xs) -> set_update s xs = s ++ xs.
Proof.
  induction xs as [|x xs IH]; intros s H; simpl.
  - now rewrite app_nil_r.
  - assert (Hx : ~ In x s).
    { apply NoDup_remove_2 in H. intros Hin. apply H, in_or_app. now left. }
    unfold set_add. rewrite (proj2 (set_mem_not_In x s) Hx).
    change (fold_left (fun acc x0 => set_add x0 acc) xs (s ++ [x]))
      with (set_update (s ++ [x]) xs).
    rewrite IH; rewrite <- app_assoc; [reflexivity | exact H].
Qed.


Section Repair.

Variable rt : PyRuntime.
Hypothesis rt_ok : runtime_ok rt.










End Repair.

(** ** Recency and importance *)

Section Scoring.

Local Open Scope R_scope.

(** The logarithm of the clamped decay rate is not positive when the rate
    is at most 1. *)
Lemma ln_decay_rate : forall self,
  TEMPORAL_DECAY_RATE (settings self) <= 1 ->
  ln (Rmax (TEMPORAL_DECAY_RATE (settings self)) 1e-6) <= 0.
Proof.
  intros self Hrate.
  set (rate := Rmax (TEMPORAL_DECAY_RATE (settings self)) 1e-6).
  assert (Hr0 : 0 < rate).
  { unfold rate. apply Rlt_le_trans with 1e-6; [lra | apply Rmax_r]. }
  assert (Hr1 : rate <= 1) by (unfold rate; apply Rmax_lub; lra).
  rewrite <- ln_1. destruct Hr1 as [Hlt | ->]; [|lra].
  left. now apply ln_increasing.
Qed.

Lemma exp_decay_le : forall l h h',
  l <= 0 -> h <= h' -> exp (- - l * h') <= exp (- - l * h).
Proof.
  intros l h h' Hl Hh.
  destruct (Req_dec (- - l * h') (- - l * h)) as [-> | Hne]; [lra|].
  left. apply exp_increasing. nra.
Qed.

Lemma _recency_score_unit : forall now self node_id,
  TEMPORAL_DECAY_RATE (settings self) <= 1 ->
  0 <= _recency_score now self node_id <= 1.
Proof.
  intros now self v Hrate. unfold _recency_score.
  pose proof (ln_decay_rate self Hrate) as Hln.
  destruct (dict_get v (entity_last_seen self)) as [ts|]; [|lra].
  split; [left; apply exp_pos|].
  apply Rle_trans
    with (exp (- - ln (Rmax (TEMPORAL_DECAY_RATE (settings self)) 1e-6) * 0)).
  - apply exp_decay_le; [assumption|].
    apply Rle_trans with 0.0; [lra | apply Rmax_r].
  - rewrite Rmult_0_r, exp_0. lra.
Qed.

(** X9.  With a decay rate of at most 1 the recency score is a number of
    [[0, 1]]: 0 for an entity never mentioned, positive for one that was,
    1 as long as the clock has not passed the mention, and never larger at
    a later reading of the clock. *)
Theorem _recency_score_range : forall now self node_id,
  TEMPORAL_DECAY_RATE (settings self) <= 1 ->
  0 <= _recency_score now self node_id <= 1
  /\ (dict_get node_id (entity_last_seen self) = None ->
      _recency_score now self node_id = 0)
  /\ (forall timestamp,
        dict_get node_id (entity_last_seen self) = Some timestamp ->
        0 < _recency_score now self node_id
        /\ (now <= timestamp -> _recency_score now self node_id = 1))
  /\ (forall later, now <= later ->
        _recency_score later self node_id <= _recency_score now self node_id).
Proof.
  intros now self v Hrate. split; [now apply _recency_score_unit|].
  pose proof (ln_decay_rate self Hrate) as Hln. unfold _recency_score.
  destruct (dict_get v (entity_last_seen self)) as [ts|].
  - split; [discriminate|]. split.
    + intros t Ht. injection Ht as <-. split; [apply exp_pos|].
      intros Hle. rewrite (Rmax_right ((now - ts) / 3600.0) 0.0) by lra.
      replace (- - ln (Rmax (TEMPORAL_DECAY_RATE (settings self)) 1e-6) * 0.0)
        with 0 by lra.
      apply exp_0.
    + intros later Hl. apply exp_decay_le; [assumption|].
      apply Rmax_lub.
      * apply Rle_trans with ((later - ts) / 3600.0); [lra | apply Rmax_l].
      * apply Rmax_r.
  - split; [intros _; lra|]. split; [discriminate|].
    intros later _. lra.
Qed.

Lemma py_max_float_ge : forall xs x y, In y (x :: xs) -> y <= py_max_float x xs.
Proof.
  unfold py_max_float. intros xs. induction xs as [|z zs IH]; intros x y Hy; simpl.
  - destruct Hy as [<- | []]. lra.
  - destruct Hy as [Hy | [Hy | Hy]].
    + subst y. apply Rle_trans with (Rmax x z); [apply Rmax_l | apply IH; now left].
    + subst y. apply Rle_trans with (Rmax x z); [apply Rmax_r | apply IH; now left].
    + apply IH. now right.
Qed.

Lemma dict_get_In_values : forall (V : Type) (d : dict V) k w,
  dict_get k d = Some w -> In w (dict_values d).
Proof.
  intros V d k w. induction d as [|[k' w'] d IH]; simpl; [discriminate|].
  destruct (String.eqb k k').
  - intros H. injection H as <-. now left.
  - intros H. right. now apply IH.
Qed.

(** The share of the mention count in the score: the weight of the entity
    over the largest weight held. *)
Definition freq_score (self : GraphManager) (node_id : node) : R :=
  let freq := dict_get_default node_id 0.0 (entity_frequency self) in
  let max_freq :=
    match dict_values (entity_frequency self) with
    | [] => 1.0
    | x :: xs => py_max_float x xs
    end in
  if Reqb max_freq 0 then 0.0 else freq / max_freq.

Lemma calculate_node_importance_eq : forall now self node_id focal_entities,
  calculate_node_importance now self node_id focal_entities =
  ENTITY_FREQUENCY_WEIGHT (settings self) * freq_score self node_id
  + RECENCY_WEIGHT (settings self) * _recency_score now self node_id
  + CENTRALITY_WEIGHT (settings self)
    * dict_get_default node_id 0.0 (_centrality self)
  + FOCAL_WEIGHT (settings self)
    * (if set_mem node_id focal_entities then 1.0 else 0.0).
Proof. reflexivity. Qed.

Lemma freq_score_range : forall self node_id,
  NoDup (dict_keys (entity_frequency self)) ->
  frequency_floor self ->
  0 <= freq_score self node_id <= 1.
Proof.
  intros self v Hnd Hfl. unfold freq_score, frequency_floor in *.
  destruct (dict_values (entity_frequency self)) as [|x xs] eqn:Ev.
  - assert (Hd : entity_frequency self = []).
    { destruct (entity_frequency self); [reflexivity | discriminate]. }
    rewrite Hd. unfold Reqb, dict_get_default. cbn [dict_get].
    destruct (Req_dec_T 1.0 0) as [H | H]; lra.
  - assert (Hpos : forall y, In y (x :: xs) -> 1e-4 <= y).
    { intros y Hy. rewrite <- Ev in Hy. unfold dict_values in Hy.
      apply in_map_iff in Hy. destruct Hy as [[k w] [<- Hin]]. simpl.
      apply (Hfl k). now apply dict_In_get. }
    assert (Hmax : 1e-4 <= py_max_float x xs).
    { apply Rle_trans with x; [apply Hpos; now left|].
      apply py_max_float_ge. now left. }
    unfold Reqb. destruct (Req_dec_T (py_max_float x xs) 0) as [H | H]; [lra|].
    unfold dict_get_default.
    destruct (dict_get v (entity_frequency self)) as [w|] eqn:Ew.
    + assert (Hw : In w (x :: xs)).
      { rewrite <- Ev. now apply dict_get_In_values with v. }
      pose proof (Hpos w Hw) as Hw1. pose proof (py_max_float_ge xs x w Hw) as Hw2.
      split.
      * apply Rmult_le_pos; [lra|]. left. apply Rinv_0_lt_compat. lra.
      * apply Rmult_le_reg_r with (py_max_float x xs); [lra|].
        unfold Rdiv. rewrite Rmult_assoc, Rinv_l by lra. lra.
    + replace (0.0 / py_max_float x xs) with 0 by (unfold Rdiv; lra). lra.
Qed.

Variable rt : PyRuntime.

(** X11.  In every manager the process can hold, with non-negative weights
    and a decay rate of at most 1, the mention count and the recency
    contribute to the importance of a node between nothing and their
    weights: the score lies between the centrality and focal terms and
    these plus the two weights. *)
Theorem calculate_node_importance_range : forall now self node_id focal_entities,
  reachable rt self ->
  0 <= ENTITY_FREQUENCY_WEIGHT (settings self) ->
  0 <= RECENCY_WEIGHT (settings self) ->
  TEMPORAL_DECAY_RATE (settings self) <= 1 ->
  let base :=
    CENTRALITY_WEIGHT (settings self)
    * dict_get_default node_id 0.0 (_centrality self)
    + FOCAL_WEIGHT (settings self)
      * (if set_mem node_id focal_entities then 1.0 else 0.0) in
  base <= calculate_node_importance now self node_id focal_entities
       <= ENTITY_FREQUENCY_WEIGHT (settings self)
          + RECENCY_WEIGHT (settings self) + base.
Proof.
  intros now self v F Hr Hwf Hwr Hrate base.
  destruct (reachable_frequency_ok rt self Hr) as [Hnd Hfl].
  pose proof (freq_score_range self v Hnd Hfl) as Hf.
  pose proof (_recency_score_unit now self v Hrate) as Hrec.
  rewrite calculate_node_importance_eq. fold base.
  set (f := freq_score self v) in *. set (r := _recency_score now self v) in *.
  set (wf := ENTITY_FREQUENCY_WEIGHT (settings self)) in *.
  set (wr := RECENCY_WEIGHT (settings self)) in *.
  unfold base. split; nra.
Qed.

End Scoring.

(** ** The conversation context *)

(** One turn of the conversation, as the endpoints record it:
    [update_conversation_context(query, response, entities, response_time)]
    at the clock reading [turn_now]. *)
Record Turn : Type := {
  turn_now : R;
  turn_query : string;
  turn_response : string;
  turn_entities : list string;
  turn_time : R
}.

Section Context.

Local Open Scope R_scope.

Variable rt : PyRuntime.
Hypothesis rt_ok : runtime_ok rt.

Definition take_turn (self : GraphManager) (t : Turn) : GraphManager :=
  update_conversation_context rt (turn_now t) self (turn_query t)
    (turn_response t) (turn_entities t) (turn_time t).

Definition converse (self : GraphManager) (turns : list Turn) : GraphManager :=
  fold_left take_turn turns self.

Lemma mention_seen_same : forall now freq seen entity,
  dict_get entity (snd (mention now (freq, seen) entity)) = Some now.
Proof.
  intros now freq seen entity. unfold mention, defaultdict_getitem.
  destruct (dict_get entity freq); simpl; apply dict_get_set_same.
Qed.

Lemma mention_seen_other : forall now freq seen entity k,
  entity <> k ->
  dict_get k (snd (mention now (freq, seen) entity)) = dict_get k seen.
Proof.
  intros now freq seen entity k Hne. unfold mention, defaultdict_getitem.
  destruct (dict_get entity freq); simpl; now apply dict_get_set_other.
Qed.

Lemma mention_fold_seen_other : forall now es acc k,
  ~ In k es ->
  dict_get k (snd (fold_left (mention now) es acc)) = dict_get k (snd acc).
Proof.
  intros now es. induction es as [|e es IH]; intros [freq seen] k Hn; cbn [fold_left].
  - reflexivity.
  - rewrite IH by (simpl in Hn; tauto).
    apply mention_seen_other. simpl in Hn. tauto.
Qed.

Lemma mention_fold_seen_in : forall now es acc k,
  In k es -> dict_get k (snd (fold_left (mention now) es acc)) = Some now.
Proof.
  intros now es. induction es as [|e es IH]; intros [freq seen] k Hin; cbn [fold_left].
  - contradiction.
  - destruct (in_dec string_dec k es) as [Hk | Hk]; [now apply IH|].
    rewrite mention_fold_seen_other by assumption.
    destruct Hin as [-> | Hin]; [apply mention_seen_same | contradiction].
Qed.

Lemma mention_fold_get_in : forall now es acc k,
  NoDup es -> In k es ->
  dict_get k (fst (fold_left (mention now) es acc)) =
  Some (dict_get_default k 0 (fst acc) + 1.0).
Proof.
  intros now es. induction es as [|e es IH]; intros [freq seen] k Hnd Hin;
    cbn [fold_left].
  - contradiction.
  - inversion Hnd as [|? ? Hne Hnd']; subst. destruct Hin as [-> | Hin].
    + rewrite mention_fold_get_other by assumption. apply mention_get_same.
    + rewrite IH by assumption. unfold dict_get_default.
      rewrite mention_get_other; [reflexivity|]. intros ->. contradiction.
Qed.

Lemma update_conversation_context_last_seen :
  forall now self query response entities response_time,
  entity_last_seen
    (update_conversation_context rt now self query response entities response_time) =
  snd (fold_left (mention now) (set_iter rt (set_of_list entities))
         (entity_frequency (apply_temporal_decay self),
          entity_last_seen self)).
Proof.
  intros. unfold update_conversation_context.
  destruct (apply_temporal_decay_keeps self) as [_ [_ [_ [_ [H _]]]]].
  rewrite H.
  destruct (fold_left (mention now) (set_iter rt (set_of_list entities))
              (entity_frequency (apply_temporal_decay self),
               entity_last_seen self)) as [freq seen].
  reflexivity.
Qed.

(** What a turn does to an entity that it mentions, and to one that it does
    not. *)
Lemma update_conversation_context_entry :
  forall now self query response entities response_time k,
  NoDup (dict_keys (entity_frequency self)) ->
  let self' := update_conversation_context rt now self query response entities
                 response_time in
  let old := decayed (TEMPORAL_DECAY_RATE (settings self))
               (dict_get k (entity_frequency self)) in
  (In k entities ->
   dict_get k (entity_frequency self')
     = Some (match old with Some w => w | None => 0 end + 1.0)
   /\ dict_get k (entity_last_seen self') = Some now)
  /\ (~ In k entities ->
      dict_get k (entity_frequency self') = old
      /\ dict_get k (entity_last_seen self') = dict_get k (entity_last_seen self)).
Proof.
  intros now self query response entities response_time k Hnd self' old.
  unfold self'. rewrite update_conversation_context_frequency,
    update_conversation_context_last_seen.
  assert (Hin : In k (set_iter rt (set_of_list entities)) <-> In k entities).
  { rewrite (set_iter_In rt rt_ok). apply set_of_list_In. }
  split; intros Hk.
  - split.
    + rewrite mention_fold_get_in.
      * cbn [fst]. unfold dict_get_default.
        rewrite apply_temporal_decay_get by assumption. reflexivity.
      * apply (set_iter_NoDup rt rt_ok), set_of_list_NoDup.
      * now apply Hin.
    + apply mention_fold_seen_in. now apply Hin.
  - split.
    + rewrite mention_fold_get_other by (now rewrite Hin).
      cbn [fst]. now apply apply_temporal_decay_get.
    + rewrite mention_fold_seen_other by (now rewrite Hin). reflexivity.
Qed.

(** X12.  One turn of the conversation, in every manager the process can
    hold: an entity the turn mentions, however often it is listed, has
    afterwards its decayed weight (or 0 if it had none, or if the decay
    dropped it) plus 1, and the clock reading as its last mention; every
    other entity has its decayed weight, or none, and its last mention as
    before.  The turn is counted and its response time recorded. *)
Theorem update_conversation_context_turn :
  forall now self query response entities response_time,
  reachable rt self ->
  let self' := update_conversation_context rt now self query response entities
                 response_time in
  let old k := decayed (TEMPORAL_DECAY_RATE (settings self))
                 (dict_get k (entity_frequency self)) in
  (forall k, In k entities ->
     dict_get k (entity_frequency self')
       = Some (match old k with Some w => w | None => 0 end + 1.0)
     /\ dict_get k (entity_last_seen self') = Some now)
  /\ (forall k, ~ In k entities ->
        dict_get k (entity_frequency self') = old k
        /\ dict_get k (entity_last_seen self') = dict_get k (entity_last_seen self))
  /\ total_queries self' = (total_queries self + 1)%Z
  /\ response_times self' = response_times self ++ [response_time]
  /\ (forall k, In k (last_entities self') <-> In k entities).
Proof.
  intros now self query response entities response_time Hr self' old.
  destruct (reachable_frequency_ok rt self Hr) as [Hnd _].
  destruct (update_conversation_context_keeps rt now self query response entities
              response_time) as [_ [_ [_ [_ [_ [Hq [Ht Hl]]]]]]].
  split; [|split; [|split; [exact Hq | split; [exact Ht|]]]].
  - intros k Hk.
    now apply (update_conversation_context_entry now self query response entities
                 response_time k Hnd).
  - intros k Hk.
    now apply (update_conversation_context_entry now self query response entities
                 response_time k Hnd).
  - intros k. unfold self'. rewrite Hl. apply set_of_list_In.
Qed.

Lemma take_turn_keeps : forall self t,
  settings (take_turn self t) = settings self
  /\ (NoDup (dict_keys (entity_frequency self)) ->
      NoDup (dict_keys (entity_frequency (take_turn self t)))).
Proof.
  intros self t. unfold take_turn. split.
  - now destruct (update_conversation_context_keeps rt (turn_now t) self
                    (turn_query t) (turn_response t) (turn_entities t) (turn_time t))
      as [_ [_ [_ [H _]]]].
  - apply update_conversation_context_NoDup.
Qed.

Lemma converse_unmentioned : forall turns self k,
  NoDup (dict_keys (entity_frequency self)) ->
  (forall t, In t turns -> ~ In k (turn_entities t)) ->
  dict_get k (entity_frequency (converse self turns))
    = Nat.iter (List.length turns)
        (decayed (TEMPORAL_DECAY_RATE (settings self)))
        (dict_get k (entity_frequency self))
  /\ dict_get k (entity_last_seen (converse self turns))
     = dict_get k (entity_last_seen self).
Proof.
  unfold converse. induction turns as [|t turns IH]; intros self k Hnd Hno;
    cbn [fold_left List.length].
  - split; reflexivity.
  - destruct (take_turn_keeps self t) as [Hs Hnd'].
    destruct (IH (take_turn self t) k (Hnd' Hnd)) as [H1 H2].
    { intros t' Ht'. apply Hno. now right. }
    assert (Hk : ~ In k (turn_entities t)) by (apply Hno; now left).
    destruct (update_conversation_context_entry (turn_now t) self (turn_query t)
                (turn_response t) (turn_entities t) (turn_time t) k Hnd)
      as [_ Hout].
    destruct (Hout Hk) as [Hf Hl]. fold (take_turn self t) in Hf, Hl.
    rewrite H1, H2, Hs, Hf, Hl. split; [|reflexivity].
    symmetry. apply Nat.iter_succ_r.
Qed.

Lemma iter_decayed : forall rate w k,
  0 < rate <= 1 -> 1e-4 <= w ->
  Nat.iter k (decayed rate) (Some w) =
  if Rltb (w * rate ^ k) 1e-4 then None else Some (w * rate ^ k).
Proof.
  intros rate w k Hrate Hw. induction k as [|k IH].
  - unfold Nat.iter. cbn [nat_rect pow]. rewrite Rmult_1_r.
    now rewrite (proj2 (Rltb_false w 1e-4)) by lra.
  - rewrite Nat.iter_succ, IH.
    assert (Hp : 0 < rate ^ k) by (apply pow_lt; lra).
    assert (Hstep : w * rate ^ S k = w * rate ^ k * rate) by (simpl; ring).
    rewrite Hstep.
    destruct (Rltb (w * rate ^ k) 1e-4) eqn:E.
    + apply Rltb_true in E.
      rewrite (proj2 (Rltb_true (w * rate ^ k * rate) 1e-4)) by nra.
      reflexivity.
    + apply Rltb_false in E. cbn [decayed]. reflexivity.
Qed.

(** X13.  An entity that no turn mentions fades: after [n] turns its weight
    is the weight it had times the [n]-th power of the decay rate, and the
    entry is gone once that is under 1e-4; the time of its last mention
    stays.  (For a decay rate in (0, 1].) *)
Theorem unmentioned_entity_fades : forall self turns k w,
  reachable rt self ->
  0 < TEMPORAL_DECAY_RATE (settings self) <= 1 ->
  (forall t, In t turns -> ~ In k (turn_entities t)) ->
  dict_get k (entity_frequency self) = Some w ->
  dict_get k (entity_frequency (converse self turns))
    = (if Rltb (w * TEMPORAL_DECAY_RATE (settings self) ^ List.length turns) 1e-4
       then None
       else Some (w * TEMPORAL_DECAY_RATE (settings self) ^ List.length turns))
  /\ dict_get k (entity_last_seen (converse self turns))
     = dict_get k (entity_last_seen self).
Proof.
  intros self turns k w Hr Hrate Hno Hw.
  destruct (reachable_frequency_ok rt self Hr) as [Hnd Hfl].
  destruct (converse_unmentioned turns self k Hnd Hno) as [H1 H2].
  split; [|exact H2]. rewrite H1, Hw. apply iter_decayed; [assumption|].
  now apply (Hfl k).
Qed.

(** What the conversation context keeps true. *)
Definition context_ok (self : GraphManager) : Prop :=
  total_queries self = len (response_times self)
  /\ (forall k w, dict_get k (entity_frequency self) = Some w ->
        exists timestamp, dict_get k (entity_last_seen self) = Some timestamp)
  /\ (0 <= TEMPORAL_DECAY_RATE (settings self) <= 1 ->
      forall k w, dict_get k (entity_frequency self) = Some w ->
        w <= IZR (total_queries self)).

Lemma reload_graph_keeps_context : forall env self self',
  reload_graph rt env self = Ok self' ->
  entity_frequency self' = entity_frequency self
  /\ entity_last_seen self' = entity_last_seen self
  /\ total_queries self' = total_queries self
  /\ response_times self' = response_times self
  /\ settings self' = settings self.
Proof.
  intros env self self' H.
  destruct (reload_graph_Ok rt env self self' H) as [there [G [c [_ [_ [_ ->]]]]]].
  unfold _build_indices.
  destruct (fold_left (index_node rt) (g_nodes (graph (with_graph self G))) ([], []))
    as [index metadata].
  repeat split.
Qed.

Lemma decayed_le : forall rate o w,
  0 <= rate <= 1 -> (forall w0, o = Some w0 -> 0 <= w0) ->
  decayed rate o = Some w -> exists w0, o = Some w0 /\ w <= w0.
Proof.
  intros rate [w0|] w Hrate Hpos; simpl; [|discriminate].
  destruct (Rltb (w0 * rate) 1e-4); [discriminate|].
  intros H. injection H as <-. exists w0. split; [reflexivity|].
  specialize (Hpos w0 eq_refl). nra.
Qed.

Lemma run_context_ok : forall c self self' v,
  run rt c self = Ok (self', v) ->
  NoDup (dict_keys (entity_frequency self)) -> frequency_floor self ->
  context_ok self -> context_ok self'.
Proof.
  intros c self self' v H Hnd Hfl [Hq [Hseen Hle]].
  destruct (read_only c) eqn:Hro.
  - apply (run_read_only rt c self self' v Hro) in H. subst. repeat split; assumption.
  - destruct c; simpl in Hro; try discriminate; simpl in H.
    + destruct (reload_graph rt env self) as [s|e] eqn:E; simpl in H; [|discriminate].
      injection H as <- _.
      destruct (reload_graph_keeps_context env self s E) as [H1 [H2 [H3 [H4 H5]]]].
      unfold context_ok. rewrite H1, H2, H3, H4, H5. repeat split; assumption.
    + injection H as <- _.
      destruct (apply_temporal_decay_keeps self)
        as [_ [_ [_ [H4 [H5 [H6 [H7 _]]]]]]].
      unfold context_ok. rewrite H4, H5, H6, H7.
      split; [assumption|]. split.
      * intros k w Hk. rewrite apply_temporal_decay_get in Hk by assumption.
        destruct (dict_get k (entity_frequency self)) as [w0|] eqn:E;
          [|discriminate]. now apply Hseen with w0.
      * intros Hrate k w Hk. rewrite apply_temporal_decay_get in Hk by assumption.
        apply decayed_le in Hk; [|assumption|].
        -- destruct Hk as [w0 [Hw0 Hw]]. specialize (Hle Hrate k w0 Hw0). lra.
        -- intros w0 Hw0. specialize (Hfl k w0 Hw0). lra.
    + injection H as <- _.
      destruct (update_conversation_context_keeps rt now self query response entities
                  response_time) as [_ [_ [_ [H4 [_ [H6 [H7 _]]]]]]].
      unfold context_ok. rewrite H4, H6, H7.
      split; [|split].
      * unfold len in *. rewrite length_app. simpl. lia.
      * intros k w Hk.
        destruct (update_conversation_context_entry now self query response entities
                    response_time k Hnd) as [Hin Hout].
        destruct (in_dec string_dec k entities) as [Hm | Hm].
        -- destruct (Hin Hm) as [_ Hs]. now exists now.
        -- destruct (Hout Hm) as [Hf Hs]. rewrite Hs. rewrite Hf in Hk.
           destruct (dict_get k (entity_frequency self)) as [w0|] eqn:E;
             [|discriminate]. now apply Hseen with w0.
      * intros Hrate k w Hk. rewrite plus_IZR.
        assert (Hq0 : 0 <= IZR (total_queries self)).
        { apply IZR_le. rewrite Hq. unfold len. lia. }
        assert (Hold : forall w1,
                  decayed (TEMPORAL_DECAY_RATE (settings self))
                    (dict_get k (entity_frequency self)) = Some w1 ->
                  w1 <= IZR (total_queries self)).
        { intros w1 Hw1. apply decayed_le in Hw1; [|assumption|].
          - destruct Hw1 as [w0 [Hw0 Hw]]. specialize (Hle Hrate k w0 Hw0). lra.
          - intros w0 Hw0. specialize (Hfl k w0 Hw0). lra. }
        destruct (update_conversation_context_entry now self query response entities
                    response_time k Hnd) as [Hin Hout].
        destruct (in_dec string_dec k entities) as [Hm | Hm].
        -- destruct (Hin Hm) as [Hf _]. rewrite Hf in Hk. injection Hk as <-.
           destruct (decayed (TEMPORAL_DECAY_RATE (settings self))
                       (dict_get k (entity_frequency self))) as [w1|].
           ++ specialize (Hold w1 eq_refl). lra.
           ++ lra.
        -- destruct (Hout Hm) as [Hf _]. rewrite Hf in Hk.
           specialize (Hold w Hk). lra.
Qed.


(** X14.  In every manager the process can hold, the number of queries
    counted is the number of response times recorded; every entity that
    carries a weight has a time of last mention; and, for a decay rate in
    [[0, 1]], no weight exceeds the number of queries. *)
Theorem conversation_context_invariant : forall self,
  reachable rt self ->
  total_queries self = len (response_times self)
  /\ (forall k w, dict_get k (entity_frequency self) = Some w ->
        exists timestamp, dict_get k (entity_last_seen self) = Some timestamp)
  /\ (0 <= TEMPORAL_DECAY_RATE (settings self) <= 1 ->
      forall k w, dict_get k (entity_frequency self) = Some w ->
        w <= IZR (total_queries self)).
Proof.
  intros self Hr. change (context_ok self).
  induction Hr as [env s self Hinit | c self self' v Hr IH Hrun].
  - unfold init in Hinit. apply reload_graph_keeps_context in Hinit.
    destruct Hinit as [H1 [H2 [H3 [H4 H5]]]].
    unfold context_ok. rewrite H1, H2, H3, H4. simpl.
    split; [reflexivity|]. split; intros; discriminate.
  - destruct (reachable_frequency_ok rt self Hr) as [Hnd Hfl].
    now apply run_context_ok with c self v.
Qed.

End Context.

(** ** Statistics *)






Section Statistics.

Variable rt : PyRuntime.
Hypothesis rt_ok : runtime_ok rt.



End Statistics.

(** ** The payload of the export *)

Lemma Forall2_In_r : forall (A B : Type) (P : A -> B -> Prop) xs ys y,
  Forall2 P xs ys -> In y ys -> exists x, In x xs /\ P x y.
Proof.
  intros A B P xs ys y H. induction H as [|x0 y0 xs ys Hp H IH]; intros Hin.
  - contradiction.
  - destruct Hin as [<- | Hin].
    + exists x0. split; [now left | assumption].
    + destruct (IH Hin) as [x [Hx Hpx]]. exists x. split; [now right | assumption].
Qed.

Lemma map_result_Ok_iff : forall (A B : Type) (f : A -> result B) xs,
  (exists ys, map_result f xs = Ok ys) <-> (forall x, In x xs -> exists y, f x = Ok y).
Proof.
  intros A B f xs. split.
  - intros [ys H] x Hx. revert ys H. induction xs as [|x0 xs IH]; intros ys H;
      [contradiction|].
    simpl in H. destruct (f x0) as [y0|e] eqn:E0; simpl in H; [|discriminate].
    destruct (map_result f xs) as [ys'|e] eqn:Em; simpl in H; [|discriminate].
    destruct Hx as [<- | Hx]; [now exists y0 | now apply (IH Hx ys')].
  - apply map_result_returns.
Qed.

Lemma map_result_length : forall (A B : Type) (f : A -> result B) xs ys,
  map_result f xs = Ok ys -> List.length ys = List.length xs.
Proof.
  intros A B f xs ys H. apply map_result_Ok in H.
  induction H; simpl; congruence.
Qed.

Section Payload.

Local Open Scope R_scope.

Variable rt : PyRuntime.
Hypothesis rt_ok : runtime_ok rt.

(** The first loop of [graph_to_vis_format]: the cache holds the importance
    of every node visited, and the maximum is no smaller than any of them
    nor than the value it started from. *)
Lemma importance_cache_fold : forall (imp : node -> R) l acc,
  let r := fold_left (fun (acc : dict R * R) v =>
                        (dict_set v (imp v) (fst acc), Rmax (snd acc) (imp v)))
                     l acc in
  (forall v, In v l -> dict_get v (fst r) = Some (imp v))
  /\ (forall v, ~ In v l -> dict_get v (fst r) = dict_get v (fst acc))
  /\ snd acc <= snd r
  /\ (forall v, In v l -> imp v <= snd r).
Proof.
  intros imp l. induction l as [|x l IH]; intros acc; cbv zeta; cbn [fold_left].
  - split; [intros v []|]. split; [reflexivity|]. split; [lra | intros v []].
  - destruct (IH (dict_set x (imp x) (fst acc), Rmax (snd acc) (imp x)))
      as [H1 [H2 [H3 H4]]]. cbn [fst snd] in *.
    repeat split.
    + intros v [<- | Hv].
      * destruct (in_dec string_dec x l) as [Hin | Hn]; [now apply H1|].
        rewrite H2 by assumption. apply dict_get_set_same.
      * now apply H1.
    + intros v Hv. rewrite H2 by (simpl in Hv; tauto).
      apply dict_get_set_other. simpl in Hv. tauto.
    + apply Rle_trans with (Rmax (snd acc) (imp x)); [apply Rmax_l | assumption].
    + intros v [<- | Hv]; [|now apply H4].
      apply Rle_trans with (Rmax (snd acc) (imp x)); [apply Rmax_r | assumption].
Qed.

Lemma vis_node_size : forall clock self focal_entities cache scaling nd e,
  vis_node rt clock self focal_entities cache scaling nd = Ok e ->
  vis_id e = fst nd
  /\ vis_size e = 8 + (dict_get_default (fst nd) 0.0 cache / scaling) * 20
  /\ vis_frequency e = dict_get_default (fst nd) 0.0 (entity_frequency self)
  /\ vis_centrality e = dict_get_default (fst nd) 0.0 (_centrality self).
Proof.
  intros clock self focal_entities cache scaling [node_id data] e H.
  unfold vis_node in H.
  destruct (match dict_get node_id (node_metadata self) with
            | Some m => meta_type m
            | None => AStr "ENTITY"
            end); simpl in H; try discriminate.
  injection H as <-. simpl. tauto.
Qed.

(** X17.  No node of the payload is drawn larger than 28, and a node whose
    importance is not negative is drawn no smaller than 8. *)
Theorem graph_to_vis_format_sizes : forall clock self sub focal_entities payload,
  graph_to_vis_format rt clock self sub focal_entities = Ok payload ->
  forall e, In e (payload_nodes payload) ->
    vis_size e <= 28
    /\ (0 <= calculate_node_importance (clock (vis_id e)) self (vis_id e)
               focal_entities ->
        8 <= vis_size e).
Proof.
  intros clock self sub F payload H e He. unfold graph_to_vis_format in H.
  pose proof (importance_cache_fold
                (fun v => calculate_node_importance (clock v) self v F)
                (nodes sub) ([], 0.0)) as Hc.
  cbv zeta in Hc. cbn [fst snd] in Hc.
  match type of H with
  | context [fold_left ?f ?l ?a] =>
      change (fold_left f l a)
        with (fold_left (fun (acc : dict R * R) v =>
                (dict_set v ((fun v0 => calculate_node_importance (clock v0) self v0 F) v)
                          (fst acc),
                 Rmax (snd acc)
                      ((fun v0 => calculate_node_importance (clock v0) self v0 F) v)))
              (nodes sub) ([], 0.0)) in H;
      destruct (fold_left (fun (acc : dict R * R) v =>
                (dict_set v ((fun v0 => calculate_node_importance (clock v0) self v0 F) v)
                          (fst acc),
                 Rmax (snd acc)
                      ((fun v0 => calculate_node_importance (clock v0) self v0 F) v)))
              (nodes sub) ([], 0.0)) as [cache maxi]
  end.
  cbn [fst snd] in Hc. destruct Hc as [Hget [_ [Hmax0 Hmax]]].
  match type of H with
  | context [map_result ?f (g_nodes sub)] =>
      destruct (map_result f (g_nodes sub)) as [ns|ex] eqn:En
  end; simpl in H; [|discriminate].
  destruct (map_result (vis_link rt) (g_edges sub)) as [ls|ex]; simpl in H;
    [|discriminate].
  injection H as <-. cbn [payload_nodes] in He.
  apply map_result_Ok in En.
  destruct (Forall2_In_r _ _ _ _ _ e En He) as [[v data] [Hin Hv]].
  apply vis_node_size in Hv. cbn [fst] in Hv. destruct Hv as [Hid [Hsize _]].
  assert (Hvn : In v (nodes sub)).
  { unfold nodes, dict_keys. apply in_map_iff. now exists (v, data). }
  rewrite Hid, Hsize. unfold dict_get_default. rewrite (Hget v Hvn).
  specialize (Hmax v Hvn). cbv beta in Hmax.
  set (imp := calculate_node_importance (clock v) self v F) in *.
  unfold Reqb. destruct (Req_dec_T maxi 0) as [Hz | Hnz].
  - split; [|intros Hpos]; lra.
  - assert (Hpos : 0 < maxi) by lra.
    assert (Hle : imp / maxi <= 1).
    { apply (Rmult_le_reg_r maxi); [assumption|].
      unfold Rdiv. rewrite Rmult_assoc, Rinv_l by lra. lra. }
    split; [lra|]. intros Himp.
    assert (Hge : 0 <= imp / maxi).
    { apply Rmult_le_pos; [assumption|]. left. now apply Rinv_0_lt_compat. }
    lra.
Qed.

Lemma graph_to_vis_format_frequency :
  forall clock self sub focal_entities payload,
  graph_to_vis_format rt clock self sub focal_entities = Ok payload ->
  forall e, In e (payload_nodes payload) ->
    vis_frequency e = dict_get_default (vis_id e) 0.0 (entity_frequency self)
    /\ vis_centrality e = dict_get_default (vis_id e) 0.0 (_centrality self).
Proof.
  intros clock self sub F payload H e He. unfold graph_to_vis_format in H.
  match type of H with
  | context [fold_left ?f ?l ?a] => destruct (fold_left f l a) as [cache maxi]
  end.
  match type of H with
  | context [map_result ?f (g_nodes sub)] =>
      destruct (map_result f (g_nodes sub)) as [ns|ex] eqn:En
  end; simpl in H; [|discriminate].
  destruct (map_result (vis_link rt) (g_edges sub)) as [ls|ex]; simpl in H;
    [|discriminate].
  injection H as <-. cbn [payload_nodes] in He.
  apply map_result_Ok in En.
  destruct (Forall2_In_r _ _ _ _ _ e En He) as [nd [_ Hv]].
  apply vis_node_size in Hv. destruct Hv as [Hid [_ [Hf Hc]]].
  rewrite Hid. split; assumption.
Qed.

(** X18.  The payload has one link for every edge of the subgraph, in the
    order of the edges and with their endpoints; so in the payload of a
    subgraph whose edges join its own nodes, every link joins two nodes of
    the payload. *)
Theorem graph_to_vis_format_links : forall clock self sub focal_entities payload,
  graph_to_vis_format rt clock self sub focal_entities = Ok payload ->
  map (fun l => (link_source l, link_target l)) (payload_links payload)
    = map (fun e : node * node * dict attr => (fst (fst e), snd (fst e)))
          (g_edges sub)
  /\ (graph_wf sub ->
      forall l, In l (payload_links payload) ->
        In (link_source l) (map vis_id (payload_nodes payload))
        /\ In (link_target l) (map vis_id (payload_nodes payload))).
Proof.
  intros clock self sub F payload H.
  destruct (graph_to_vis_format_Ok rt clock self sub F payload H) as [Hids _].
  unfold graph_to_vis_format in H.
  match type of H with
  | context [fold_left ?f ?l ?a] => destruct (fold_left f l a) as [cache maxi]
  end.
  match type of H with
  | context [map_result ?f (g_nodes sub)] =>
      destruct (map_result f (g_nodes sub)) as [ns|ex] eqn:En
  end; simpl in H; [|discriminate].
  destruct (map_result (vis_link rt) (g_edges sub)) as [ls|ex] eqn:El; simpl in H;
    [|discriminate].
  injection H as <-. cbn [payload_links payload_nodes] in *.
  apply map_result_Ok in El.
  assert (Hl : forall es ls0,
            Forall2 (fun e l => vis_link rt e = Ok l) es ls0 ->
            map (fun l => (link_source l, link_target l)) ls0
            = map (fun e : node * node * dict attr => (fst (fst e), snd (fst e))) es).
  { intros es ls0 HF. induction HF as [|[[a b] d] l es ls0 Hv HF IH]; [reflexivity|].
    simpl. rewrite IH. f_equal. unfold vis_link in Hv.
    destruct (py_float rt (dict_get_default "weight" (AFloat 1.0) d)); simpl in Hv;
      [|discriminate].
    now injection Hv as <-. }
  split; [now apply Hl|].
  intros Hwf l Hin.
  assert (Hpair : In (link_source l, link_target l)
                     (map (fun e : node * node * dict attr =>
                             (fst (fst e), snd (fst e))) (g_edges sub))).
  { rewrite <- (Hl _ _ El). apply in_map_iff. now exists l. }
  apply in_map_iff in Hpair. destruct Hpair as [[[a b] d] [Heq Hed]].
  simpl in Heq. injection Heq as <- <-.
  rewrite Hids. now apply (graph_wf_edges sub a b d).
Qed.

(** X19.  With a decay rate of at most 1, no call of [_recency_score]
    raises, and [graph_to_vis_format] returns a payload exactly when the
    entity type recorded for every node of the subgraph is a string and the
    weight of every edge converts to a float; otherwise it raises. *)
Theorem graph_to_vis_format_returns_iff : forall clock self sub focal_entities,
  TEMPORAL_DECAY_RATE (settings self) <= 1 ->
  (forall v, _recency_score_call (clock v) self v
             = Ok (_recency_score (clock v) self v))
  /\ ((exists payload,
         graph_to_vis_format rt clock self sub focal_entities = Ok payload)
      <->
      (forall v m, In v (nodes sub) -> dict_get v (node_metadata self) = Some m ->
                   exists s, meta_type m = AStr s)
      /\ (forall a b d, In (a, b, d) (g_edges sub) ->
            exists w, py_float rt (dict_get_default "weight" (AFloat 1.0) d) = Ok w)).
Proof.
  intros clock self sub F Hrate.
  split; [intros v; now apply _recency_score_call_returns|].
  unfold graph_to_vis_format.
  match goal with
  | |- context [fold_left ?f ?l ?a] => destruct (fold_left f l a) as [cache maxi]
  end.
  set (scaling := if Reqb maxi 0 then 1.0 else maxi).
  pose proof (map_result_Ok_iff _ _ (vis_node rt clock self F cache scaling)
                (g_nodes sub)) as Hn.
  pose proof (map_result_Ok_iff _ _ (vis_link rt) (g_edges sub)) as Hl.
  split.
  - intros [payload H].
    destruct (map_result (vis_node rt clock self F cache scaling) (g_nodes sub))
      as [ns|ex]; simpl in H; [|discriminate].
    destruct (map_result (vis_link rt) (g_edges sub)) as [ls|ex]; simpl in H;
      [|discriminate].
    split.
    + intros v m Hv Hm. unfold nodes, dict_keys in Hv. apply in_map_iff in Hv.
      destruct Hv as [[v' data] [Heq Hin]]. simpl in Heq. subst v'.
      destruct (proj1 Hn (ex_intro _ ns eq_refl) (v, data) Hin) as [e He].
      unfold vis_node in He. rewrite Hm in He.
      destruct (meta_type m) as [s| | |]; simpl in He; try discriminate.
      now exists s.
    + intros a b d Hin.
      destruct (proj1 Hl (ex_intro _ ls eq_refl) (a, b, d) Hin) as [l Hlk].
      unfold vis_link in Hlk.
      destruct (py_float rt (dict_get_default "weight" (AFloat 1.0) d)) as [w|ex];
        [now exists w | discriminate].
  - intros [Hty Hw].
    destruct (proj2 Hn) as [ns Hns].
    { intros [v data] Hin. unfold vis_node.
      destruct (dict_get v (node_metadata self)) as [m|] eqn:Em.
      - destruct (Hty v m) as [s Hs]; [|exact Em|].
        + unfold nodes, dict_keys. apply in_map_iff. now exists (v, data).
        + rewrite Hs. simpl. eexists. reflexivity.
      - simpl. eexists. reflexivity. }
    destruct (proj2 Hl) as [ls Hls].
    { intros [[a b] d] Hin. unfold vis_link.
      destruct (Hw a b d Hin) as [w Hwd]. rewrite Hwd. simpl. eexists. reflexivity. }
    rewrite Hns, Hls. simpl. eexists. reflexivity.
Qed.

End Payload.

(** ** Reloading *)

Section Reload.

Variable rt : PyRuntime.

(** X20.  A reload that returns has replaced the graph, the indices and the
    centrality and nothing else: the conversation context and the settings
    are those of before; and reloading again from the same files returns
    the same manager. *)
Theorem reload_graph_idempotent : forall env self self',
  reload_graph rt env self = Ok self' ->
  reload_graph rt env self' = Ok self'
  /\ settings self' = settings self
  /\ entity_frequency self' = entity_frequency self
  /\ entity_last_seen self' = entity_last_seen self
  /\ total_queries self' = total_queries self
  /\ response_times self' = response_times self
  /\ last_entities self' = last_entities self
  /\ last_query self' = last_query self
  /\ last_response self' = last_response self.
Proof.
  intros env self self' H.
  destruct (path_exists env) as [there|e] eqn:He;
    [|unfold reload_graph in H; rewrite He in H; discriminate].
  destruct (graph_read_returns env there) as [G [HG _]].
  rewrite (reload_graph_unfold rt env self there G He HG) in H.
  assert (Hshape : forall s,
            exists index metadata c,
              _compute_centrality env (_build_indices rt (with_graph s G))
              = Ok (mkManager (settings s) G index metadata (entity_frequency s)
                      (entity_last_seen s) (total_queries s) (response_times s)
                      (last_entities s) (last_query s) (last_response s) c)
              /\ fold_left (index_node rt) (g_nodes G) ([], []) = (index, metadata)
              /\ _compute_centrality env
                   (mkManager (settings s) G index metadata (entity_frequency s)
                      (entity_last_seen s) (total_queries s) (response_times s)
                      (last_entities s) (last_query s) (last_response s) c)
                 = Ok (mkManager (settings s) G index metadata (entity_frequency s)
                      (entity_last_seen s) (total_queries s) (response_times s)
                      (last_entities s) (last_query s) (last_response s) c)).
  { intros s. unfold _build_indices, with_graph. cbn [graph].
    destruct (fold_left (index_node rt) (g_nodes G) ([], [])) as [index metadata].
    unfold _compute_centrality, with_centrality. cbn.
    destruct (number_of_nodes G =? 0)%nat.
    - exists index, metadata, []. repeat split.
    - destruct (pagerank env G) as [c|e]; cbn.
      + exists index, metadata, c. repeat split.
      + exists index, metadata, (degree_centrality G). repeat split. }
  destruct (Hshape self) as [index [metadata [c [H1 [H2 H3]]]]].
  rewrite H1 in H. injection H as <-. split.
  - rewrite (reload_graph_unfold rt env _ there G He HG).
    unfold _build_indices, with_graph. cbn [graph]. rewrite H2. cbn.
    exact H3.
  - repeat split.
Qed.

End Reload.

(** ** The endpoints that drive the manager *)

(** What a handler of [api/routes.py] does: it returns a body, raises
    [HTTPException(status_code=...)], or lets an exception of the manager
    through. *)
Inductive response (A : Type) : Type :=
| Returns (body : A)
| HTTPException (status_code : Z)
| Propagates (e : exn).

Arguments Returns {A} body.
Arguments HTTPException {A} status_code.
Arguments Propagates {A} e.

(** [s.split(sep)] for a separator of one character. *)
Fixpoint str_split (sep : ascii) (s : string) : list string :=
  match s with
  | EmptyString => [EmptyString]
  | String c s' =>
      if Ascii.eqb c sep then EmptyString :: str_split sep s'
      else match str_split sep s' with
           | [] => [String c EmptyString]
           | w :: ws => String c w :: ws
           end
  end.

Section Endpoints.

Local Open Scope R_scope.

Variable rt : PyRuntime.
Hypothesis rt_ok : runtime_ok rt.

(** [str.strip()], a service of the runtime like [str.lower()]. *)
Variable str_strip : string -> string.

(** [query_endpoint] of [api/routes.py] from the point where LightRAG has
    answered [response_text] after [elapsed] seconds, and the loop body of
    [websocket_handler], which always asks for the graph: the manager
    afterwards and the field [graph] of the response.  The settings of the
    application are the object the manager was built with. *)
Definition query_endpoint (now : R) (clock clock' : node -> R)
  (self : GraphManager) (query response_text : string) (elapsed : R)
  (include_graph : bool) : GraphManager * result (option VisPayload) :=
  let query_entities := extract_entities rt self query in
  let response_entities := extract_entities rt self response_text in
  let combined_entities := set_update query_entities (set_iter rt response_entities) in
  let self1 :=
    update_conversation_context rt now self query response_text
      (set_iter rt combined_entities) elapsed in
  (self1,
   if include_graph
   then
     sub <- build_contextual_subgraph rt clock self1 combined_entities
              (Some (MAX_HOPS (settings self1)))
              (Some (MAX_GRAPH_NODES (settings self1))) ;;
     graph_data <- graph_to_vis_format rt clock' self1 sub combined_entities ;;
     Ok (Some graph_data)
   else Ok None).

(** [subgraph_endpoint] of [api/routes.py]. *)
Definition subgraph_endpoint (clock clock' : node -> R) (self : GraphManager)
  (entities : option string) : response VisPayload :=
  match entities with
  | None => HTTPException 400
  | Some EmptyString => HTTPException 400
  | Some entities =>
      let requested :=
        filter (fun entity => negb (String.eqb entity ""))
               (map str_strip (str_split ","%char entities)) in
      match resolve_labels_to_nodes rt self requested with
      | [] => HTTPException 404
      | node_ids =>
          match build_contextual_subgraph rt clock self node_ids
                  (Some (MAX_HOPS (settings self)))
                  (Some (MAX_GRAPH_NODES (settings self))) with
          | Raise e => Propagates e
          | Ok sub =>
              match graph_to_vis_format rt clock' self sub node_ids with
              | Raise e => Propagates e
              | Ok payload => Returns payload
              end
          end
      end
  end.

(** The nodes whose display label occurs in a text. *)
Definition mentioned (self : GraphManager) (text : string) (v : node) : Prop :=
  exists data, In (v, data) (g_nodes (graph self))
               /\ str_contains (label_key rt v data) (str_lower rt text) = true.

(** The nodes named by one of the comma-separated labels of a request. *)
Definition requested_node (self : GraphManager) (entities : string) (v : node)
  : Prop :=
  exists part data,
    In part (str_split ","%char entities)
    /\ str_strip part <> EmptyString
    /\ In (v, data) (g_nodes (graph self))
    /\ label_key rt v data = str_lower rt (str_strip part).

Lemma payload_focal_nodes : forall clock clock' self focal_entities max_hops max_nodes
                                   sub payload v,
  graph_wf (graph self) ->
  build_contextual_subgraph rt clock self focal_entities max_hops max_nodes = Ok sub ->
  graph_to_vis_format rt clock' self sub focal_entities = Ok payload ->
  In v focal_entities -> In v (nodes (graph self)) ->
  exists n, In n (payload_nodes payload) /\ vis_id n = v /\ is_focal n = true
            /\ vis_frequency n = dict_get_default v 0.0 (entity_frequency self).
Proof.
  intros clock clock' self F max_hops max_nodes sub payload v Hwf Hb Hp Hv Hg.
  destruct (graph_to_vis_format_Ok rt clock' self sub F payload Hp) as [Hids Hfoc].
  assert (Hin : In v (map vis_id (payload_nodes payload))).
  { rewrite Hids.
    now apply (build_contextual_subgraph_focal rt rt_ok clock self F max_hops
                 max_nodes sub v Hwf Hb). }
  apply in_map_iff in Hin. destruct Hin as [n [Hn Hin]].
  exists n. split; [assumption|]. split; [assumption|]. split.
  - rewrite (Hfoc n Hin), Hn. now apply set_mem_In.
  - destruct (graph_to_vis_format_frequency rt clock' self sub F payload Hp n Hin)
      as [Hf _].
    now rewrite Hf, Hn.
Qed.

(** X21.  One query, in a manager the process can hold, on a graph with
    unique node ids and with a decay rate of at most 1: every node whose
    label occurs in the query or in the response has afterwards a weight of
    at least 1 and the clock reading as its last mention; no call of
    [_recency_score] raises and the builder does not raise; and when a
    graph is sent, each of these nodes is in it, marked focal, with that
    weight.  Without [include_graph] nothing is built and nothing can
    fail. *)
Theorem query_endpoint_spec :
  forall now clock clock' self query response_text elapsed include_graph,
  reachable rt self ->
  graph_wf (graph self) ->
  TEMPORAL_DECAY_RATE (settings self) <= 1 ->
  let self' := fst (query_endpoint now clock clock' self query response_text
                      elapsed include_graph) in
  let out := snd (query_endpoint now clock clock' self query response_text
                    elapsed include_graph) in
  let focal v := mentioned self query v \/ mentioned self response_text v in
  reachable rt self'
  /\ (forall v, focal v ->
        exists w, dict_get v (entity_frequency self') = Some w /\ 1 <= w
                  /\ dict_get v (entity_last_seen self') = Some now)
  /\ (forall t v, _recency_score_call t self' v = Ok (_recency_score t self' v))
  /\ (include_graph = false -> out = Ok None)
  /\ (include_graph = true ->
      (exists payload, out = Ok (Some payload))
      \/ (exists sub e,
            build_contextual_subgraph rt clock self'
              (set_update (extract_entities rt self query)
                          (set_iter rt (extract_entities rt self response_text)))
              (Some (MAX_HOPS (settings self')))
              (Some (MAX_GRAPH_NODES (settings self'))) = Ok sub
            /\ out = Raise e))
  /\ (forall payload, out = Ok (Some payload) ->
        forall v, focal v ->
          exists n w, In n (payload_nodes payload) /\ vis_id n = v
                      /\ is_focal n = true /\ vis_frequency n = w /\ 1 <= w).
Proof.
  intros now clock clock' self query response_text elapsed include_graph Hr Hwf
         Hrate self' out focal.
  set (combined := set_update (extract_entities rt self query)
                     (set_iter rt (extract_entities rt self response_text))).
  assert (Hself : self' = update_conversation_context rt now self query response_text
                            (set_iter rt combined) elapsed) by reflexivity.
  assert (Hfocal : forall v, focal v <-> In v combined).
  { intros v. unfold focal, mentioned, combined.
    rewrite set_update_In, (set_iter_In rt rt_ok),
      !(extract_entities_In rt rt_ok) by assumption.
    reflexivity. }
  assert (Hreach : reachable rt self').
  { rewrite Hself.
    apply reach_call
      with (c := CallUpdate now query response_text (set_iter rt combined) elapsed)
           (self := self) (v := VNone); [assumption | reflexivity]. }
  destruct (update_conversation_context_keeps rt now self query response_text
              (set_iter rt combined) elapsed) as [Hg [_ [_ [Hset _]]]].
  rewrite <- Hself in Hg, Hset.
  destruct (reachable_frequency_ok rt self Hr) as [Hnd _].
  assert (Hweight : forall v, focal v ->
            exists w, dict_get v (entity_frequency self') = Some w /\ 1 <= w
                      /\ dict_get v (entity_last_seen self') = Some now).
  { intros v Hv. apply Hfocal in Hv.
    destruct (update_conversation_context_entry rt rt_ok now self query response_text
                (set_iter rt combined) elapsed v Hnd) as [Hin _].
    destruct Hin as [Hf Hs]; [now apply (set_iter_In rt rt_ok)|].
    rewrite <- Hself in Hf, Hs. eexists. split; [exact Hf|]. split; [|exact Hs].
    destruct (decayed (TEMPORAL_DECAY_RATE (settings self))
                (dict_get v (entity_frequency self))) as [w0|] eqn:E; [|lra].
    apply decayed_floor in E. lra. }
  assert (Hwf' : graph_wf (graph self')) by now rewrite Hg.
  split; [exact Hreach|]. split; [exact Hweight|]. split; [|split; [|split]].
  - intros t v. apply _recency_score_call_returns. now rewrite Hset.
  - intros ->. reflexivity.
  - intros ->. unfold out, query_endpoint. cbn [snd]. fold combined.
    rewrite <- Hself.
    destruct (build_contextual_subgraph_returns rt rt_ok clock self' combined
                (Some (MAX_HOPS (settings self')))
                (Some (MAX_GRAPH_NODES (settings self'))) Hwf') as [sub Hb].
    rewrite Hb. cbn [bind].
    destruct (graph_to_vis_format rt clock' self' sub combined) as [p|e].
    + left. now exists p.
    + right. exists sub, e. split; reflexivity.
  - intros payload Hout v Hv. unfold out, query_endpoint in Hout. cbn [snd] in Hout.
    fold combined in Hout. rewrite <- Hself in Hout.
    destruct include_graph; [|discriminate].
    destruct (build_contextual_subgraph rt clock self' combined
                (Some (MAX_HOPS (settings self')))
                (Some (MAX_GRAPH_NODES (settings self')))) as [sub|e] eqn:Hb;
      cbn [bind] in Hout; [|discriminate].
    destruct (graph_to_vis_format rt clock' self' sub combined) as [p|e] eqn:Hp;
      cbn [bind] in Hout; [|discriminate].
    injection Hout as <-.
    destruct (Hweight v Hv) as [w [Hw [Hw1 _]]].
    assert (Hvg : In v (nodes (graph self'))).
    { rewrite Hg. destruct Hv as [[data [Hd _]] | [data [Hd _]]];
        unfold nodes, dict_keys; apply in_map_iff; now exists (v, data). }
    destruct (payload_focal_nodes clock clock' self' combined _ _ sub p v Hwf' Hb Hp)
      as [n [Hn1 [Hn2 [Hn3 Hn4]]]]; [now apply Hfocal | assumption|].
    exists n, w. repeat split; try assumption.
    rewrite Hn4. unfold dict_get_default. now rewrite Hw.
Qed.

(** X22.  [subgraph_endpoint], in a manager the process can hold, on a
    graph with unique node ids and with a decay rate of at most 1: it
    answers 400 exactly when the parameter is missing or empty, and 404
    exactly when the parameter is not empty and no label of the request is
    the label of a node, case apart.  In every other case, and in no other,
    the subgraph is built: no call of [_recency_score] raises and the
    builder does not raise, and either the export returns and the answer is
    its payload, which holds every node that the request names, marked
    focal, or the export raises and the exception is let through. *)
Theorem subgraph_endpoint_spec : forall clock clock' self entities,
  reachable rt self ->
  graph_wf (graph self) ->
  TEMPORAL_DECAY_RATE (settings self) <= 1 ->
  let answer := subgraph_endpoint clock clock' self entities in
  (answer = HTTPException 400 <-> entities = None \/ entities = Some EmptyString)
  /\ (answer = HTTPException 404 <->
      exists s, entities = Some s /\ s <> EmptyString
                /\ forall v, ~ requested_node self s v)
  /\ (forall t v, _recency_score_call t self v = Ok (_recency_score t self v))
  /\ match answer with
     | HTTPException status_code =>
         (status_code = 400%Z /\ (entities = None \/ entities = Some EmptyString))
         \/ (status_code = 404%Z
             /\ exists s, entities = Some s /\ s <> EmptyString
                          /\ forall v, ~ requested_node self s v)
     | Returns payload =>
         exists s node_ids sub,
           entities = Some s /\ s <> EmptyString
           /\ (exists v, requested_node self s v)
           /\ (forall v, In v node_ids <-> requested_node self s v)
           /\ build_contextual_subgraph rt clock self node_ids
                (Some (MAX_HOPS (settings self)))
                (Some (MAX_GRAPH_NODES (settings self))) = Ok sub
           /\ graph_to_vis_format rt clock' self sub node_ids = Ok payload
           /\ forall v, requested_node self s v ->
                exists n, In n (payload_nodes payload)
                          /\ vis_id n = v /\ is_focal n = true
     | Propagates e =>
         exists s node_ids sub,
           entities = Some s /\ s <> EmptyString
           /\ (exists v, requested_node self s v)
           /\ (forall v, In v node_ids <-> requested_node self s v)
           /\ build_contextual_subgraph rt clock self node_ids
                (Some (MAX_HOPS (settings self)))
                (Some (MAX_GRAPH_NODES (settings self))) = Ok sub
           /\ graph_to_vis_format rt clock' self sub node_ids = Raise e
     end.
Proof.
  intros clock clock' self entities Hr Hwf Hrate. cbv zeta.
  assert (Hscore : forall t v,
            _recency_score_call t self v = Ok (_recency_score t self v)).
  { intros t v. now apply _recency_score_call_returns. }
  unfold subgraph_endpoint.
  destruct entities as [s|].
  2:{ split; [split; [intros _; now left | reflexivity]|].
      split; [split; [discriminate | intros [s [H _]]; discriminate]|].
      split; [exact Hscore|]. left. split; [reflexivity | now left]. }
  destruct s as [|c s0] eqn:Es.
  { split; [split; [intros _; now right | reflexivity]|].
    split; [split; [discriminate|]|].
    { intros [s' [H [Hn _]]]. injection H as <-. now contradiction Hn. }
    split; [exact Hscore|]. left. split; [reflexivity | now right]. }
  rewrite <- Es. assert (Hne : s <> EmptyString) by (rewrite Es; discriminate).
  clear Es.
  assert (Hnot400 : ~ (Some s = None \/ Some s = Some EmptyString)).
  { intros [H | H]; [discriminate | injection H as H; contradiction]. }
  set (requested := filter (fun entity => negb (String.eqb entity ""))
                           (map str_strip (str_split ","%char s))).
  assert (Hreq : forall v, In v (resolve_labels_to_nodes rt self requested)
                           <-> requested_node self s v).
  { intros v. rewrite (resolve_labels_to_nodes_In rt rt_ok) by assumption.
    unfold requested_node, requested. split.
    - intros [label [data [Hl [Hl0 [Hd Hk]]]]]. apply filter_In in Hl.
      destruct Hl as [Hl _]. apply in_map_iff in Hl. destruct Hl as [part [<- Hp]].
      now exists part, data.
    - intros [part [data [Hp [Hs [Hd Hk]]]]]. exists (str_strip part), data.
      split; [|tauto]. apply filter_In. split; [now apply in_map|].
      apply Bool.negb_true_iff, String.eqb_neq. exact Hs. }
  destruct (resolve_labels_to_nodes rt self requested) as [|v0 ids] eqn:Eids.
  - assert (Hnone : exists s', Some s = Some s' /\ s' <> EmptyString
                               /\ forall v, ~ requested_node self s' v).
    { exists s. split; [reflexivity|]. split; [assumption|].
      intros v Hv. now apply Hreq in Hv. }
    split; [split; [discriminate | intros H; now contradiction Hnot400]|].
    split; [split; [intros _; exact Hnone | reflexivity]|].
    split; [exact Hscore|]. right. split; [reflexivity | exact Hnone].
  - assert (Hsome : exists v, requested_node self s v).
    { exists v0. apply Hreq. now left. }
    assert (Hnot404 : ~ exists s', Some s = Some s' /\ s' <> EmptyString
                                   /\ forall v, ~ requested_node self s' v).
    { intros [s' [H [_ Hno]]]. injection H as <-.
      destruct Hsome as [v Hv]. now apply (Hno v). }
    rewrite <- Eids in *.
    destruct (build_contextual_subgraph_returns rt rt_ok clock self
                (resolve_labels_to_nodes rt self requested)
                (Some (MAX_HOPS (settings self)))
                (Some (MAX_GRAPH_NODES (settings self))) Hwf) as [sub Hb].
    rewrite Hb.
    destruct (graph_to_vis_format rt clock' self sub
                (resolve_labels_to_nodes rt self requested)) as [payload|e] eqn:Hp.
    + split; [split; [discriminate | intros H; now contradiction Hnot400]|].
      split; [split; [discriminate | intros H; now contradiction Hnot404]|].
      split; [exact Hscore|].
      exists s, (resolve_labels_to_nodes rt self requested), sub.
      split; [reflexivity|]. split; [assumption|]. split; [exact Hsome|].
      split; [exact Hreq|]. split; [exact Hb|]. split; [exact Hp|].
      intros v Hv.
      destruct (payload_focal_nodes clock clock' self _ _ _ sub payload v Hwf Hb Hp)
        as [n [Hn1 [Hn2 [Hn3 _]]]].
      * now apply Hreq.
      * destruct Hv as [part [data [_ [_ [Hd _]]]]].
        unfold nodes, dict_keys. apply in_map_iff. now exists (v, data).
      * now exists n.
    + split; [split; [discriminate | intros H; now contradiction Hnot400]|].
      split; [split; [discriminate | intros H; now contradiction Hnot404]|].
      split; [exact Hscore|].
      exists s, (resolve_labels_to_nodes rt self requested), sub.
      split; [reflexivity|]. split; [assumption|]. split; [exact Hsome|].
      split; [exact Hreq|]. split; [exact Hb | exact Hp].
Qed.

End Endpoints.

(** ** Helpers of the ingestion

    [utils/helpers.py]: [slugify] names the documents that
    [LightRAGWrapper.ingest_corpus] inserts, [chunked] cuts a sequence into
    batches. *)

(** The class [[a-z0-9]] of the regular expressions of [slugify]. *)
Definition is_slug_char (c : ascii) : bool :=
  let n := nat_of_ascii c in
  ((97 <=? n)%nat && (n <=? 122)%nat) || ((48 <=? n)%nat && (n <=? 57)%nat).

Definition is_dash (c : ascii) : bool := Ascii.eqb c "-".

(** [re.sub("[...]+", "-", s)] for a class of characters [cls]: every
    maximal run of characters of the class becomes one dash.  [in_run] tells
    that the character before was of the class. *)
Fixpoint re_sub_runs (cls : ascii -> bool) (in_run : bool) (s : string) : string :=
  match s with
  | EmptyString => EmptyString
  | String c s' =>
      if cls c
      then if in_run then re_sub_runs cls true s'
           else String "-" (re_sub_runs cls true s')
      else String c (re_sub_runs cls false s')
  end.

(** [s.lstrip("-")], [s.rstrip("-")] and [s.strip("-")]. *)
Fixpoint lstrip_dash (s : string) : string :=
  match s with
  | EmptyString => EmptyString
  | String c s' => if is_dash c then lstrip_dash s' else s
  end.

Fixpoint rstrip_dash (s : string) : string :=
  match s with
  | EmptyString => EmptyString
  | String c s' =>
      match rstrip_dash s' with
      | EmptyString => if is_dash c then EmptyString else String c EmptyString
      | r => String c r
      end
  end.

Definition strip_dash (s : string) : string := rstrip_dash (lstrip_dash s).

(** [chunked(iterable, size)], as the list of the batches it yields;
    [batch] is the batch under construction. *)
Fixpoint chunked_from {A : Type} (batch : list A) (items : list A) (size : Z)
  : list (list A) :=
  match items with
  | [] => match batch with [] => [] | _ :: _ => [batch] end
  | item :: rest =>
      let batch := batch ++ [item] in
      if (len batch >=? size)%Z
      then batch :: chunked_from [] rest size
      else chunked_from batch rest size
  end.

Definition chunked {A : Type} (iterable : list A) (size : Z) : list (list A) :=
  chunked_from [] iterable size.

(** The shape of a slug: characters of [[a-z0-9]] and single dashes between
    them. *)
Fixpoint slug_body (after_dash : bool) (s : string) : bool :=
  match s with
  | EmptyString => negb after_dash
  | String c s' =>
      if is_dash c then negb after_dash && slug_body true s'
      else is_slug_char c && slug_body false s'
  end.

Definition is_slug (s : string) : bool :=
  match s with
  | EmptyString => false
  | String _ _ => slug_body true s
  end.

Section Helpers.

Variable rt : PyRuntime.

(** [str.strip()], a service of the runtime like [str.lower()]. *)
Variable str_strip : string -> string.

Definition slugify (value : string) : string :=
  let value := str_lower rt (str_strip value) in
  let value := re_sub_runs (fun c => negb (is_slug_char c)) false value in
  let value := re_sub_runs is_dash false value in
  match strip_dash value with
  | EmptyString => "document"
  | slug => slug
  end.

(** Slug characters and dashes only, and no dash after a dash: [prev] tells
    that the character before was a dash. *)
Fixpoint dashed (prev : bool) (s : string) : bool :=
  match s with
  | EmptyString => true
  | String c s' =>
      if is_dash c then negb prev && dashed true s'
      else is_slug_char c && dashed false s'
  end.

(** After the first substitution there are slug characters and dashes
    only. *)
Fixpoint slug_or_dash (s : string) : bool :=
  match s with
  | EmptyString => true
  | String c s' => (is_slug_char c || is_dash c) && slug_or_dash s'
  end.

Lemma re_sub_runs_class : forall s b,
  slug_or_dash (re_sub_runs (fun c => negb (is_slug_char c)) b s) = true.
Proof.
  induction s as [|c s IH]; intros b; cbn [re_sub_runs]; [reflexivity|].
  destruct (is_slug_char c) eqn:E; cbn [negb].
  - cbn [slug_or_dash]. now rewrite E, IH.
  - destruct b; [apply IH|]. cbn [slug_or_dash].
    now rewrite IH, Bool.orb_true_r.
Qed.

Lemma re_sub_runs_dashed : forall s b,
  slug_or_dash s = true -> dashed b (re_sub_runs is_dash b s) = true.
Proof.
  induction s as [|c s IH]; intros b H; cbn [re_sub_runs slug_or_dash] in *;
    [reflexivity|].
  apply andb_true_iff in H. destruct H as [Hc Hs].
  destruct (is_dash c) eqn:E.
  - destruct b; [now apply IH|]. cbn [dashed].
    change (is_dash "-") with true. cbn [negb andb]. now apply IH.
  - cbn [dashed]. rewrite E. rewrite Bool.orb_false_r in Hc. rewrite Hc.
    now apply IH.
Qed.

Lemma lstrip_dash_dashed : forall s b,
  dashed b s = true -> dashed true (lstrip_dash s) = true.
Proof.
  induction s as [|c s IH]; intros b H; cbn [lstrip_dash dashed] in *;
    [reflexivity|].
  destruct (is_dash c) eqn:E.
  - apply andb_true_iff in H. destruct H as [_ H]. now apply IH with true.
  - cbn [dashed]. now rewrite E.
Qed.

Lemma rstrip_dash_body : forall s b,
  dashed b s = true ->
  rstrip_dash s = EmptyString \/ slug_body b (rstrip_dash s) = true.
Proof.
  induction s as [|c s IH]; intros b H; cbn [rstrip_dash dashed] in *; [now left|].
  destruct (is_dash c) eqn:E.
  - apply andb_true_iff in H. destruct H as [Hb H].
    destruct (IH true H) as [Hr | Hr].
    + rewrite Hr. now left.
    + destruct (rstrip_dash s) as [|c' r] eqn:Er; [now left|].
      right. cbn [slug_body]. rewrite E, Hb. exact Hr.
  - apply andb_true_iff in H. destruct H as [Hc H].
    destruct (IH false H) as [Hr | Hr].
    + rewrite Hr. right. cbn [slug_body]. now rewrite E, Hc.
    + destruct (rstrip_dash s) as [|c' r] eqn:Er.
      * right. cbn [slug_body]. now rewrite E, Hc.
      * right. cbn [slug_body]. rewrite E, Hc. exact Hr.
Qed.

(** X23.  [slugify] returns a slug whatever it is given: a non-empty string
    of characters of [[a-z0-9]] and dashes that neither starts nor ends
    with a dash and has no two dashes in a row. *)
Theorem slugify_is_slug : forall value, is_slug (slugify value) = true.
Proof.
  intros value. unfold slugify.
  set (s1 := re_sub_runs (fun c => negb (is_slug_char c)) false
               (str_lower rt (str_strip value))).
  pose proof (re_sub_runs_class (str_lower rt (str_strip value)) false) as H1.
  fold s1 in H1.
  pose proof (re_sub_runs_dashed s1 false H1) as H2.
  pose proof (lstrip_dash_dashed _ _ H2) as H3.
  destruct (rstrip_dash_body _ _ H3) as [H4 | H4]; unfold strip_dash.
  - rewrite H4. reflexivity.
  - destruct (rstrip_dash (lstrip_dash (re_sub_runs is_dash false s1)))
      as [|c r]; [reflexivity|]. exact H4.
Qed.

End Helpers.

Lemma chunked_from_concat : forall (A : Type) (items batch : list A) size,
  List.concat (chunked_from batch items size) = batch ++ items.
Proof.
  intros A items. induction items as [|x items IH]; intros batch size; simpl.
  - destruct batch; simpl; [reflexivity | now rewrite !app_nil_r].
  - destruct (len (batch ++ [x]) >=? size)%Z; simpl.
    + rewrite IH. simpl. now rewrite <- app_assoc.
    + rewrite IH. now rewrite <- app_assoc.
Qed.

Lemma chunked_from_nonempty : forall (A : Type) (items batch : list A) size,
  Forall (fun c => c <> []) (chunked_from batch items size).
Proof.
  intros A items. induction items as [|x items IH]; intros batch size; simpl.
  - destruct batch as [|b batch]; [constructor|].
    constructor; [intros H; discriminate H | constructor].
  - destruct (len (batch ++ [x]) >=? size)%Z.
    + constructor; [|apply IH]. intros H. now destruct batch.
    + apply IH.
Qed.

Lemma chunked_from_sizes : forall (A : Type) (items batch : list A) size chunks last,
  (len batch < size)%Z ->
  chunked_from batch items size = chunks ++ [last] ->
  Forall (fun c => len c = size) chunks /\ (1 <= len last <= size)%Z.
Proof.
  intros A items. induction items as [|x items IH]; intros batch size chunks last Hb H;
    simpl in H.
  - destruct batch as [|b batch]; [now destruct chunks|].
    destruct chunks as [|c [|c' chunks]]; try discriminate.
    injection H as <-. split; [constructor|]. unfold len in *. simpl in *. lia.
  - assert (Hlen : len (batch ++ [x]) = (len batch + 1)%Z).
    { unfold len. rewrite length_app. simpl. lia. }
    destruct (len (batch ++ [x]) >=? size)%Z eqn:E.
    + assert (Hsz : len (batch ++ [x]) = size) by lia.
      destruct chunks as [|c chunks].
      * simpl in H. injection H as <- Hrest.
        split; [constructor | unfold len in *; lia].
      * simpl in H. injection H as <- Hrest.
        assert (H0 : (len (@nil A) < size)%Z) by (unfold len in *; simpl; lia).
        destruct (IH [] size chunks last H0 Hrest) as [Hc Hl].
        split; [constructor; assumption | assumption].
    + apply (IH (batch ++ [x]) size chunks last); [lia | assumption].
Qed.

Lemma chunked_from_singletons : forall (A : Type) (items : list A) size,
  (size <= 1)%Z -> chunked_from [] items size = map (fun x => [x]) items.
Proof.
  intros A items size Hs. induction items as [|x items IH]; simpl; [reflexivity|].
  destruct (len [x] >=? size)%Z eqn:E; [now rewrite IH|].
  unfold len in E. simpl in E. lia.
Qed.

(** X24.  The batches of [chunked] are the input cut in pieces: joined they
    give the input back, none is empty, and for a size of at least 1 every
    batch but the last has [size] items and the last has at most [size];
    for a size under 1 every item is a batch of its own. *)
Theorem chunked_spec : forall (A : Type) (iterable : list A) size,
  List.concat (chunked iterable size) = iterable
  /\ Forall (fun c => c <> []) (chunked iterable size)
  /\ ((1 <= size)%Z ->
      forall chunks last, chunked iterable size = chunks ++ [last] ->
        Forall (fun c => len c = size) chunks /\ (1 <= len last <= size)%Z)
  /\ ((size <= 1)%Z -> chunked iterable size = map (fun x => [x]) iterable).
Proof.
  intros A iterable size. unfold chunked. split; [apply chunked_from_concat|].
  split; [apply chunked_from_nonempty|]. split.
  - intros Hs chunks last H. apply chunked_from_sizes with iterable []; [|assumption].
    unfold len. simpl. lia.
  - apply chunked_from_singletons.
Qed.

(** ** The further properties at the examples *)

(** [str.strip()] of the examples: blanks at both ends go. *)
Fixpoint example_lstrip (s : string) : string :=
  match s with
  | String " " s' => example_lstrip s'
  | _ => s
  end.

Fixpoint example_rstrip (s : string) : string :=
  match s with
  | EmptyString => EmptyString
  | String c s' =>
      match example_rstrip s' with
      | EmptyString => if Ascii.eqb c " " then EmptyString else String c EmptyString
      | r => String c r
      end
  end.

Definition example_strip (s : string) : string := example_rstrip (example_lstrip s).

(** A second turn, an hour later, that mentions no entity. *)
Definition example_silence : Turn := {|
  turn_now := 3600;
  turn_query := "and then?";
  turn_response := "nothing more";
  turn_entities := [];
  turn_time := 0.5
|}.

Example slugify_example :
  slugify example_runtime example_strip "  My Report (final).v2 "
  = "my-report-final-v2"%string.
Proof. reflexivity. Qed.

Example slugify_nothing_left :
  slugify example_runtime example_strip " ?! " = "document"%string.
Proof. reflexivity. Qed.

Example chunked_example :
  chunked ["a"; "b"; "c"; "d"; "e"]%string 2
  = [["a"; "b"]; ["c"; "d"]; ["e"]]%string.
Proof. reflexivity. Qed.

Example str_split_example :
  str_split ","%char "Ada, b,,c" = ["Ada"; " b"; ""; "c"]%string.
Proof. reflexivity. Qed.

Example example_strip_blanks : example_strip "  Ada Lovelace " = "Ada Lovelace"%string.
Proof. reflexivity. Qed.

Example extract_entities_example :
  extract_entities example_runtime example_loaded "Did ADA meet Delta?"
  = ["A"; "D"]%string.
Proof. reflexivity. Qed.

Example resolve_labels_to_nodes_example :
  resolve_labels_to_nodes example_runtime example_loaded
    ["ADA"; ""; "nobody"; "b"]%string
  = ["A"; "B"]%string.
Proof. reflexivity. Qed.

Example subgraph_endpoint_missing :
  subgraph_endpoint example_runtime example_strip example_clock example_clock
    example_loaded None = HTTPException 400.
Proof. reflexivity. Qed.

Example subgraph_endpoint_unknown :
  subgraph_endpoint example_runtime example_strip example_clock example_clock
    example_loaded (Some " nobody , ,"%string) = HTTPException 404.
Proof. reflexivity. Qed.

Lemma example_renderable : renderable example_runtime example_turn example_graph.
Proof.
  split.
  - intros v m Hm. simpl in Hm.
    repeat (destruct (String.eqb v _) in Hm;
            [injection Hm as <-; simpl; eexists; reflexivity|]).
    discriminate.
  - intros a b d Hin. simpl in Hin.
    destruct Hin as [Hin | [Hin | []]]; injection Hin as <- <- <-;
      simpl; eexists; reflexivity.
Qed.

Lemma indices_follow_graph_witness :
  indexed (label_index example_turn) "ada" "A" <->
  exists data, In ("A"%string, data) (g_nodes (graph example_turn))
               /\ "ada"%string = label_key example_runtime "A" data.
Proof.
  exact (proj1 (indices_follow_graph example_runtime example_turn
                  example_turn_reachable) "ada"%string "A"%string).
Defined.

Lemma extract_entities_spec_witness :
  NoDup (extract_entities example_runtime example_turn "who is Ada").
Proof.
  exact (proj1 (extract_entities_spec example_runtime example_runtime_ok
                  example_turn "who is Ada" example_turn_reachable)).
Defined.

Lemma resolve_labels_to_nodes_spec_witness :
  In "A"%string
     (resolve_labels_to_nodes example_runtime example_turn ["ADA"; ""]%string)
  <-> exists label data,
        In label ["ADA"; ""]%string /\ label <> EmptyString
        /\ In ("A"%string, data) (g_nodes (graph example_turn))
        /\ label_key example_runtime "A" data = str_lower example_runtime label.
Proof.
  exact (proj1 (resolve_labels_to_nodes_spec example_runtime example_runtime_ok
                  example_turn ["ADA"; ""]%string example_turn_reachable)
               "A"%string).
Defined.

Lemma node_found_by_its_label_witness :
  In "D"%string (extract_entities example_runtime example_loaded "Delta").
Proof.
  refine (proj1 (node_found_by_its_label example_runtime example_runtime_ok
                   example_loaded "D" [("label", AStr "Delta")]%string
                   example_loaded_reachable _)).
  simpl. tauto.
Defined.

Lemma _shortest_path_length_safe_is_distance_witness :
  match _shortest_path_length_safe example_loaded "A" "B" with
  | Some d =>
      In "A"%string (nodes (graph example_loaded))
      /\ In "B"%string (nodes (graph example_loaded))
      /\ within (graph example_loaded) "A" d "B"
      /\ forall k, within (graph example_loaded) "A" k "B" -> (d <= k)%nat
  | None =>
      ~ (In "A"%string (nodes (graph example_loaded))
         /\ In "B"%string (nodes (graph example_loaded))
         /\ connected (graph example_loaded) "A" "B")
  end.
Proof.
  exact (_shortest_path_length_safe_is_distance example_loaded "A" "B"
           example_graph_wf).
Defined.

Lemma _shortest_path_safe_is_shortest_witness :
  exists p,
    _shortest_path_safe example_loaded "A" "B" = rev ("B"%string :: p)
    /\ rpath (graph example_loaded) "A" ("B"%string :: p)
    /\ forall k, within (graph example_loaded) "A" k "B" -> (List.length p <= k)%nat.
Proof.
  refine (proj1 (_shortest_path_safe_is_shortest example_loaded "A" "B"
                   example_graph_wf) _).
  split; [simpl; tauto|]. split; [simpl; tauto|].
  apply conn_step with "A"%string; [constructor|].
  unfold adjacent. simpl. tauto.
Defined.



Lemma _recency_score_range_witness :
  (0 <= _recency_score 3600 example_turn "A" <= 1)%R.
Proof.
  refine (proj1 (_recency_score_range 3600 example_turn "A" _)).
  simpl. lra.
Defined.

Lemma calculate_node_importance_range_witness :
  (0.3 * 0.3 + 0.2 * 1.0
   <= calculate_node_importance 3600 example_turn "A" ["A"%string]
   <= 0.3 + 0.2 + (0.3 * 0.3 + 0.2 * 1.0))%R.
Proof.
  refine (calculate_node_importance_range example_runtime 3600 example_turn "A"
            ["A"%string] example_turn_reachable _ _ _); simpl; lra.
Defined.

Lemma update_conversation_context_turn_witness :
  total_queries example_turn = (total_queries example_loaded + 1)%Z.
Proof.
  refine (proj1 (proj2 (proj2
    (update_conversation_context_turn example_runtime example_runtime_ok 0
       example_loaded "who is Ada" "Ada founded B" ["A"%string] 1.5
       example_loaded_reachable)))).
Defined.

Lemma unmentioned_entity_fades_witness :
  dict_get "A" (entity_frequency (converse example_runtime example_turn [example_silence]))
  = (if Rltb ((0 + 1.0) * 0.95 ^ 1) 1e-4 then None
     else Some ((0 + 1.0) * 0.95 ^ 1)%R).
Proof.
  refine (proj1 (unmentioned_entity_fades example_runtime example_runtime_ok
                   example_turn [example_silence] "A" (0 + 1.0)%R
                   example_turn_reachable _ _ _)).
  - simpl. lra.
  - intros t [<- | []]. simpl. tauto.
  - reflexivity.
Defined.

Lemma conversation_context_invariant_witness :
  total_queries example_turn = len (response_times example_turn).
Proof.
  exact (proj1 (conversation_context_invariant example_runtime example_runtime_ok
                  example_turn example_turn_reachable)).
Defined.



Lemma graph_to_vis_format_sizes_witness :
  exists payload e,
    graph_to_vis_format example_runtime example_clock example_turn example_graph
      ["A"%string] = Ok payload
    /\ In e (payload_nodes payload)
    /\ (vis_size e <= 28)%R.
Proof.
  destruct (graph_to_vis_format_returns example_runtime example_clock example_turn
              example_graph ["A"%string] example_renderable) as [payload Hp].
  destruct (graph_to_vis_format_Ok example_runtime example_clock example_turn
              example_graph ["A"%string] payload Hp) as [Hids _].
  destruct (payload_nodes payload) as [|e es] eqn:En; [discriminate|].
  exists payload, e. split; [assumption|]. rewrite En. split; [now left|].
  refine (proj1 (graph_to_vis_format_sizes example_runtime example_clock example_turn
                   example_graph ["A"%string] payload Hp e _)).
  rewrite En. now left.
Defined.

Lemma graph_to_vis_format_links_witness :
  exists payload,
    graph_to_vis_format example_runtime example_clock example_turn example_graph
      ["A"%string] = Ok payload
    /\ map (fun l => (link_source l, link_target l)) (payload_links payload)
       = [("A", "B"); ("C", "D")]%string.
Proof.
  destruct (graph_to_vis_format_returns example_runtime example_clock example_turn
              example_graph ["A"%string] example_renderable) as [payload Hp].
  exists payload. split; [assumption|].
  exact (proj1 (graph_to_vis_format_links example_runtime example_clock example_turn
                  example_graph ["A"%string] payload Hp)).
Defined.

Lemma graph_to_vis_format_returns_iff_witness :
  exists payload,
    graph_to_vis_format example_runtime example_clock example_turn example_graph
      ["A"%string] = Ok payload.
Proof.
  refine (proj2 (proj2 (graph_to_vis_format_returns_iff example_runtime
                          example_clock example_turn example_graph
                          ["A"%string] _)) _).
  - simpl. lra.
  - destruct example_renderable as [H1 H2]. split; [|exact H2].
    intros v m _. apply H1.
Defined.

Lemma query_endpoint_spec_witness :
  reachable example_runtime
    (fst (query_endpoint example_runtime 0 example_clock example_clock example_loaded
            "who is Ada" "Ada founded B" 1.5 true)).
Proof.
  refine (proj1 (query_endpoint_spec example_runtime example_runtime_ok 0
                   example_clock example_clock example_loaded "who is Ada"
                   "Ada founded B" 1.5 true example_loaded_reachable _ _)).
  - reflexivity.
  - simpl. lra.
Defined.

(** Whatever the builder returns on the example graph can be exported. *)
Lemma example_built_renderable : forall clock focal_entities max_hops max_nodes sub,
  build_contextual_subgraph example_runtime clock example_loaded focal_entities
    max_hops max_nodes = Ok sub ->
  renderable example_runtime example_loaded sub.
Proof.
  intros clock F max_hops max_nodes sub Hb.
  destruct (build_contextual_subgraph_spec example_runtime example_runtime_ok clock
              example_loaded F max_hops max_nodes example_graph_wf eq_refl)
    as [sel0 [sel' [_ [_ H]]]].
  rewrite H in Hb. injection Hb as <-. split.
  - intros v m Hm. simpl in Hm.
    repeat (destruct (String.eqb v _) in Hm;
            [injection Hm as <-; simpl; eexists; reflexivity|]).
    discriminate.
  - intros a b d Hin. apply subgraph_edges_In in Hin. destruct Hin as [Hin _].
    simpl in Hin.
    destruct Hin as [Hin | [Hin | []]]; injection Hin as <- <- <-;
      simpl; eexists; reflexivity.
Qed.

Lemma example_request : forall v,
  requested_node example_runtime example_strip example_loaded "Ada, b" v
  <-> v = "A"%string \/ v = "B"%string.
Proof.
  intros v. unfold requested_node. split.
  - intros [part [data [Hp [_ [Hd Hk]]]]]. simpl in Hp, Hd.
    destruct Hd as [Hd | [Hd | [Hd | [Hd | []]]]]; injection Hd as <- <-;
      destruct Hp as [<- | [<- | []]]; try discriminate Hk; tauto.
  - intros [-> | ->].
    + exists "Ada"%string, [("name", AStr "Ada"); ("entity_type", AStr "person")]%string.
      simpl. repeat split; try tauto. discriminate.
    + exists " b"%string, [("entity_type", AStr "ORG")]%string.
      simpl. repeat split; try tauto. discriminate.
Qed.

Lemma subgraph_endpoint_spec_witness :
  exists payload,
    subgraph_endpoint example_runtime example_strip example_clock example_clock
      example_loaded (Some "Ada, b"%string) = Returns payload
    /\ (exists n, In n (payload_nodes payload)
                  /\ vis_id n = "A"%string /\ is_focal n = true)
    /\ (exists n, In n (payload_nodes payload)
                  /\ vis_id n = "B"%string /\ is_focal n = true).
Proof.
  destruct (subgraph_endpoint_spec example_runtime example_runtime_ok example_strip
              example_clock example_clock example_loaded (Some "Ada, b"%string)
              example_loaded_reachable example_graph_wf)
    as [H400 [H404 [_ H]]].
  - simpl. lra.
  - destruct (subgraph_endpoint example_runtime example_strip example_clock
                example_clock example_loaded (Some "Ada, b"%string))
      as [payload | status_code | e].
    + exists payload. split; [reflexivity|].
      destruct H as [s [ids [sub [Hs [_ [_ [_ [_ [_ Hfocal]]]]]]]]].
      injection Hs as <-.
      split; apply Hfocal, example_request; tauto.
    + exfalso. destruct H as [[_ [H | H]] | [_ [s [Hs [_ Hno]]]]];
        try discriminate H.
      injection Hs as <-. apply (Hno "A"%string), example_request. now left.
    + exfalso. destruct H as [s [ids [sub [_ [_ [_ [_ [Hb Hp]]]]]]]].
      destruct (graph_to_vis_format_returns example_runtime example_clock
                  example_loaded sub ids
                  (example_built_renderable _ _ _ _ _ Hb)) as [payload Hok].
      rewrite Hok in Hp. discriminate.
Defined.

Lemma reload_graph_idempotent_witness :
  reload_graph example_runtime example_env example_loaded = Ok example_loaded.
Proof.
  refine (proj1 (reload_graph_idempotent example_runtime example_env
                   (mkManager default_settings empty_graph [] [] [] [] 0%Z [] []
                      None None [])
                   example_loaded _)).
  exact example_loaded_init.
Defined.
